(** * Honeybee kiosk app: a shallow embedding of the teardown, media and
      system commands, the MusicApp/RecorderApp handlers and the
      sensing-to-rendering pipeline, with the properties the specification
      states about them.

    Layout:
    - [Result]: Rust's [Result<T, E>] and a JS promise's settled value.
    - [SystemCmd]: [set_brightness] of [commands/system.rs].
    - [Media]: [delete_media] of [commands/media.rs], over an interface of
      the file-system calls it makes, with one instance that has symbolic
      links and [..] components.
    - [MusicApp]: [deleteRecording] and [playTrack] of MusicApp.tsx.
    - [Recorder]: [handleClose] of RecorderApp.tsx.
    - [Lifecycle]: the "Cleanup on Unmount" sequence of IMPLEMENTATION.md.
    - [Gaze], [Pipeline]: the capture scheduler, frame conversion and gaze
      computation. MediaPipeEyeTracker.tsx is not among the sources, so
      these are modelled from the specification and marked as such. *)

From Stdlib Require Import ZArith QArith List String Ascii Bool Lia DecimalString.
From Stdlib Require Import DecimalPos DecimalN Sorted Permutation.
From stdpp Require Import base option list strings gmap.

Set Default Proof Using "Type".

(** ** Results *)

(** Rust's [Result<T, E>]; also the settled value of an awaited promise
    ([Ok] = fulfilled, [Err] = rejected). *)
Inductive Result (T E : Type) : Type :=
| Ok (value : T)
| Err (error : E).
Arguments Ok {T E} value.
Arguments Err {T E} error.

Definition is_ok {T E} (r : Result T E) : bool :=
  match r with Ok _ => true | Err _ => false end.

Definition is_err {T E} (r : Result T E) : bool := negb (is_ok r).

(** [Result::map_err]. *)
Definition map_err {T E F} (f : E -> F) (r : Result T E) : Result T F :=
  match r with Ok v => Ok v | Err e => Err (f e) end.

(** Rust's [?] on a [Result]: return early with the error. *)
Notation "'let?' x := e 'in' k" :=
  (match e with Ok x => k | Err err => Err err end)
  (at level 10, x binder, e at level 100, k at level 200).

(** [Option::ok_or]. *)
Definition ok_or {T E} (o : option T) (e : E) : Result T E :=
  match o with Some v => Ok v | None => Err e end.

(** ** commands/system.rs *)

Module SystemCmd.
Local Open Scope string_scope.
Local Open Scope Z_scope.

(** [std::process::Command] as the code builds it: a program and its
    arguments. *)
Record Command : Type := mkCommand {
  program : string;
  args : list string
}.

(** [std::process::Output]. *)
Record Output : Type := mkOutput {
  status : Z;
  stdout : string;
  stderr : string
}.

(** The operating system as the code sees it through [Command::output]:
    spawning either fails with an [io::Error] (rendered as its message) or
    yields the finished process's output, whatever its exit status. *)
Definition Spawner : Type := Command -> Result Output string.

(** The range of a [u8]. *)
Definition is_u8 (n : Z) : Prop := 0 <= n <= 255.

(** [Ord::clamp]: [max] if above, [min] if below, else the value. *)
Definition clamp (v lo hi : Z) : Z :=
  if v <? lo then lo else if hi <? v then hi else v.

(** [format!("{}", n)] for an unsigned integer: decimal, no sign, no
    padding. *)
Definition display_u8 (n : Z) : string :=
  NilZero.string_of_uint (N.to_uint (Z.to_N n)).

(** The command line [set_brightness] builds for a level. *)
Definition brightness_command (safe_level : Z) : Command :=
  {| program := "brightnessctl";
     args := ["set"; display_u8 safe_level ++ "%"] |}.

(** [set_brightness]. The first component is the list of commands handed to
    the operating system, in order; the second is the function's result. *)
Definition set_brightness (os : Spawner) (level : Z)
  : list Command * Result unit string :=
  let safe_level := clamp level 5 100 in
  let cmd := brightness_command safe_level in
  match map_err (fun e => "Failed to set brightness: " ++ e) (os cmd) with
  | Err e => ([cmd], Err e)
  | Ok _ => ([cmd], Ok tt)
  end.

(** A system on which [brightnessctl] is installed and exits with the given
    status, and one on which it cannot be spawned. *)
Definition os_exits_with (code : Z) : Spawner :=
  fun _ => Ok {| status := code; stdout := ""; stderr := "" |}.

Definition os_not_installed : Spawner :=
  fun _ => Err "No such file or directory (os error 2)".

End SystemCmd.

(** ** commands/media.rs *)

Module Media.
Local Open Scope string_scope.

(** [std::path::Component] on Unix. *)
Inductive Component : Type :=
| RootDir
| CurDir
| ParentDir
| Normal (name : string).

#[global] Instance Component_eq_dec : EqDecision Component.
Proof. solve_decision. Defined.

(** A path is the sequence of its components, which is how [Path]
    compares and how [starts_with] matches. *)
Definition Path : Type := list Component.

(** Splitting a string at every ["/"]. *)
Fixpoint split_slash_aux (acc : string) (s : string) : list string :=
  match s with
  | EmptyString => [String.rev acc]
  | String c rest =>
      if Ascii.eqb c "/" then String.rev acc :: split_slash_aux "" rest
      else split_slash_aux (String c acc) rest
  end.

Definition split_slash (s : string) : list string := split_slash_aux "" s.

Definition component_of (name : string) : option Component :=
  if String.eqb name "" then None
  else if String.eqb name "." then None
  else if String.eqb name ".." then Some ParentDir
  else Some (Normal name).

(** [PathBuf::from] followed by [Path::components]: a leading ["/"] is the
    root, repeated separators and ["."] are dropped (a leading ["."] of a
    relative path is kept), [".."] is kept as it is. *)
Definition PathBuf_from (s : string) : Path :=
  let parts := split_slash s in
  match s with
  | String "/" _ => RootDir :: omap component_of parts
  | _ =>
      match parts with
      | "." :: rest => CurDir :: omap component_of rest
      | _ => omap component_of parts
      end
  end.

(** [Path::join]: an absolute argument replaces the base. *)
Definition join (base p : Path) : Path :=
  match p with
  | RootDir :: _ => p
  | _ => (base ++ p)%list
  end.

(** [Path::starts_with]: [base] is a prefix of [p], whole components
    only. *)
Fixpoint starts_with (p base : Path) : bool :=
  match base, p with
  | [], _ => true
  | _ :: _, [] => false
  | b :: base', c :: p' => if decide (b = c) then starts_with p' base' else false
  end.

Definition MEDIA_BASE : string := ".config/honeybee/media".

(** The calls [delete_media] makes on its environment. An [io::Error] is
    rendered as its message. A failed [remove_file] leaves the file system
    as it was. *)
Class FileSystem (FS : Type) : Type := {
  home_dir : FS -> option Path;
  canonicalize : FS -> Path -> Result Path string;
  remove_file : FS -> Path -> Result FS string
}.

Section DeleteMedia.
Context {FS : Type} `{FileSystem FS}.

(** The body of [delete_media]: the file system after the call when it
    returns [Ok(())], the error message otherwise. *)
Definition delete_media_body (fs : FS) (path : string) : Result FS string :=
  let file_path := PathBuf_from path in
  let? home := ok_or (home_dir fs) "Cannot determine home directory" in
  let media_base := join home (PathBuf_from MEDIA_BASE) in
  let? canonical_path :=
    map_err (fun _ => "File not found") (canonicalize fs file_path) in
  let? canonical_base :=
    map_err (fun _ => "Media directory not found") (canonicalize fs media_base) in
  if negb (starts_with canonical_path canonical_base) then
    Err "Access denied: path outside media directory"
  else
    let? fs' :=
      map_err (fun e => "Failed to delete: " ++ e) (remove_file fs file_path) in
    Ok fs'.

(** [delete_media]: the file system it leaves and the value it returns. *)
Definition delete_media (fs : FS) (path : string) : FS * Result unit string :=
  match delete_media_body fs path with
  | Ok fs' => (fs', Ok tt)
  | Err e => (fs, Err e)
  end.

End DeleteMedia.

End Media.

(** ** A file system with symbolic links

    One instance of [Media.FileSystem], with directories, regular files and
    symbolic links, on which [canonicalize] resolves links and [..] as
    [realpath] does and [remove_file] unlinks a name as [unlink] does. *)

Module Disk.
Import Media.
Local Open Scope string_scope.

Inductive Node : Type :=
| File
| Dir
| Symlink (target : string).

(** Entries are keyed by their absolute, link-free name; the root directory
    [[]] always exists. *)
Record Disk : Type := mkDisk {
  nodes : gmap (list string) Node;
  home : option string;
  cwd : list string
}.

Definition ENOENT : string := "No such file or directory (os error 2)".
Definition ENOTDIR : string := "Not a directory (os error 20)".
Definition EISDIR : string := "Is a directory (os error 21)".
Definition ELOOP : string := "Too many levels of symbolic links (os error 40)".

(** Walks [rest] from the directory [cur]. Every component costs one unit
    of fuel, a symbolic link puts its target's components in front of the
    rest. *)
Fixpoint resolve (fuel : nat) (ns : gmap (list string) Node)
    (cur : list string) (rest : Path) : Result (list string) string :=
  match fuel with
  | O => Err ELOOP
  | S fuel' =>
      match rest with
      | [] => Ok cur
      | RootDir :: rest' => resolve fuel' ns [] rest'
      | CurDir :: rest' => resolve fuel' ns cur rest'
      | ParentDir :: rest' => resolve fuel' ns (removelast cur) rest'
      | Normal name :: rest' =>
          let p := (cur ++ [name])%list in
          match ns !! p with
          | None => Err ENOENT
          | Some Dir => resolve fuel' ns p rest'
          | Some File =>
              match rest' with
              | [] => Ok p
              | _ :: _ => Err ENOTDIR
              end
          | Some (Symlink target) =>
              resolve fuel' ns cur (PathBuf_from target ++ rest')%list
          end
      end
  end.

Definition RESOLVE_FUEL : nat := 128.

Definition absolute (names : list string) : Path := RootDir :: map Normal names.

Definition disk_canonicalize (d : Disk) (p : Path) : Result Path string :=
  let? names := resolve RESOLVE_FUEL (nodes d) (cwd d) p in
  Ok (absolute names).

(** [unlink]: the directory part is resolved, the last name is not
    followed; a directory is refused. *)
Definition disk_remove_file (d : Disk) (p : Path) : Result Disk string :=
  match rev p with
  | Normal name :: parent_rev =>
      let? dir := resolve RESOLVE_FUEL (nodes d) (cwd d) (rev parent_rev) in
      let key := (dir ++ [name])%list in
      match nodes d !! key with
      | None => Err ENOENT
      | Some Dir => Err EISDIR
      | Some _ =>
          Ok {| nodes := delete key (nodes d); home := home d; cwd := cwd d |}
      end
  | _ => Err EISDIR
  end.

#[global] Instance Disk_FileSystem : FileSystem Disk := {
  home_dir d := PathBuf_from <$> home d;
  canonicalize := disk_canonicalize;
  remove_file := disk_remove_file
}.

(** A kiosk disk: the media directory with one photo, one recording, a
    link inside the media directory that points out of it, a link outside
    that points into it, and a file outside. *)
Definition kiosk_nodes : gmap (list string) Node :=
  list_to_map [
    (["home"], Dir);
    (["home"; "bee"], Dir);
    (["home"; "bee"; ".config"], Dir);
    (["home"; "bee"; ".config"; "honeybee"], Dir);
    (["home"; "bee"; ".config"; "honeybee"; "media"], Dir);
    (["home"; "bee"; ".config"; "honeybee"; "media"; "photos"], Dir);
    (["home"; "bee"; ".config"; "honeybee"; "media"; "photos"; "a.jpg"], File);
    (["home"; "bee"; ".config"; "honeybee"; "media"; "photos"; "escape"],
       Symlink "/etc/passwd");
    (["home"; "bee"; ".config"; "honeybee"; "media"; "audio"], Dir);
    (["home"; "bee"; ".config"; "honeybee"; "media"; "audio"; "r.webm"], File);
    (["home"; "bee"; ".config"; "honeybee"; "media-old"], Dir);
    (["home"; "bee"; ".config"; "honeybee"; "media-old"; "b.jpg"], File);
    (["etc"], Dir);
    (["etc"; "passwd"], File);
    (["tmp"], Dir);
    (["tmp"; "shortcut"],
       Symlink "/home/bee/.config/honeybee/media/audio/r.webm")
  ].

Definition kiosk : Disk :=
  {| nodes := kiosk_nodes; home := Some "/home/bee"; cwd := [] |}.

End Disk.

(** ** MusicApp.tsx *)

Module MusicApp.
Local Open Scope string_scope.

Record RecordingInfo : Type := mkRecording {
  filename : string;
  path : string;
  size : Z;
  modified : Z
}.

(** What the component does to the world outside its React state, in the
    order it does it. *)
Inductive Effect : Type :=
| Invoke (command : string) (arg : string)
| AudioPause (src : string)
| AudioPlay (src : string)
| ConsoleError (label : string) (err : string).

(** The component's [useState] cells, its two refs and what it has done to
    the world. [audioRef] holds the source of the [Audio] element it points
    to, [progressInterval] the id of the timer, [None] for [null]. *)
Record State : Type := mkState {
  recordings : list RecordingInfo;
  loading : bool;
  currentTrack : option RecordingInfo;
  isPlaying : bool;
  progress : Q;
  duration : Q;
  confirmDelete : option string;
  deleting : bool;
  audioRef : option string;
  progressInterval : option nat;
  effects : list Effect
}.

(** The setters of the cells [deleteRecording] writes, and the assignment
    to [audioRef.current]. *)
Definition setRecordings (f : list RecordingInfo -> list RecordingInfo) (st : State) : State :=
  mkState (f (recordings st)) (loading st) (currentTrack st) (isPlaying st)
    (progress st) (duration st) (confirmDelete st) (deleting st) (audioRef st)
    (progressInterval st) (effects st).

Definition setCurrentTrack (t : option RecordingInfo) (st : State) : State :=
  mkState (recordings st) (loading st) t (isPlaying st) (progress st)
    (duration st) (confirmDelete st) (deleting st) (audioRef st)
    (progressInterval st) (effects st).

Definition setIsPlaying (b : bool) (st : State) : State :=
  mkState (recordings st) (loading st) (currentTrack st) b (progress st)
    (duration st) (confirmDelete st) (deleting st) (audioRef st)
    (progressInterval st) (effects st).

Definition setConfirmDelete (c : option string) (st : State) : State :=
  mkState (recordings st) (loading st) (currentTrack st) (isPlaying st)
    (progress st) (duration st) c (deleting st) (audioRef st)
    (progressInterval st) (effects st).

Definition setDeleting (b : bool) (st : State) : State :=
  mkState (recordings st) (loading st) (currentTrack st) (isPlaying st)
    (progress st) (duration st) (confirmDelete st) b (audioRef st)
    (progressInterval st) (effects st).

Definition setAudioRef (a : option string) (st : State) : State :=
  mkState (recordings st) (loading st) (currentTrack st) (isPlaying st)
    (progress st) (duration st) (confirmDelete st) (deleting st) a
    (progressInterval st) (effects st).

Definition setProgress (x : Q) (st : State) : State :=
  mkState (recordings st) (loading st) (currentTrack st) (isPlaying st)
    x (duration st) (confirmDelete st) (deleting st) (audioRef st)
    (progressInterval st) (effects st).

Definition setProgressInterval (t : option nat) (st : State) : State :=
  mkState (recordings st) (loading st) (currentTrack st) (isPlaying st)
    (progress st) (duration st) (confirmDelete st) (deleting st) (audioRef st)
    t (effects st).

(** An effect on the world, recorded after the earlier ones. *)
Definition perform (e : Effect) (st : State) : State :=
  mkState (recordings st) (loading st) (currentTrack st) (isPlaying st)
    (progress st) (duration st) (confirmDelete st) (deleting st) (audioRef st)
    (progressInterval st) (effects st ++ [e]).

(** [playTrack], when nothing else runs during its two awaits. [read] is
    how [read_audio_file] settles, [played] how [audio.play()] settles,
    [timer] the id [setInterval] gives. The element is named by its source;
    the listeners it is given run on later events of the element, and the
    timers, cleared and set, are not among the recorded effects. *)
Definition playTrack (read : Result string string) (played : Result unit string)
    (timer : nat) (recording : RecordingInfo) (st : State) : State :=
  let st :=
    match audioRef st with
    | Some src => setAudioRef None (perform (AudioPause src) st)
    | None => st
    end in
  let st := perform (Invoke "read_audio_file" (path recording)) st in
  match read with
  | Err e => perform (ConsoleError "Failed to play:" e) st
  | Ok dataUrl =>
      let st := setAudioRef (Some dataUrl) st in
      let st := setProgress 0 (setCurrentTrack (Some recording) st) in
      let st := perform (AudioPlay dataUrl) st in
      match played with
      | Err e => perform (ConsoleError "Failed to play:" e) st
      | Ok _ => setProgressInterval (Some timer) (setIsPlaying true st)
      end
  end.

(** [currentTrack?.path === path]: [undefined === path] is false. *)
Definition track_has_path (t : option RecordingInfo) (p : string) : bool :=
  match t with
  | Some r => bool_decide (path r = p)
  | None => false
  end.

(** [prev.filter((r) => r.path !== path)]. *)
Definition without_path (p : string) (prev : list RecordingInfo)
  : list RecordingInfo :=
  filter (fun r => path r <> p) prev.

(** [deleteRecording] up to its [await]: [setDeleting(true)] and the call
    of the backend. *)
Definition deleteRecording_begin (p : string) (st : State) : State :=
  perform (Invoke "delete_recording" p) (setDeleting true st).

(** The [try] block after the [await] has resolved. [captured] is the
    [currentTrack] the callback closed over ([useCallback] with
    [[currentTrack]]); [setRecordings] takes an updater, so it filters the
    list as it is when the update runs. *)
Definition deleteRecording_resolved (captured : option RecordingInfo)
    (p : string) (st : State) : State :=
  let st :=
    if track_has_path captured p then
      let st :=
        match audioRef st with
        | Some src => setAudioRef None (perform (AudioPause src) st)
        | None => st
        end in
      setIsPlaying false (setCurrentTrack None st)
    else st in
  setRecordings (without_path p) st.

(** The [catch] block. *)
Definition deleteRecording_rejected (err : string) (st : State) : State :=
  perform (ConsoleError "Failed to delete:" err) st.

(** The [finally] block. *)
Definition deleteRecording_finally (st : State) : State :=
  setConfirmDelete None (setDeleting false st).

(** [deleteRecording] from its [await] on, in the state [st] the component
    is in when the backend answers. *)
Definition deleteRecording_resume (captured : option RecordingInfo)
    (backend : Result unit string) (p : string) (st : State) : State :=
  deleteRecording_finally
    (match backend with
     | Ok _ => deleteRecording_resolved captured p st
     | Err e => deleteRecording_rejected e st
     end).

(** [deleteRecording] when nothing else runs between the call and the
    backend's answer. *)
Definition deleteRecording (backend : Result unit string) (p : string)
    (st : State) : State :=
  deleteRecording_resume (currentTrack st) backend p
    (deleteRecording_begin p st).

(** A component with four recordings, two of them of one path, playing the
    first. *)
Definition two_tracks : State :=
  {| recordings :=
       [mkRecording "a.wav" "/rec/a.wav" 10 1;
        mkRecording "b.wav" "/rec/b.wav" 20 2;
        mkRecording "a.wav" "/rec/a.wav" 10 1;
        mkRecording "c.wav" "/rec/c.wav" 30 3];
     loading := false;
     currentTrack := Some (mkRecording "a.wav" "/rec/a.wav" 10 1);
     isPlaying := true;
     progress := 3 # 2;
     duration := 12;
     confirmDelete := Some "/rec/a.wav";
     deleting := false;
     audioRef := Some "data:audio/wav;base64,AAAA";
     progressInterval := Some 7%nat;
     effects := [] |}.

(** The same component with nothing playing, and what happens when the
    user confirms the deletion of [a.wav], taps its play button while the
    backend is deleting, the file is read and played before the deletion
    has been answered, and the deletion then succeeds. *)
Definition two_tracks_idle : State :=
  setAudioRef None (setIsPlaying false (setCurrentTrack None two_tracks)).

Definition played_during_delete : State :=
  let a := mkRecording "a.wav" "/rec/a.wav" 10 1 in
  let begun := deleteRecording_begin "/rec/a.wav" two_tracks_idle in
  let playing := playTrack (Ok "data:audio/wav;base64,AAAA") (Ok tt) 8 a begun in
  deleteRecording_resume (currentTrack two_tracks_idle) (Ok tt) "/rec/a.wav" playing.

End MusicApp.

(** ** RecorderApp.tsx *)

Module Recorder.
Local Open Scope string_scope.

Inductive Effect : Type :=
| Invoke (command : string)
| OnClose
| ConsoleError (msg : string).

(** [promise.catch(handler)]: a rejection is handed to the handler, whose
    result settles the new promise. *)
Definition promise_catch {T} (handler : string -> Result T string)
    (r : Result T string) : Result T string :=
  match r with
  | Ok v => Ok v
  | Err e => handler e
  end.

(** [handleClose]. [isRecording] is the value the callback closed over,
    [stop_recording] is how the backend settles the call if it is made. The
    result is what the component did, in order, and how the promise
    [handleClose] returns settles. *)
Definition handleClose (isRecording : bool)
    (stop_recording : Result unit string)
  : list Effect * Result unit string :=
  let stopped :=
    if isRecording then
      ([Invoke "stop_recording"],
       promise_catch (fun _ => Ok tt) stop_recording)
    else ([], Ok tt) in
  match snd stopped with
  | Err e => (fst stopped, Err e)
  | Ok _ => ((fst stopped ++ [OnClose])%list, Ok tt)
  end.

Definition logged (es : list Effect) : list string :=
  omap (fun e => match e with ConsoleError m => Some m | _ => None end) es.

End Recorder.

(** ** Cleanup on unmount (IMPLEMENTATION.md) *)

Module Lifecycle.
Local Open Scope string_scope.

(** An object of the Three.js scene graph. *)
#[warnings="-register-all"] Inductive Object3D : Type :=
| Object (id : nat) (isMesh : bool) (children : list Object3D).

(** [scene.traverse(callback)]: the object itself, then its descendants,
    depth first. The result lists the id and [isMesh] of every object
    visited, in the order of the visits. *)
Fixpoint traverse (o : Object3D) : list (nat * bool) :=
  match o with
  | Object id m children => (id, m) :: List.flat_map traverse children
  end.

(** The calls the cleanup makes, as the snippet writes them. *)
Inductive Call : Type :=
| ClearInterval
| InvokeReleaseCamera (deviceId : string)
| HolisticClose
| RendererDispose
| GeometryDispose (object : nat)
| MaterialDispose (object : nat).

#[global] Instance Call_eq_dec : EqDecision Call.
Proof. solve_decision. Defined.

(** What is mounted when the cleanup runs. [inferencePending] says that a
    [holistic.send] of the capture loop has not settled yet. *)
Record Mounted : Type := mkMounted {
  deviceId : string;
  inferencePending : bool;
  scene : Object3D
}.

(** The callback given to [scene.traverse]. *)
Definition dispose_object (o : nat * bool) : list Call :=
  if snd o then [GeometryDispose (fst o); MaterialDispose (fst o)] else [].

(** The calls of [scene.traverse] with that callback. *)
Definition dispose_scene (s : Object3D) : list Call :=
  List.flat_map dispose_object (traverse s).

(** The cleanup: the calls made, in order, and how the cleanup settles.
    [release] is how the backend settles [release_camera]. The [await] is
    not inside a [try]: a rejection ends the cleanup there. [holistic.close()]
    is called and not awaited. *)
Definition cleanup (release : Result unit string) (m : Mounted)
  : list Call * Result unit string :=
  let calls := [ClearInterval; InvokeReleaseCamera (deviceId m)] in
  match release with
  | Err e => (calls, Err e)
  | Ok _ =>
      ((calls ++ [HolisticClose] ++ [RendererDispose] ++ dispose_scene (scene m))%list,
       Ok tt)
  end.

(** The teardown steps section 4.7 of the specification names. *)
Inductive Step : Type :=
| StopTimer
| SettleInference
| ReleaseCamera
| DisposeGpu
| CloseSession.

#[global] Instance Step_eq_dec : EqDecision Step.
Proof. solve_decision. Defined.

(** The step of section 4.7 a call of the snippet carries out. *)
Definition step_of (c : Call) : Step :=
  match c with
  | ClearInterval => StopTimer
  | InvokeReleaseCamera _ => ReleaseCamera
  | HolisticClose => CloseSession
  | RendererDispose | GeometryDispose _ | MaterialDispose _ => DisposeGpu
  end.

(** The position of a step in the order the specification's section 4.7
    gives: timer, in-flight inference, camera, GPU, session. *)
Definition rank_4_7 (s : Step) : nat :=
  match s with
  | StopTimer => 0
  | SettleInference => 1
  | ReleaseCamera => 2
  | DisposeGpu => 3
  | CloseSession => 4
  end.

(** The position of a call in the order of the snippet: timer, camera,
    session, renderer, then the meshes. *)
Definition rank_snippet (c : Call) : nat :=
  match c with
  | ClearInterval => 0
  | InvokeReleaseCamera _ => 1
  | HolisticClose => 2
  | RendererDispose => 3
  | GeometryDispose _ | MaterialDispose _ => 4
  end.

(** No element of a trace is followed by one of lower rank. *)
Fixpoint ordered_by {A} (rank : A -> nat) (trace : list A) : bool :=
  match trace with
  | [] => true
  | x :: rest =>
      forallb (fun y => Nat.leb (rank x) (rank y)) rest && ordered_by rank rest
  end.

(** The order of section 4.7 on a trace of calls: the steps are in rank
    order, and, when an inference call is pending, a trace that releases
    the camera or disposes GPU resources has a step that settles it. *)
Definition follows_4_7 (pending : bool) (calls : list Call) : bool :=
  let steps := map step_of calls in
  ordered_by rank_4_7 steps
  && (negb pending
      || negb (existsb (fun s => bool_decide (s = ReleaseCamera \/ s = DisposeGpu)) steps)
      || bool_decide (SettleInference ∈ steps)).

(** A scene with two meshes, one of them nested in a group, unmounted
    while an inference call is pending. *)
Definition a_scene : Object3D :=
  Object 0 false [Object 1 true []; Object 2 false [Object 3 true []]].

Definition mounted_mid_capture : Mounted :=
  {| deviceId := "0"; inferencePending := true; scene := a_scene |}.

End Lifecycle.

(** ** Gaze computation (specification, section 4.4)

    MediaPipeEyeTracker.tsx, which holds the capture loop, the conversion
    of frames and the gaze computation, is not among the sources. The
    definitions of this module and of [Pipeline] follow the specification;
    the landmark index ranges are those IMPLEMENTATION.md gives. Coordinates
    are rationals, standing for the numbers of the implementation. *)

Module Gaze.
Local Open Scope Q_scope.

(** Modelled from the spec: a landmark, a 3D point in normalized image
    coordinates (section 3; the type is declared in the missing
    MediaPipeEyeTracker.tsx). *)
Record Point3 : Type := mkPoint { px : Q; py : Q; pz : Q }.

(** Modelled from the spec: section 3's LandmarkSet of the missing
    MediaPipeEyeTracker.tsx: an ordered sequence of points, the tag for
    invalid or partial sets, and the eye-region confidence the set comes
    with. *)
Record LandmarkSet : Type := mkLandmarks {
  points : list Point3;
  valid : bool;
  eyeConfidence : Q
}.

(** Modelled from the spec: section 3's per-eye GazeVector of the missing
    MediaPipeEyeTracker.tsx. *)
Record GazeVector : Type := mkGaze {
  offsetX : Q;
  offsetY : Q;
  offsetZ : Q;
  confidence : Q
}.

(** Modelled from the spec: the gaze of both eyes, which the missing
    MediaPipeEyeTracker.tsx hands to the scene. *)
Record Gaze : Type := mkEyes { leftEye : GazeVector; rightEye : GazeVector }.

(** Modelled from the spec: section 4.4's neutral reference position of
    the missing MediaPipeEyeTracker.tsx, one point per eye. *)
Record Neutral : Type := mkNeutral { neutralL : Point3; neutralR : Point3 }.

(** Modelled from the spec: the fixed index ranges of the eye regions in
    the missing MediaPipeEyeTracker.tsx, [from] inclusive, [to] exclusive;
    IMPLEMENTATION.md gives 468-473 (left) and 473-478 (right). *)
Definition LEFT_EYE : nat * nat := (468%nat, 473%nat).

(** Modelled from the spec: the right eye's index range in the missing
    MediaPipeEyeTracker.tsx, as IMPLEMENTATION.md gives it. *)
Definition RIGHT_EYE : nat * nat := (473%nat, 478%nat).

(** Modelled from the spec: extraction of a fixed index range (section
    4.4, missing MediaPipeEyeTracker.tsx); a set too short for the range is
    partial and yields nothing. *)
Definition region (range : nat * nat) (ls : LandmarkSet) : option (list Point3) :=
  let n := (snd range - fst range)%nat in
  let pts := firstn n (skipn (fst range) (points ls)) in
  if (length pts =? n)%nat && (0 <? n)%nat then Some pts else None.

(** Modelled from the spec: the centroid of an eye region (section 4.4,
    missing MediaPipeEyeTracker.tsx). *)
Definition centroid (pts : list Point3) : Point3 :=
  let n := inject_Z (Z.of_nat (length pts)) in
  let sum :=
    fold_left
      (fun acc p => mkPoint (px acc + px p) (py acc + py p) (pz acc + pz p))
      pts (mkPoint 0 0 0) in
  mkPoint (px sum / n) (py sum / n) (pz sum / n).

(** Modelled from the spec: both eye centroids of a set (section 4.4,
    missing MediaPipeEyeTracker.tsx). *)
Definition eyeCentres (ls : LandmarkSet) : option Neutral :=
  match region LEFT_EYE ls, region RIGHT_EYE ls with
  | Some l, Some r => Some (mkNeutral (centroid l) (centroid r))
  | _, _ => None
  end.

(** Modelled from the spec: the offset of a centroid from the neutral
    position, with the confidence of the set (section 4.4, missing
    MediaPipeEyeTracker.tsx). *)
Definition offsetFrom (neutral c : Point3) (conf : Q) : GazeVector :=
  mkGaze (px c - px neutral) (py c - py neutral) (pz c - pz neutral) conf.

(** Modelled from the spec: section 4.4's Gaze Computation of the missing
    MediaPipeEyeTracker.tsx, for a given neutral reference. *)
Definition computeGaze (neutral : Neutral) (ls : LandmarkSet) : option Gaze :=
  match eyeCentres ls with
  | Some c =>
      Some (mkEyes (offsetFrom (neutralL neutral) (neutralL c) (eyeConfidence ls))
                   (offsetFrom (neutralR neutral) (neutralR c) (eyeConfidence ls)))
  | None => None
  end.

(** Modelled from the spec: the neutral reference is calibrated once, at
    the first valid frame (section 4.4, missing MediaPipeEyeTracker.tsx). *)
Definition calibrate (neutral : option Neutral) (ls : LandmarkSet)
  : option Neutral :=
  match neutral with
  | Some n => Some n
  | None => if valid ls then eyeCentres ls else None
  end.

(** Modelled from the spec: one call of Gaze Computation as the pipeline
    makes it (section 4.4, missing MediaPipeEyeTracker.tsx): the output and
    the neutral reference after the call. *)
Definition gazeCall (neutral : option Neutral) (ls : LandmarkSet)
  : option Gaze * option Neutral :=
  let neutral' := calibrate neutral ls in
  (match neutral' with
   | Some n => computeGaze n ls
   | None => None
   end, neutral').

(** Modelled from the spec: the neutral gaze the eyes re-center to
    (section 3, missing MediaPipeEyeTracker.tsx). *)
Definition neutralGaze : Gaze :=
  mkEyes (mkGaze 0 0 0 0) (mkGaze 0 0 0 0).

(** A landmark set of 478 points, all at [base] but the two eye regions,
    which sit at [l] and [r]. *)
Definition face (base l r : Point3) (conf : Q) : LandmarkSet :=
  mkLandmarks (repeat base 468 ++ repeat l 5 ++ repeat r 5)%list true conf.

(** A face looking straight, one looking left, and the same one as the
    engine reports it with little confidence. *)
Definition face_straight : LandmarkSet :=
  face (mkPoint 0 0 0) (mkPoint (2 # 5) (1 # 2) 0) (mkPoint (3 # 5) (1 # 2) 0) (9 # 10).

Definition face_left : LandmarkSet :=
  face (mkPoint 0 0 0) (mkPoint (1 # 2) (1 # 2) 0) (mkPoint (7 # 10) (1 # 2) 0) (9 # 10).

Definition face_blurred : LandmarkSet :=
  face (mkPoint 0 0 0) (mkPoint (1 # 5) (1 # 2) 0) (mkPoint (2 # 5) (1 # 2) 0) (3 # 10).

End Gaze.

(** ** The capture pipeline (specification, sections 3, 4.1, 4.2, 4.5) *)

Module Pipeline.
Import Gaze.
Local Open Scope string_scope.
Local Open Scope Z_scope.

(** Modelled from the spec: the pipeline's tunables, which the missing
    MediaPipeEyeTracker.tsx fixes: the base period P, the failure
    threshold, the cap of the backoff, the confidence threshold, the
    hold-timeout and the bound of the eye translation. Times are in
    milliseconds. *)
Record Config : Type := mkConfig {
  basePeriod : Z;
  failureThreshold : nat;
  maxInterval : Z;
  confidenceThreshold : Q;
  holdTimeout : Z;
  clampLimit : Q
}.

(** Modelled from the spec: the values the specification and
    IMPLEMENTATION.md name (50 ms, 10 consecutive failures, confidence
    0.5) and values for the tunables they leave open, in place of the
    constants of the missing MediaPipeEyeTracker.tsx. *)
Definition kiosk_config : Config :=
  {| basePeriod := 50; failureThreshold := 10; maxInterval := 1600;
     confidenceThreshold := (1 # 2)%Q; holdTimeout := 1000;
     clampLimit := (1 # 1)%Q |}.

(** Modelled from the spec: section 6's pixel formats as the missing
    MediaPipeEyeTracker.tsx requests them; IMPLEMENTATION.md asks the
    camera for RGB8 only. *)
Inductive PixelFormat : Type :=
| RGB8
| OtherFormat (name : string).

(** Modelled from the spec: section 3's CameraFrame of the missing
    MediaPipeEyeTracker.tsx. *)
Record CameraFrame : Type := mkFrame {
  width : Z;
  height : Z;
  pixelFormat : PixelFormat;
  pixelBuffer : list Z;
  captureTimestamp : Z
}.

(** Modelled from the spec: the named failures of section 4.2's Frame
    Conversion (missing MediaPipeEyeTracker.tsx). *)
Inductive ConversionError : Type :=
| UnsupportedPixelFormat (format : PixelFormat)
| BufferSizeMismatch (expected actual : Z).

(** Modelled from the spec: the dense interleaved frame the inference
    engine takes (section 4.2; RGBA as the ImageData of IMPLEMENTATION.md),
    built in the missing MediaPipeEyeTracker.tsx. *)
Record NormalizedFrame : Type := mkNormalized {
  nWidth : Z;
  nHeight : Z;
  rgba : list Z
}.

(** Modelled from the spec: RGB triples to RGBA quadruples (section 4.2,
    missing MediaPipeEyeTracker.tsx). *)
Fixpoint rgb_to_rgba (buf : list Z) : list Z :=
  match buf with
  | r :: g :: b :: rest => r :: g :: b :: 255 :: rgb_to_rgba rest
  | _ => []
  end.

(** Modelled from the spec: section 4.2's Frame Conversion of the missing
    MediaPipeEyeTracker.tsx: a pure transform that fails by name on a
    format it does not support. *)
Definition convertFrame (f : CameraFrame)
  : Result NormalizedFrame ConversionError :=
  match pixelFormat f with
  | RGB8 =>
      let expected := width f * height f * 3 in
      let actual := Z.of_nat (length (pixelBuffer f)) in
      if expected =? actual then
        Ok (mkNormalized (width f) (height f) (rgb_to_rgba (pixelBuffer f)))
      else Err (BufferSizeMismatch expected actual)
  | OtherFormat _ => Err (UnsupportedPixelFormat (pixelFormat f))
  end.


(** Modelled from the spec: the states of section 3's PipelineHealth
    (missing MediaPipeEyeTracker.tsx). *)
Inductive HealthState : Type := Idle | Running | Degraded | Stopped.

#[global] Instance HealthState_eq_dec : EqDecision HealthState.
Proof. solve_decision. Defined.

(** Modelled from the spec: section 3's PipelineHealth of the missing
    MediaPipeEyeTracker.tsx. *)
Record PipelineHealth : Type := mkHealth {
  consecutiveCaptureFailures : nat;
  consecutiveInferenceFailures : nat;
  state : HealthState
}.

(** Modelled from the spec: the shared last-known-GazeVector slot of
    section 3 (missing MediaPipeEyeTracker.tsx): the accepted vector and
    the time it was accepted at. *)
Record Held : Type := mkHeld { vector : Gaze; acceptedAt : Z }.

(** Modelled from the spec: the Capture Scheduler's state in the missing
    MediaPipeEyeTracker.tsx: the health record, the number of
    capture-to-inference round trips in flight, the counters of cycles
    started and ticks skipped, the shared slot and the neutral reference;
    and its timer (section 4.1): the time it is set to tick at next, and
    the times at which the camera was asked for a frame, the latest
    first. *)
Record Scheduler : Type := mkScheduler {
  health : PipelineHealth;
  outstanding : nat;
  cyclesStarted : nat;
  skipCounter : nat;
  slot : option Held;
  neutralRef : option Neutral;
  nextTickAt : Z;
  attempts : list Z
}.

(** Modelled from the spec: the scheduler before its first tick (missing
    MediaPipeEyeTracker.tsx), which is due at time 0. *)
Definition initial : Scheduler :=
  mkScheduler (mkHealth 0 0 Idle) 0 0 0 None None 0 [].

(** Modelled from the spec: what the camera adapter answers a request
    with (section 6; the call is made in the missing
    MediaPipeEyeTracker.tsx). *)
Inductive CaptureResult : Type :=
| CaptureError (msg : string)
| Captured (frame : CameraFrame).

(** Modelled from the spec: what the inference engine answers with
    (section 6; the call is made in the missing MediaPipeEyeTracker.tsx). A
    call that exceeds its time bound counts as an error. *)
Inductive InferenceResult : Type :=
| InferenceError (msg : string)
| NoFaceDetected
| Landmarks (ls : LandmarkSet).

(** Modelled from the spec: what drives the scheduler of the missing
    MediaPipeEyeTracker.tsx: a tick of its timer, which comes at the time
    the scheduler has set the timer to, with what the camera answers if it
    is asked; the inference call of the cycle in flight settling at a
    time; an explicit stop and an explicit restart. *)
Inductive Event : Type :=
| Tick (camera : CaptureResult)
| InferenceDone (now : Z) (result : InferenceResult)
| Stop
| Start.

(** Modelled from the spec: the backoff policy of section 4.1, step 2
    (missing MediaPipeEyeTracker.tsx): the base period up to the threshold,
    then doubled with every further consecutive failure, capped at the
    maximum interval. *)
Definition backoffInterval (cfg : Config) (failures : nat) : Z :=
  if (failures <=? failureThreshold cfg)%nat then basePeriod cfg
  else
    Z.min (maxInterval cfg)
      (basePeriod cfg * 2 ^ Z.of_nat (failures - failureThreshold cfg)).

(** Modelled from the spec: the retry interval between capture attempts
    (section 4.1, step 2, missing MediaPipeEyeTracker.tsx): the period the
    scheduler sets its timer to at the end of a tick. *)
Definition captureRetryInterval (cfg : Config) (s : Scheduler) : Z :=
  backoffInterval cfg (consecutiveCaptureFailures (health s)).

(** Modelled from the spec: the health state the counters call for
    (section 4.1, steps 2 and 4, missing MediaPipeEyeTracker.tsx):
    Degraded when a counter exceeds the threshold; Stopped stays. *)
Definition settle (cfg : Config) (h : PipelineHealth) : PipelineHealth :=
  mkHealth (consecutiveCaptureFailures h) (consecutiveInferenceFailures h)
    (match state h with
     | Stopped => Stopped
     | _ =>
         if (failureThreshold cfg <? consecutiveCaptureFailures h)%nat
            || (failureThreshold cfg <? consecutiveInferenceFailures h)%nat
         then Degraded else Running
     end).

(** Modelled from the spec: the health record replaced (missing
    MediaPipeEyeTracker.tsx). *)
Definition with_health (h : PipelineHealth) (s : Scheduler) : Scheduler :=
  mkScheduler h (outstanding s) (cyclesStarted s) (skipCounter s) (slot s)
    (neutralRef s) (nextTickAt s) (attempts s).

(** Modelled from the spec: section 4.1, step 1 (missing
    MediaPipeEyeTracker.tsx): the tick is skipped and counted. *)
Definition skipTick (s : Scheduler) : Scheduler :=
  mkScheduler (health s) (outstanding s) (cyclesStarted s)
    (S (skipCounter s)) (slot s) (neutralRef s) (nextTickAt s) (attempts s).

(** Modelled from the spec: section 4.1, step 2 (missing
    MediaPipeEyeTracker.tsx): a capture failure is counted. *)
Definition captureFailed (cfg : Config) (s : Scheduler) : Scheduler :=
  with_health
    (settle cfg
       (mkHealth (S (consecutiveCaptureFailures (health s)))
          (consecutiveInferenceFailures (health s)) (state (health s))))
    s.

(** Modelled from the spec: section 4.1, step 3 (missing
    MediaPipeEyeTracker.tsx): the capture counter is reset and the cycle
    goes on to inference, which is in flight from here. *)
Definition captureSucceeded (cfg : Config) (s : Scheduler) : Scheduler :=
  mkScheduler
    (settle cfg
       (mkHealth 0 (consecutiveInferenceFailures (health s)) (state (health s))))
    (S (outstanding s)) (S (cyclesStarted s)) (skipCounter s) (slot s)
    (neutralRef s) (nextTickAt s) (attempts s).

(** Modelled from the spec: section 4.1, step 4 (missing
    MediaPipeEyeTracker.tsx): an inference failure is counted, the slot is
    left as it is. *)
Definition inferenceFailed (cfg : Config) (s : Scheduler) : Scheduler :=
  with_health
    (settle cfg
       (mkHealth (consecutiveCaptureFailures (health s))
          (S (consecutiveInferenceFailures (health s))) (state (health s))))
    s.

(** Modelled from the spec: section 4.1, step 5 (missing
    MediaPipeEyeTracker.tsx): the slot is replaced by the new vector. *)
Definition accept (cfg : Config) (now : Z) (g : Gaze)
    (neutral : option Neutral) (s : Scheduler) : Scheduler :=
  mkScheduler
    (settle cfg
       (mkHealth (consecutiveCaptureFailures (health s)) 0 (state (health s))))
    (outstanding s) (cyclesStarted s) (skipCounter s)
    (Some (mkHeld g now)) neutral (nextTickAt s) (attempts s).

(** Modelled from the spec: a confidence below the configured threshold
    (section 3, missing MediaPipeEyeTracker.tsx). *)
Definition lowConfidence (cfg : Config) (ls : LandmarkSet) : bool :=
  negb (Qle_bool (confidenceThreshold cfg) (eyeConfidence ls)).

(** Modelled from the spec: the camera is asked for a frame at a time
    (section 4.1, step 2, missing MediaPipeEyeTracker.tsx). *)
Definition attempted (now : Z) (s : Scheduler) : Scheduler :=
  mkScheduler (health s) (outstanding s) (cyclesStarted s) (skipCounter s)
    (slot s) (neutralRef s) (nextTickAt s) (now :: attempts s).

(** Modelled from the spec: at the end of a tick the timer is set for the
    next one (section 4.1, missing MediaPipeEyeTracker.tsx): after the
    period P, widened by the backoff as the failures call for. *)
Definition rearm (cfg : Config) (now : Z) (s : Scheduler) : Scheduler :=
  mkScheduler (health s) (outstanding s) (cyclesStarted s) (skipCounter s)
    (slot s) (neutralRef s) (now + captureRetryInterval cfg s) (attempts s).

(** Modelled from the spec: one tick of section 4.1's Capture Scheduler
    (missing MediaPipeEyeTracker.tsx), at the time the timer was set to. A
    stopped scheduler performs no tick. Acquisition and conversion are
    synchronous within the tick; a conversion failure is a capture
    failure. *)
Definition tick (cfg : Config) (camera : CaptureResult) (s : Scheduler)
  : Scheduler :=
  if decide (state (health s) = Stopped) then s
  else
    let now := nextTickAt s in
    rearm cfg now
      (if (0 <? outstanding s)%nat then skipTick s
       else
         let s := attempted now s in
         match camera with
         | CaptureError _ => captureFailed cfg s
         | Captured f =>
             match convertFrame f with
             | Err _ => captureFailed cfg s
             | Ok _ => captureSucceeded cfg s
             end
         end).

(** Modelled from the spec: an inference result that brings no vector to
    the slot (section 4.1, step 4; section 4.3; missing
    MediaPipeEyeTracker.tsx): an error, no face, or a landmark set that is
    invalid or of low confidence. *)
Definition rejected (cfg : Config) (r : InferenceResult) : bool :=
  match r with
  | InferenceError _ | NoFaceDetected => true
  | Landmarks ls => negb (valid ls) || lowConfidence cfg ls
  end.

(** Modelled from the spec: an event that brings no new valid vector
    (sections 3 and 4.1, missing MediaPipeEyeTracker.tsx): everything but
    an inference result that is not rejected. *)
Definition bringsNoVector (cfg : Config) (e : Event) : bool :=
  match e with
  | InferenceDone _ r => rejected cfg r
  | Tick _ | Stop | Start => true
  end.

(** Modelled from the spec: one round trip fewer in flight (missing
    MediaPipeEyeTracker.tsx). *)
Definition landed (s : Scheduler) : Scheduler :=
  mkScheduler (health s) (pred (outstanding s)) (cyclesStarted s)
    (skipCounter s) (slot s) (neutralRef s) (nextTickAt s) (attempts s).

(** Modelled from the spec: the end of a cycle, when the inference call
    settles (section 4.1, steps 4 and 5; sections 4.3 and 5; missing
    MediaPipeEyeTracker.tsx). A result that arrives after a stop is
    discarded; no face is a valid negative result that holds the slot. *)
Definition inferenceDone (cfg : Config) (now : Z) (r : InferenceResult)
    (s : Scheduler) : Scheduler :=
  match outstanding s with
  | O => s
  | S _ =>
      let s := landed s in
      if decide (state (health s) = Stopped) then s
      else
        match r with
        | InferenceError _ => inferenceFailed cfg s
        | NoFaceDetected => s
        | Landmarks ls =>
            if negb (valid ls) || lowConfidence cfg ls then inferenceFailed cfg s
            else
              match gazeCall (neutralRef s) ls with
              | (Some g, neutral) => accept cfg now g neutral s
              | (None, _) => inferenceFailed cfg s
              end
        end
  end.

(** Modelled from the spec: the explicit stop of section 4.1's edge case
    (missing MediaPipeEyeTracker.tsx). *)
Definition stop (s : Scheduler) : Scheduler :=
  with_health
    (mkHealth (consecutiveCaptureFailures (health s))
       (consecutiveInferenceFailures (health s)) Stopped)
    s.

(** Modelled from the spec: the explicit restart of section 4.1's edge
    case (missing MediaPipeEyeTracker.tsx). *)
Definition start (cfg : Config) (s : Scheduler) : Scheduler :=
  if decide (state (health s) = Stopped) then
    with_health
      (settle cfg
         (mkHealth (consecutiveCaptureFailures (health s))
            (consecutiveInferenceFailures (health s)) Running))
      s
  else s.

(** Modelled from the spec: the scheduler's reaction to an event (missing
    MediaPipeEyeTracker.tsx). *)
Definition step (cfg : Config) (s : Scheduler) (e : Event) : Scheduler :=
  match e with
  | Tick camera => tick cfg camera s
  | InferenceDone now r => inferenceDone cfg now r s
  | Stop => stop s
  | Start => start cfg s
  end.

(** Modelled from the spec: the scheduler after a sequence of events
    (missing MediaPipeEyeTracker.tsx). *)
Definition run (cfg : Config) (es : list Event) (s : Scheduler) : Scheduler :=
  fold_left (step cfg) es s.

(** Modelled from the spec: the states the scheduler of the missing
    MediaPipeEyeTracker.tsx can be in. *)
Definition reachable (cfg : Config) (s : Scheduler) : Prop :=
  exists es, s = run cfg es initial.

(** Modelled from the spec: the output of the Gaze Computation call the
    scheduler of the missing MediaPipeEyeTracker.tsx makes in a state
    (section 4.4). *)
Definition gazeFor (s : Scheduler) (ls : LandmarkSet) : option Gaze :=
  fst (gazeCall (neutralRef s) ls).

(** Modelled from the spec: the latest-value read of the slot under the
    hold policy of section 3 (missing MediaPipeEyeTracker.tsx): the held
    vector until the hold-timeout has elapsed, then neutral. *)
Definition currentGaze (cfg : Config) (now : Z) (sl : option Held) : Gaze :=
  match sl with
  | None => neutralGaze
  | Some h =>
      if holdTimeout cfg <? now - acceptedAt h then neutralGaze else vector h
  end.









Definition rgb_frame : CameraFrame :=
  mkFrame 2 1 RGB8 [10; 20; 30; 40; 50; 60] 0.


(** A scheduler that has accepted two faces, at 30 ms and at 80 ms, and
    has a third cycle in flight. *)
Definition tracking : Scheduler :=
  run kiosk_config
    [Tick (Captured rgb_frame); InferenceDone 30 (Landmarks face_straight);
     Tick (Captured rgb_frame); InferenceDone 80 (Landmarks face_left);
     Tick (Captured rgb_frame)] initial.


(** Unfolds the scheduler's reaction to an event down to its cases. *)
Ltac unfold_step :=
  unfold step, tick, rearm, attempted, inferenceDone, stop, start, skipTick,
    captureFailed, captureSucceeded, inferenceFailed, accept, landed, with_health.

Ltac step_cases :=
  repeat match goal with
         | |- context [decide ?P] => destruct (decide P)
         | |- context [match ?x with _ => _ end] => destruct x eqn:?
         end.

End Pipeline.

(** ** Formatting in the TypeScript components

    [formatDuration] of RecorderApp.tsx, [formatSize] of MusicApp and
    GalleryApp, and [formatTime] of the recorder of
    IMPLEMENTATION_EXAMPLES.md. Their arguments are JavaScript numbers that
    hold integers: a duration in milliseconds, a size in bytes, a count of
    seconds. On integers below 2^53 the operations they use are exact:
    [Math.floor(a / b)] is the floor of the quotient, [a % b] the remainder
    with the sign of [a], and the division of a size by 1024 or 1024 * 1024
    only changes the exponent of the number. *)

Module Format.
Local Open Scope string_scope.
Local Open Scope Z_scope.

(** The decimal digits of a natural number. *)
Definition decimal (n : N) : string := NilZero.string_of_uint (N.to_uint n).

(** [Number.prototype.toString] on an integer. *)
Definition toString (n : Z) : string :=
  if n <? 0 then "-" ++ decimal (Z.to_N (- n)) else decimal (Z.to_N n).

(** [n] characters of [fill], repeated; [rest] is what is left of the
    current copy. *)
Fixpoint filler (n : nat) (fill rest : string) : string :=
  match n with
  | O => ""
  | S k =>
      match rest with
      | String c r => String c (filler k fill r)
      | EmptyString =>
          match fill with
          | String c r => String c (filler k fill r)
          | EmptyString => ""
          end
      end
  end.

(** [String.prototype.padStart]: a string that is long enough is returned
    as it is. *)
Definition padStart (targetLength : nat) (padString : string) (s : string)
  : string :=
  if (targetLength <=? String.length s)%nat then s
  else filler (targetLength - String.length s) padString padString ++ s.

(** [formatDuration] of RecorderApp.tsx. *)
Definition formatDuration (ms : Z) : string :=
  let totalSec := ms / 1000 in
  let min := totalSec / 60 in
  let sec := Z.rem totalSec 60 in
  let centis := Z.rem ms 1000 / 10 in
  padStart 2 "0" (toString min) ++ ":" ++ padStart 2 "0" (toString sec)
  ++ "." ++ padStart 2 "0" (toString centis).

(** [formatTime] of the recorder of IMPLEMENTATION_EXAMPLES.md, whose
    argument is the count of seconds the component keeps. *)
Definition formatTime (seconds : Z) : string :=
  let mins := seconds / 60 in
  let secs := Z.rem seconds 60 in
  padStart 2 "0" (toString mins) ++ ":" ++ padStart 2 "0" (toString secs).

(** [x.toFixed(1)] for [x = num / den], a non-negative number that is exact:
    the integer [n] with [n / 10] closest to [x], the larger one of two, then
    its digits with a point before the last. *)
Definition toFixed1 (num den : Z) : string :=
  let n := (20 * num + den) / (2 * den) in
  toString (n / 10) ++ "." ++ toString (n mod 10).

(** [formatSize] of MusicApp and GalleryApp. *)
Definition formatSize (bytes : Z) : string :=
  if bytes <? 1024 then toString bytes ++ " B"
  else if bytes <? 1024 * 1024 then toFixed1 bytes 1024 ++ " KB"
  else toFixed1 bytes (1024 * 1024) ++ " MB".

(** Reading back: a decimal numeral, the text before and after the first
    occurrence of a character, and the hundredths of a second a formatted
    duration stands for. *)
Definition parseDecimal (s : string) : option Z :=
  (fun d => Z.of_N (N.of_uint d)) <$> NilZero.uint_of_string s.

Fixpoint split_once (c : ascii) (s : string) : option (string * string) :=
  match s with
  | EmptyString => None
  | String a rest =>
      if Ascii.eqb a c then Some ("", rest)
      else '(before, after) ← split_once c rest; Some (String a before, after)
  end.

Definition parseDuration (s : string) : option Z :=
  '(min, rest) ← split_once ":" s;
  '(sec, centis) ← split_once "." rest;
  m ← parseDecimal min;
  s ← parseDecimal sec;
  c ← parseDecimal centis;
  Some ((m * 60 + s) * 100 + c).

(** Texts made of decimal digits only. *)
Definition is_digit (a : ascii) : bool :=
  match a with
  | "0" | "1" | "2" | "3" | "4" | "5" | "6" | "7" | "8" | "9" => true
  | _ => false
  end%char.

Fixpoint all_digits (s : string) : bool :=
  match s with
  | EmptyString => true
  | String a rest => is_digit a && all_digits rest
  end.

Definition parseTime (s : string) : option Z :=
  '(mins, secs) ← split_once ":" s;
  m ← parseDecimal mins;
  s ← parseDecimal secs;
  Some (m * 60 + s).

End Format.

(** ** commands/system.rs: the volume commands

    [get_brightness] and [get_volume_pipewire] compute with [f64] and are
    not modelled; [get_volume], which dispatches to the three readers, is
    left out with them. *)

Module Volume.
Import SystemCmd.
Local Open Scope string_scope.
Local Open Scope Z_scope.

Inductive AudioBackend : Type := PipeWire | PulseAudio | Alsa.

(** [ExitStatus::success]: the exit code is zero. *)
Definition success (o : Output) : bool := status o =? 0.

(** [Command::new(program).arg("--version").output()
    .map(|o| o.status.success()).unwrap_or(false)]: the command tried, and
    whether it ran and succeeded. *)
Definition probe (os : Spawner) (program : string) : Command * bool :=
  let cmd := mkCommand program ["--version"] in
  (cmd, match os cmd with Ok o => success o | Err _ => false end).

(** [detect_audio_backend]: the commands tried, in order, and the backend. *)
Definition detect_audio_backend (os : Spawner) : list Command * AudioBackend :=
  let wpctl := probe os "wpctl" in
  if snd wpctl then ([fst wpctl], PipeWire)
  else
    let pactl := probe os "pactl" in
    if snd pactl then ([fst wpctl; fst pactl], PulseAudio)
    else ([fst wpctl; fst pactl], Alsa).

(** [Command::new(..).args(..).output().map_err(|e| format!(.., e))?; Ok(())]
    as the three setters write it. *)
Definition run_quietly (os : Spawner) (cmd : Command) (label : string)
  : list Command * Result unit string :=
  ([cmd], let? _ := map_err (fun e => label ++ e) (os cmd) in Ok tt).

Definition set_volume_pipewire (os : Spawner) (level : Z)
  : list Command * Result unit string :=
  run_quietly os
    (mkCommand "wpctl" ["set-volume"; "@DEFAULT_AUDIO_SINK@"; display_u8 level ++ "%"])
    "wpctl error: ".

Definition set_volume_pulseaudio (os : Spawner) (level : Z)
  : list Command * Result unit string :=
  run_quietly os
    (mkCommand "pactl" ["set-sink-volume"; "@DEFAULT_SINK@"; display_u8 level ++ "%"])
    "pactl error: ".

Definition set_volume_alsa (os : Spawner) (level : Z)
  : list Command * Result unit string :=
  run_quietly os
    (mkCommand "amixer" ["set"; "Master"; display_u8 level ++ "%"])
    "amixer error: ".

(** [set_volume]: the commands handed to the operating system, the probes
    of the detection first, and the result. *)
Definition set_volume (os : Spawner) (level : Z)
  : list Command * Result unit string :=
  let safe_level := clamp level 0 100 in
  let detected := detect_audio_backend os in
  let set :=
    match snd detected with
    | PipeWire => set_volume_pipewire os safe_level
    | PulseAudio => set_volume_pulseaudio os safe_level
    | Alsa => set_volume_alsa os safe_level
    end in
  ((fst detected ++ fst set)%list, snd set).

(** The text of the readers below is a Rust [String]: the bytes of its
    UTF-8 encoding, which [String::from_utf8_lossy] gives for the output of
    the mixer. Where the output is not UTF-8 it puts U+FFFD, which is no
    white space, no digit and none of the characters the readers look for,
    as the bytes it stands for are none, so the readers answer the same on
    the bytes as they are. *)

(** [char::is_whitespace] below U+0080: tab, line feed, vertical tab, form
    feed, carriage return and space. *)
Definition is_whitespace (a : ascii) : bool :=
  match a with
  | " " | "009" | "010" | "011" | "012" | "013" => true
  | _ => false
  end%char.

(** [char::is_whitespace], the Unicode property White_Space, on the
    encoded text: the number of bytes of the white space character the
    text starts with, 0 when it starts with none. Beyond the six characters
    below U+0080 these are U+0085 and U+00A0 (two bytes), and U+1680,
    U+2000 to U+200A, U+2028, U+2029, U+202F, U+205F and U+3000 (three
    bytes). *)
Definition whitespace_width (s : string) : nat :=
  let code (a : ascii) := Z.of_N (N_of_ascii a) in
  match s with
  | EmptyString => 0%nat
  | String a rest =>
      if is_whitespace a then 1%nat
      else
        match rest with
        | EmptyString => 0%nat
        | String b rest' =>
            if (code a =? 194) && ((code b =? 133) || (code b =? 160)) then 2%nat
            else
              match rest' with
              | EmptyString => 0%nat
              | String c _ =>
                  if ((code a =? 225) && (code b =? 154) && (code c =? 128))
                     || ((code a =? 226) && (code b =? 128)
                         && (((128 <=? code c) && (code c <=? 138))
                             || (code c =? 168) || (code c =? 169)
                             || (code c =? 175)))
                     || ((code a =? 226) && (code b =? 129) && (code c =? 159))
                     || ((code a =? 227) && (code b =? 128) && (code c =? 128))
                  then 3%nat
                  else 0%nat
              end
        end
  end.

(** [str::split_whitespace]: the maximal runs of characters that are not
    white space. [word] is the run being read, last byte first; [inside]
    counts the bytes still to pass of a white space character of more than
    one byte. *)
Fixpoint split_whitespace_from (inside : nat) (word : string) (s : string)
  : list string :=
  let flush (word : string) (words : list string) :=
    match word with EmptyString => words | _ => String.rev word :: words end in
  match s with
  | EmptyString => flush word []
  | String a rest =>
      match inside with
      | S inside' => split_whitespace_from inside' word rest
      | O =>
          match whitespace_width s with
          | O => split_whitespace_from 0 (String a word) rest
          | S inside' => flush word (split_whitespace_from inside' "" rest)
          end
      end
  end.

Definition split_whitespace (s : string) : list string :=
  split_whitespace_from 0 "" s.

(** [str::ends_with(char)]. *)
Fixpoint ends_with (s : string) (c : ascii) : bool :=
  match s with
  | EmptyString => false
  | String a EmptyString => Ascii.eqb a c
  | String _ rest => ends_with rest c
  end.

(** [str::trim_end_matches(char)]: every trailing occurrence is dropped. *)
Fixpoint trim_end_matches (s : string) (c : ascii) : string :=
  match s with
  | EmptyString => ""
  | String a rest =>
      match trim_end_matches rest c with
      | EmptyString => if Ascii.eqb a c then "" else String a ""
      | kept => String a kept
      end
  end.

(** [to_digit(10)]: the distance of the byte from ["0"], when it is below
    ten. *)
Definition digit_value (a : ascii) : option Z :=
  let code := Z.of_N (N_of_ascii a) in
  if (48 <=? code) && (code <=? 57) then Some (code - 48) else None.

(** The digits of [u8::from_str], most significant first, with the
    overflow check at every digit. *)
Fixpoint parse_u8_digits (acc : Z) (s : string) : option Z :=
  match s with
  | EmptyString => Some acc
  | String a rest =>
      d ← digit_value a;
      let acc' := acc * 10 + d in
      if 255 <? acc' then None else parse_u8_digits acc' rest
  end.

(** [str::parse::<u8>]: an optional [+], then at least one digit, and a
    value of at most 255; [None] stands for the [ParseIntError]. *)
Definition parse_u8 (s : string) : option Z :=
  match s with
  | EmptyString => None
  | String "+" EmptyString => None
  | String "-" EmptyString => None
  | String "+" digits => parse_u8_digits 0 digits
  | _ => parse_u8_digits 0 s
  end.

(** The body of the loop of [get_volume_pulseaudio] for one word. *)
Definition pulse_word_volume (word : string) : option Z :=
  if ends_with word "%" then parse_u8 (trim_end_matches word "%") else None.

(** The first element a function gives a value for. *)
Fixpoint first_some {A B} (f : A -> option B) (l : list A) : option B :=
  match l with
  | [] => None
  | x :: rest =>
      match f x with
      | Some y => Some y
      | None => first_some f rest
      end
  end.

(** [get_volume_pulseaudio]. *)
Definition get_volume_pulseaudio (os : Spawner) : list Command * Result Z string :=
  let cmd := mkCommand "pactl" ["get-sink-volume"; "@DEFAULT_SINK@"] in
  ([cmd],
   let? output := map_err (fun e => "pactl error: " ++ e) (os cmd) in
   match first_some pulse_word_volume (split_whitespace (stdout output)) with
   | Some vol => Ok vol
   | None => Ok 50
   end).

(** [str::split_inclusive('\n')]; [line] is the line being read, last
    character first. *)
Fixpoint split_inclusive_from (line : string) (s : string) : list string :=
  match s with
  | EmptyString =>
      match line with EmptyString => [] | _ => [String.rev line] end
  | String a rest =>
      if Ascii.eqb a "010" then
        String.rev (String a line) :: split_inclusive_from "" rest
      else split_inclusive_from (String a line) rest
  end.

(** [str::strip_suffix(char)]. *)
Definition strip_suffix (s : string) (c : ascii) : option string :=
  match String.rev s with
  | String a rest => if Ascii.eqb a c then Some (String.rev rest) else None
  | EmptyString => None
  end.

(** [str::lines]: the line feed that ends a line is dropped, and a carriage
    return before it. *)
Definition lines (s : string) : list string :=
  map (fun line =>
         match strip_suffix line "010" with
         | None => line
         | Some line =>
             match strip_suffix line "013" with
             | None => line
             | Some line => line
             end
         end)
      (split_inclusive_from "" s).

(** The body of the loop of [get_volume_alsa] for one line: [start] is at
    the first ["["], [end] at the first ["%"] from there on, and the text
    strictly between the two is parsed. *)
Definition alsa_line_volume (line : string) : option Z :=
  '(_, from_bracket) ← Format.split_once "[" line;
  '(between, _) ← Format.split_once "%" from_bracket;
  parse_u8 between.

(** [get_volume_alsa]. *)
Definition get_volume_alsa (os : Spawner) : list Command * Result Z string :=
  let cmd := mkCommand "amixer" ["get"; "Master"] in
  ([cmd],
   let? output := map_err (fun e => "amixer error: " ++ e) (os cmd) in
   match first_some alsa_line_volume (lines (stdout output)) with
   | Some vol => Ok vol
   | None => Ok 50
   end).

(** A system with PulseAudio and no PipeWire, whose mixer reports 65%, and
    one with ALSA only. *)
Definition os_pulse : Spawner :=
  fun cmd =>
    if String.eqb (program cmd) "pactl" then
      Ok {| status := 0;
            stdout := "Volume: front-left: 42598 /  65% / -11.23 dB,   front-right: 42598 /  65% / -11.23 dB" ++ String "010" "        balance 0.00" ++ String "010" "";
            stderr := "" |}
    else Err "No such file or directory (os error 2)".

(** The same system when the mixer separates its words by no-break
    spaces (U+00A0). *)
Definition os_pulse_nbsp : Spawner :=
  fun cmd =>
    if String.eqb (program cmd) "pactl" then
      Ok {| status := 0;
            stdout := "Volume:" ++ String "194" (String "160" "65%")
                      ++ String "226" (String "128" (String "175" "/"));
            stderr := "" |}
    else Err "No such file or directory (os error 2)".

Definition os_alsa : Spawner :=
  fun cmd =>
    if String.eqb (program cmd) "amixer" then
      Ok {| status := 0;
            stdout := "Simple mixer control 'Master',0" ++ String "010" "  Limits: Playback 0 - 65536" ++ String "010" "  Front Left: Playback 26214 [40%] [on]" ++ String "013" (String "010" "  Front Right: Playback 26214 [40%] [on]") ++ String "010" "";
            stderr := "" |}
    else Err "No such file or directory (os error 2)".

End Volume.

(** ** commands/media.rs: listing and naming

    [save_photo] and [save_audio] decode base64 with a library that is not
    among the sources; of the two, the naming of the file is modelled. *)

Module MediaStore.
Import Media.
Local Open Scope string_scope.
Local Open Scope Z_scope.

Definition PHOTOS_DIR : string := "photos".
Definition AUDIO_DIR : string := "audio".

(** [MediaFile]. [duration] is an [f32] that is carried and never computed
    with; a rational stands for it. *)
Record MediaFile : Type := mkMediaFile {
  path : string;
  name : string;
  timestamp : Z;
  size : Z;
  duration : option Q
}.

(** [fs::Metadata] as far as the code reads it: [modified] is the result of
    [metadata.modified()], in whole seconds since the Unix epoch (negative
    before it), [None] when the time is not available; [len] is a [u64]. *)
Record Metadata : Type := mkMetadata {
  modified : option Z;
  len : Z
}.

(** The calls the listing makes on its environment. An [io::Error] is
    rendered as its message; [read_dir] gives the names of the entries of a
    directory, each entry itself readable or not. *)
Class Storage (FS : Type) : Type := {
  home_dir : FS -> option Path;
  exists_ : FS -> Path -> bool;
  create_dir_all : FS -> Path -> Result FS string;
  read_dir : FS -> Path -> Result (list (Result string string)) string;
  metadata : FS -> Path -> Result Metadata string
}.

(** What a command comes to: it returns, or a thread panics in it. *)
Inductive Outcome (A : Type) : Type :=
| Returned (value : A)
| Panicked (message : string).
Arguments Returned {A} value.
Arguments Panicked {A} message.

(** [Path::to_string_lossy] for names that are valid UTF-8: the components
    with ["/"] between them. *)
Definition component_text (c : Component) : string :=
  match c with
  | RootDir => ""
  | CurDir => "."
  | ParentDir => ".."
  | Normal n => n
  end.

Fixpoint join_text (parts : list string) : string :=
  match parts with
  | [] => ""
  | [p] => p
  | p :: rest => p ++ "/" ++ join_text rest
  end.

Definition to_string_lossy (p : Path) : string :=
  match p with
  | [RootDir] => "/"
  | _ => join_text (map component_text p)
  end.

(** [Path::file_name]: the last component, if it is a normal one. *)
Definition file_name (p : Path) : option string :=
  match last p with
  | Some (Normal n) => Some n
  | _ => None
  end.

(** The text before and after the last ["."] of a name. *)
Fixpoint rsplit_dot (s : string) : option (string * string) :=
  match s with
  | EmptyString => None
  | String a rest =>
      match rsplit_dot rest with
      | Some (before, after) => Some (String a before, after)
      | None => if Ascii.eqb a "." then Some ("", rest) else None
      end
  end.

(** [Path::extension]: what follows the last ["."] of the file name; none
    when the name has no ["."], or only the one it begins with. *)
Definition extension (p : Path) : option string :=
  n ← file_name p;
  '(before, after) ← rsplit_dot n;
  if String.eqb before "" then None else Some after.

(** [path.extension().map(|e| e == .. || ..).unwrap_or(false)]. *)
Definition has_extension (allowed : list string) (p : Path) : bool :=
  match extension p with
  | Some e => existsb (String.eqb e) allowed
  | None => false
  end.

(** [as i64] on a [u64]. *)
Definition as_i64 (n : Z) : Z :=
  let m := n mod 2 ^ 64 in
  if m <? 2 ^ 63 then m else m - 2 ^ 64.

(** [slice::sort_by]: a stable sort. The entries are put in place one by
    one from the last to the first, each before the first entry that does
    not have to precede it, which is the order every stable sort gives. *)
Fixpoint insert_by {A} (cmp : A -> A -> comparison) (x : A) (l : list A) : list A :=
  match l with
  | [] => [x]
  | y :: rest =>
      match cmp x y with
      | Gt => y :: insert_by cmp x rest
      | _ => x :: l
      end
  end.

Fixpoint sort_by {A} (cmp : A -> A -> comparison) (l : list A) : list A :=
  match l with
  | [] => []
  | x :: rest => insert_by cmp x (sort_by cmp rest)
  end.

(** The comparison both listings sort with:
    [|a, b| b.timestamp.cmp(&a.timestamp)]. *)
Definition newest_first (a b : MediaFile) : comparison :=
  timestamp b ?= timestamp a.

Section Listing.
Context {FS : Type} `{Storage FS}.

(** [get_media_dir]. *)
Definition get_media_dir (fs : FS) (subdir : string) : FS * Result Path string :=
  match ok_or (home_dir fs) "Cannot determine home directory" with
  | Err e => (fs, Err e)
  | Ok home =>
      let dir := join (join home (PathBuf_from MEDIA_BASE)) (PathBuf_from subdir) in
      if negb (exists_ fs dir) then
        match map_err (fun e => "Failed to create directory: " ++ e)
                (create_dir_all fs dir) with
        | Err e => (fs, Err e)
        | Ok fs' => (fs', Ok dir)
        end
      else (fs, Ok dir)
  end.

(** One turn of the loop of a listing for an entry that could be read:
    nothing for a name of another extension or a file without metadata, the
    [MediaFile] otherwise; a modification time before the epoch makes
    [duration_since(..).unwrap()] panic. *)
Definition list_entry (allowed : list string) (fs : FS) (dir : Path)
    (entry_name : string) : Outcome (option MediaFile) :=
  let path := join dir [Normal entry_name] in
  if has_extension allowed path then
    match metadata fs path with
    | Err _ => Returned None
    | Ok md =>
        match modified md with
        | Some t =>
            if t <? 0 then
              Panicked "called `Result::unwrap()` on an `Err` value"
            else
              Returned (Some (mkMediaFile (to_string_lossy path) entry_name
                                (as_i64 t) (len md) None))
        | None =>
            Returned (Some (mkMediaFile (to_string_lossy path) entry_name
                              0 (len md) None))
        end
    end
  else Returned None.

(** The loop over [entries.flatten()]: the files pushed, in the order of
    the directory. *)
Fixpoint list_entries (allowed : list string) (fs : FS) (dir : Path)
    (entries : list (Result string string)) : Outcome (list MediaFile) :=
  match entries with
  | [] => Returned []
  | Err _ :: rest => list_entries allowed fs dir rest
  | Ok entry_name :: rest =>
      match list_entry allowed fs dir entry_name with
      | Panicked m => Panicked m
      | Returned pushed =>
          match list_entries allowed fs dir rest with
          | Panicked m => Panicked m
          | Returned files =>
              Returned (match pushed with Some f => f :: files | None => files end)
          end
      end
  end.

(** The files a listing pushes before it sorts: none when the directory
    cannot be read. *)
Definition pushed_files (allowed : list string) (fs : FS) (dir : Path)
  : Outcome (list MediaFile) :=
  match read_dir fs dir with
  | Ok entries => list_entries allowed fs dir entries
  | Err _ => Returned []
  end.

(** The body [list_photos] and [list_audio] share, word for word but for
    the directory and the extensions. *)
Definition list_media (allowed : list string) (subdir : string) (fs : FS)
  : FS * Outcome (Result (list MediaFile) string) :=
  match get_media_dir fs subdir with
  | (fs', Err e) => (fs', Returned (Err e))
  | (fs', Ok dir) =>
      (fs',
       match pushed_files allowed fs' dir with
       | Panicked m => Panicked m
       | Returned files => Returned (Ok (sort_by newest_first files))
       end)
  end.

(** [list_photos]. *)
Definition list_photos (fs : FS) : FS * Outcome (Result (list MediaFile) string) :=
  list_media ["jpg"; "jpeg"; "png"] PHOTOS_DIR fs.

(** [list_audio]. *)
Definition list_audio (fs : FS) : FS * Outcome (Result (list MediaFile) string) :=
  list_media ["webm"; "ogg"; "wav"] AUDIO_DIR fs.

End Listing.

(** What [Local::now()] reads, as far as [generate_filename] formats it:
    the calendar date and the time of day of the local clock, to the
    second, without the offset from UTC. It is a reading of the clock, not
    an instant: the local clock reads the same twice when it is set back. *)
Record DateTime : Type := mkDateTime {
  year : Z;
  month : Z;
  day : Z;
  hour : Z;
  minute : Z;
  second : Z
}.

(** [%Y]: the year padded to four digits, with a sign when it is not
    within 0 to 9999. *)
Definition format_year (y : Z) : string :=
  if y <? 0 then "-" ++ Format.padStart 4 "0" (Format.toString (- y))
  else if 9999 <? y then "+" ++ Format.toString y
  else Format.padStart 4 "0" (Format.toString y).

(** [%m], [%d], [%H], [%M], [%S]: two digits. *)
Definition format_2 (n : Z) : string := Format.padStart 2 "0" (Format.toString n).

(** [now.format("%Y%m%d_%H%M%S")]. *)
Definition format_stamp (now : DateTime) : string :=
  format_year (year now) ++ format_2 (month now) ++ format_2 (day now)
  ++ "_" ++ format_2 (hour now) ++ format_2 (minute now) ++ format_2 (second now).

(** [generate_filename], for the time [Local::now()] gives. *)
Definition generate_filename (now : DateTime) (prefix extension : string) : string :=
  prefix ++ "_" ++ format_stamp now ++ "." ++ extension.

(** A date and time of the calendar, in the years that need no sign. *)
Definition valid_datetime (t : DateTime) : Prop :=
  0 <= year t <= 9999 /\ 1 <= month t <= 12 /\ 1 <= day t <= 31
  /\ 0 <= hour t <= 23 /\ 0 <= minute t <= 59 /\ 0 <= second t <= 60.

(** A storage for examples: the directories there are, and the files with
    the directory they are in, in the order a listing reads them. *)
Record Shelf : Type := mkShelf {
  shelf_home : option string;
  shelf_dirs : list Path;
  shelf_files : list (Path * string * Metadata)
}.

#[global] Instance Shelf_Storage : Storage Shelf := {
  home_dir s := PathBuf_from <$> shelf_home s;
  exists_ s p := bool_decide (p ∈ shelf_dirs s);
  create_dir_all s p := Ok (mkShelf (shelf_home s) (p :: shelf_dirs s) (shelf_files s));
  read_dir s p :=
    if bool_decide (p ∈ shelf_dirs s) then
      Ok (omap (fun f => if bool_decide (f.1.1 = p) then Some (Ok f.1.2) else None)
            (shelf_files s))
    else Err "No such file or directory (os error 2)";
  metadata s p :=
    match List.find (fun f => bool_decide (join f.1.1 [Normal f.1.2] = p))
            (shelf_files s) with
    | Some f => Ok f.2
    | None => Err "No such file or directory (os error 2)"
    end
}.

Definition photos_path : Path :=
  PathBuf_from "/home/bee/.config/honeybee/media/photos".

(** Photos taken at different times, two of them in the same second, a
    file in capitals, a hidden file and a text file. *)
Definition kiosk_shelf : Shelf :=
  {| shelf_home := Some "/home/bee";
     shelf_dirs := [photos_path];
     shelf_files :=
       [(photos_path, "photo_20240101_120000.jpg", mkMetadata (Some 1704110400) 2048);
        (photos_path, "notes.txt", mkMetadata (Some 1704200000) 10);
        (photos_path, "photo_20240301_080000.jpg", mkMetadata (Some 1709280000) 4096);
        (photos_path, "scan.png", mkMetadata (Some 1704110400) 512);
        (photos_path, "HOLIDAY.JPG", mkMetadata (Some 1709290000) 100);
        (photos_path, ".jpg", mkMetadata (Some 1709300000) 1);
        (photos_path, "old.jpeg", mkMetadata (Some 1600000000) 999)] |}.

(** A shelf with a photo dated one day before the epoch. *)
Definition shelf_before_epoch : Shelf :=
  {| shelf_home := Some "/home/bee";
     shelf_dirs := [photos_path];
     shelf_files :=
       [(photos_path, "a.jpg", mkMetadata (Some 1704110400) 10);
        (photos_path, "b.jpg", mkMetadata (Some (-86400)) 20)] |}.

End MediaStore.

(** ** GalleryApp.tsx *)

Module Gallery.
Local Open Scope string_scope.

Record GalleryImage : Type := mkImage {
  filename : string;
  path : string;
  size : Z;
  modified : Z
}.

#[global] Instance GalleryImage_eq_dec : EqDecision GalleryImage.
Proof. solve_decision. Defined.

Inductive Effect : Type :=
| Invoke (command : string) (arg : option string)
| ConsoleError (label : string) (err : string).

(** The component's [useState] cells and what it has done to the world. *)
Record State : Type := mkState {
  images : list GalleryImage;
  loading : bool;
  selectedImage : option GalleryImage;
  imageData : option string;
  loadingImage : bool;
  deleting : bool;
  confirmDelete : bool;
  effects : list Effect
}.

Definition initial : State := mkState [] true None None false false false [].

Definition setImages (f : list GalleryImage -> list GalleryImage) (st : State) : State :=
  mkState (f (images st)) (loading st) (selectedImage st) (imageData st)
    (loadingImage st) (deleting st) (confirmDelete st) (effects st).

Definition setLoading (b : bool) (st : State) : State :=
  mkState (images st) b (selectedImage st) (imageData st)
    (loadingImage st) (deleting st) (confirmDelete st) (effects st).

Definition setSelectedImage (i : option GalleryImage) (st : State) : State :=
  mkState (images st) (loading st) i (imageData st)
    (loadingImage st) (deleting st) (confirmDelete st) (effects st).

Definition setImageData (d : option string) (st : State) : State :=
  mkState (images st) (loading st) (selectedImage st) d
    (loadingImage st) (deleting st) (confirmDelete st) (effects st).

Definition setLoadingImage (b : bool) (st : State) : State :=
  mkState (images st) (loading st) (selectedImage st) (imageData st)
    b (deleting st) (confirmDelete st) (effects st).

Definition setDeleting (b : bool) (st : State) : State :=
  mkState (images st) (loading st) (selectedImage st) (imageData st)
    (loadingImage st) b (confirmDelete st) (effects st).

Definition setConfirmDelete (b : bool) (st : State) : State :=
  mkState (images st) (loading st) (selectedImage st) (imageData st)
    (loadingImage st) (deleting st) b (effects st).

Definition perform (e : Effect) (st : State) : State :=
  mkState (images st) (loading st) (selectedImage st) (imageData st)
    (loadingImage st) (deleting st) (confirmDelete st) (effects st ++ [e]).

(** [loadImages] up to its [await], and from there on, for the answer of
    the backend. *)
Definition loadImages_begin (st : State) : State :=
  perform (Invoke "list_gallery_images" None) (setLoading true st).

Definition loadImages_settled (answer : Result (list GalleryImage) string)
    (st : State) : State :=
  setLoading false
    (match answer with
     | Ok result => setImages (fun _ => result) st
     | Err e => perform (ConsoleError "Failed to list images:" e) st
     end).

(** [openImage] up to its [await], and from there on, in the state the
    component is in when the backend answers. *)
Definition openImage_begin (image : GalleryImage) (st : State) : State :=
  perform (Invoke "read_gallery_image" (Some (path image)))
    (setConfirmDelete false (setLoadingImage true (setSelectedImage (Some image) st))).

Definition openImage_settled (answer : Result string string) (st : State) : State :=
  setLoadingImage false
    (match answer with
     | Ok data => setImageData (Some data) st
     | Err e => perform (ConsoleError "Failed to read image:" e) st
     end).

(** [closeViewer]. *)
Definition closeViewer (st : State) : State :=
  setConfirmDelete false (setImageData None (setSelectedImage None st)).

(** [deleteImage], for the answer of the backend, run from the call to the
    end of its [finally] block. *)
Definition deleteImage (backend : Result unit string) (st : State) : State :=
  match selectedImage st with
  | None => st
  | Some selected =>
      let st := perform (Invoke "delete_gallery_image" (Some (path selected)))
                  (setDeleting true st) in
      let st :=
        match backend with
        | Ok _ =>
            closeViewer (setImages (filter (fun i => path i <> path selected)) st)
        | Err e => perform (ConsoleError "Failed to delete image:" e) st
        end in
      setConfirmDelete false (setDeleting false st)
  end.

(** [deleteImage] up to its [await], for the selected image the callback
    closed over, and from there on, in the state the component is in when
    the backend answers. [deleteImage] above is the two with nothing
    between. *)
Definition deleteImage_begin (selected : GalleryImage) (st : State) : State :=
  perform (Invoke "delete_gallery_image" (Some (path selected))) (setDeleting true st).

Definition deleteImage_settled (answer : Result unit string)
    (selected : GalleryImage) (st : State) : State :=
  setConfirmDelete false
    (setDeleting false
       (match answer with
        | Ok _ => closeViewer (setImages (filter (fun i => path i <> path selected)) st)
        | Err e => perform (ConsoleError "Failed to delete image:" e) st
        end)).

(** The component with its calls in flight: whether [list_gallery_images]
    has yet to answer, how many [read_gallery_image] calls of [openImage]
    have, and the selected images the [deleteImage] calls that have yet to
    be answered closed over. (The reads of the thumbnails set cells of the
    thumbnails only.) *)
Record Component : Type := mkComponent {
  cells : State;
  listing : bool;
  reads : nat;
  deletions : list GalleryImage
}.

(** The component once it has mounted: the effect has called
    [loadImages]. *)
Definition mounted : Component :=
  mkComponent (loadImages_begin initial) true 0 [].

(** What happens to the component: an answer of the backend to a call in
    flight, in whatever order the answers come, or a tap on what is on the
    screen at that moment. The viewer is on the screen when an image is
    selected, with Back and either Delete or, while the confirmation is
    asked, Cancel and a confirming button that is disabled while
    [deleting]; otherwise the grid is, with the thumbnails of the list once
    it is no longer loading. *)
Inductive Event : Type :=
| ListSettled (answer : Result (list GalleryImage) string)
| TapThumbnail (image : GalleryImage)
| ReadSettled (answer : Result string string)
| TapBack
| TapDelete
| TapCancel
| TapConfirm
| DeleteSettled (k : nat) (answer : Result unit string).

Definition with_cells (st : State) (c : Component) : Component :=
  mkComponent st (listing c) (reads c) (deletions c).

Definition step (c : Component) (e : Event) : Component :=
  let st := cells c in
  match e with
  | ListSettled answer =>
      if listing c then
        mkComponent (loadImages_settled answer st) false (reads c) (deletions c)
      else c
  | TapThumbnail image =>
      match selectedImage st with
      | None =>
          if negb (loading st) && bool_decide (image ∈ images st) then
            mkComponent (openImage_begin image st) (listing c) (S (reads c))
              (deletions c)
          else c
      | Some _ => c
      end
  | ReadSettled answer =>
      match reads c with
      | S n => mkComponent (openImage_settled answer st) (listing c) n (deletions c)
      | O => c
      end
  | TapBack =>
      match selectedImage st with
      | Some _ => with_cells (closeViewer st) c
      | None => c
      end
  | TapDelete =>
      match selectedImage st with
      | Some _ => if confirmDelete st then c else with_cells (setConfirmDelete true st) c
      | None => c
      end
  | TapCancel =>
      match selectedImage st with
      | Some _ => if confirmDelete st then with_cells (setConfirmDelete false st) c else c
      | None => c
      end
  | TapConfirm =>
      match selectedImage st with
      | Some selected =>
          if confirmDelete st && negb (deleting st) then
            mkComponent (deleteImage_begin selected st) (listing c) (reads c)
              (deletions c ++ [selected])
          else c
      | None => c
      end
  | DeleteSettled k answer =>
      match deletions c !! k with
      | Some selected =>
          mkComponent (deleteImage_settled answer selected st) (listing c) (reads c)
            (delete k (deletions c))
      | None => c
      end
  end.

(** The component after it has mounted and the events that follow. *)
Definition run (es : list Event) : Component := fold_left step es mounted.

(** What every event keeps: the image in the viewer is in the list; at
    most one deletion is in flight, and [deleting] says whether one is;
    [loadingImage] is set only with a read in flight; [loading] says
    whether the list has yet to come, and until it has come there is no
    image. *)
Definition consistent (c : Component) : Prop :=
  (forall i, selectedImage (cells c) = Some i -> i ∈ images (cells c))
  /\ length (deletions c) <= 1
  /\ (deleting (cells c) = true <-> deletions c <> [])
  /\ (loadingImage (cells c) = true -> 0 < reads c)
  /\ loading (cells c) = listing c
  /\ (listing c = true -> images (cells c) = [] /\ selectedImage (cells c) = None).

Definition three_photos : list GalleryImage :=
  [mkImage "a.jpg" "/photos/a.jpg" 10 3; mkImage "b.jpg" "/photos/b.jpg" 20 2;
   mkImage "c.jpg" "/photos/c.jpg" 30 1].

End Gallery.

(** ** CameraApp of IMPLEMENTATION_EXAMPLES.md *)

Module Camera.
Local Open Scope string_scope.

Inductive Effect : Type :=
| Invoke (command : string) (arg : string)
| ConsoleError (label : string) (err : string).

(** The component's cells and refs: whether [videoRef.current] and
    [canvasRef.current] are set, and what it has done to the world. *)
Record State : Type := mkState {
  isReady : bool;
  lastCapture : option string;
  isCapturing : bool;
  video : bool;
  canvas : bool;
  effects : list Effect
}.

Definition setLastCapture (c : option string) (st : State) : State :=
  mkState (isReady st) c (isCapturing st) (video st) (canvas st) (effects st).

Definition setIsCapturing (b : bool) (st : State) : State :=
  mkState (isReady st) (lastCapture st) b (video st) (canvas st) (effects st).

Definition perform (e : Effect) (st : State) : State :=
  mkState (isReady st) (lastCapture st) (isCapturing st) (video st) (canvas st)
    (effects st ++ [e]).

(** [capturePhoto]. [context] says whether [canvas.getContext('2d')] gives a
    context, [dataUrl] is what [canvas.toDataURL] gives, [backend] how
    [save_photo] settles. *)
Definition capturePhoto (context : bool) (dataUrl : string)
    (backend : Result unit string) (st : State) : State :=
  if negb (video st) || negb (canvas st) || isCapturing st then st
  else
    let st := setIsCapturing true st in
    if negb context then st
    else
      let st := setLastCapture (Some dataUrl) st in
      let st := perform (Invoke "save_photo" dataUrl) st in
      let st :=
        match backend with
        | Ok _ => st
        | Err e => perform (ConsoleError "Failed to save photo:" e) st
        end in
      setIsCapturing false st.

(** One tap of the shutter button, with what the world answers to it, and a
    sequence of taps, each run to its end before the next. *)
Definition Tap : Type := (bool * string * Result unit string)%type.

Definition tap (st : State) (t : Tap) : State :=
  let '(context, dataUrl, backend) := t in capturePhoto context dataUrl backend st.

Definition taps (ts : list Tap) (st : State) : State := fold_left tap ts st.

Definition frame (t : Tap) : string := snd (fst t).

(** The frames handed to [save_photo], in order. *)
Definition saved (es : list Effect) : list string :=
  flat_map (fun e =>
    match e with
    | Invoke command arg => if String.eqb command "save_photo" then [arg] else []
    | ConsoleError _ _ => []
    end) es.

Definition ready : State := mkState true None false true true [].

End Camera.

(** ** SystemOverlay of IMPLEMENTATION_EXAMPLES.md *)

Module Overlay.
Import SystemCmd.
Local Open Scope string_scope.
Local Open Scope Z_scope.

(** The component's cells, the commands the backend has handed to the
    operating system on its behalf, and the errors it has logged.
    [loadCurrentValues] reads the levels through [get_brightness] and
    [get_volume], which are not modelled. *)
Record State : Type := mkState {
  brightness : Z;
  volume : Z;
  isInitialized : bool;
  commands : list Command;
  console : list (string * string)
}.

Definition initial : State := mkState 50 50 false [] [].

(** [invoke(command, { level })] of a command that takes a [u8]: the bridge
    refuses a level that is no [u8], with a message of its own, and the
    command does not run. *)
Definition invoke_level {A} (command : Z -> list Command * Result A string)
    (refusal : string) (level : Z) : list Command * Result A string :=
  if (0 <=? level) && (level <=? 255) then command level else ([], Err refusal).

(** The shape [handleBrightnessChange] and [handleVolumeChange] share: the
    cell is set, then the backend is called and an error is logged. *)
Definition after_invoke (label : string) (r : list Command * Result unit string)
    (st : State) : State :=
  mkState (brightness st) (volume st) (isInitialized st)
    (commands st ++ fst r)
    (match snd r with
     | Ok _ => console st
     | Err e => console st ++ [(label, e)]
     end).

(** [handleBrightnessChange]. *)
Definition handleBrightnessChange (os : Spawner) (refusal : string) (value : Z)
    (st : State) : State :=
  let st := mkState value (volume st) (isInitialized st) (commands st) (console st) in
  after_invoke "Failed to set brightness:"
    (invoke_level (set_brightness os) refusal value) st.

(** [handleVolumeChange]. *)
Definition handleVolumeChange (os : Spawner) (refusal : string) (value : Z)
    (st : State) : State :=
  let st := mkState (brightness st) value (isInitialized st) (commands st) (console st) in
  after_invoke "Failed to set volume:"
    (invoke_level (Volume.set_volume os) refusal value) st.

End Overlay.

(** ** useSwipeGesture of IMPLEMENTATION_EXAMPLES.md *)

Module Swipe.
Local Open Scope Q_scope.

(** [SwipeGestureState]. Coordinates and [progress] are JavaScript numbers;
    they are taken as rationals here, and the properties below use only
    their order. *)
Record SwipeGestureState : Type := mkGesture {
  isActive : bool;
  progress : Q;
  isDragging : bool
}.

Inductive Callback : Type := OnActivate | OnDeactivate.

(** The hook: its state cell, its two refs, and the callbacks it has called,
    in order. *)
Record Hook : Type := mkHook {
  state : SwipeGestureState;
  touchStartY : Q;
  touchStartedInEdge : bool;
  called : list Callback
}.

Definition initial : Hook := mkHook (mkGesture false 0 false) 0 false [].

Definition setState (f : SwipeGestureState -> SwipeGestureState) (h : Hook) : Hook :=
  mkHook (f (state h)) (touchStartY h) (touchStartedInEdge h) (called h).

(** [onActivate?.()] and [onDeactivate?.()]: the callback is called when
    the options give one ([given]), and nothing happens when they give
    none. *)
Definition call (given : bool) (c : Callback) (h : Hook) : Hook :=
  if given then
    mkHook (state h) (touchStartY h) (touchStartedInEdge h) (called h ++ [c])
  else h.

(** [Math.min] and [>] on these numbers. *)
Definition Math_min (x y : Q) : Q := if Qle_bool x y then x else y.

Definition Qgt_bool (x y : Q) : bool := negb (Qle_bool x y).

(** The options of the hook: the two distances, and whether [onActivate]
    and [onDeactivate] are given. SystemOverlay gives [onActivate] only. *)
Section Handlers.
Variables edgeThreshold activationDistance : Q.
Variables onActivate onDeactivate : bool.

(** [handleTouchStart], for [e.touches[0].clientY]. *)
Definition handleTouchStart (clientY : Q) (h : Hook) : Hook :=
  if Qle_bool clientY edgeThreshold then
    let h := mkHook (state h) clientY true (called h) in
    setState (fun prev => mkGesture (isActive prev) (progress prev) true) h
  else h.

(** [handleTouchMove], for [e.touches[0].clientY]; [state.isActive] is the
    value of the latest render. *)
Definition handleTouchMove (clientY : Q) (h : Hook) : Hook :=
  if negb (touchStartedInEdge h) then h
  else
    let deltaY := clientY - touchStartY h in
    if Qgt_bool deltaY 0 then
      let maxDistance := 200 in
      let progress' := Math_min (deltaY / maxDistance) 1 in
      let active := isActive (state h) in
      let h := setState (fun prev => mkGesture (isActive prev) progress' (isDragging prev)) h in
      if Qle_bool activationDistance deltaY && negb active then
        call onActivate OnActivate
          (setState (fun prev => mkGesture true (progress prev) (isDragging prev)) h)
      else h
    else h.

(** [handleTouchEnd]. *)
Definition handleTouchEnd (h : Hook) : Hook :=
  if negb (touchStartedInEdge h) then h
  else
    let h := mkHook (state h) (touchStartY h) false (called h) in
    setState (fun prev =>
      mkGesture (isActive prev) (if isActive prev then 1 else 0) false) h.

(** [dismiss]. *)
Definition dismiss (h : Hook) : Hook :=
  call onDeactivate OnDeactivate (setState (fun _ => mkGesture false 0 false) h).

(** What reaches the hook: the three touch events on the window, and the
    calls of [dismiss] by the component that uses the hook. *)
Inductive Event : Type :=
| TouchStart (clientY : Q)
| TouchMove (clientY : Q)
| TouchEnd
| Dismiss.

Definition step (h : Hook) (e : Event) : Hook :=
  match e with
  | TouchStart y => handleTouchStart y h
  | TouchMove y => handleTouchMove y h
  | TouchEnd => handleTouchEnd h
  | Dismiss => dismiss h
  end.

Definition run (es : list Event) : Hook := fold_left step es initial.

End Handlers.

(** An event other than a dismissal. *)
Definition is_touch (e : Event) : bool :=
  match e with Dismiss => false | _ => true end.

(** The bounds of [progress], the agreement of [isDragging] with the ref,
    and the value of [progress] when no touch is being followed. *)
Definition settled (h : Hook) : Prop :=
  0 <= progress (state h) <= 1
  /\ (isDragging (state h) = true -> touchStartedInEdge h = true)
  /\ (touchStartedInEdge h = false ->
      progress (state h) = if isActive (state h) then 1 else 0).

End Swipe.

(** * Properties *)

(** Reduces the [?] steps and the option and result combinators around a
    value that is known, and nothing else. *)
Ltac red_result :=
  cbv beta iota delta [ok_or map_err is_ok is_err negb fst snd] in *.

(** ** set_brightness *)

Section SetBrightness.
Import SystemCmd.
Local Open Scope string_scope.
Local Open Scope Z_scope.

Lemma clamp_bounds (v lo hi : Z) : lo <= hi -> lo <= clamp v lo hi <= hi.
Proof.
  intros Hle. unfold clamp.
  destruct (Z.ltb_spec v lo); [lia|].
  destruct (Z.ltb_spec hi v); lia.
Qed.

Lemma clamp_inside (v lo hi : Z) : lo <= v <= hi -> clamp v lo hi = v.
Proof.
  intros [Hlo Hhi]. unfold clamp.
  destruct (Z.ltb_spec v lo); [lia|].
  destruct (Z.ltb_spec hi v); [lia|reflexivity].
Qed.

(** C8: for every level of a [u8], [set_brightness] hands the operating
    system exactly one command, [brightnessctl set N%], where N is the level
    clamped to 5..100: 5 for a level below 5, the level itself from 5 to
    100, and 100 for a level above 100, so N lies between 5 and 100; it
    returns [Ok(())] whenever spawning that command succeeds, whatever the
    exit status, and the prefixed error message when spawning fails. *)
Theorem set_brightness_clamps (os : Spawner) (level : Z) :
  is_u8 level ->
  let safe_level := Z.max 5 (Z.min level 100) in
  let cmd := mkCommand "brightnessctl" ["set"; display_u8 safe_level ++ "%"] in
  5 <= safe_level <= 100
  /\ (level < 5 -> safe_level = 5)
  /\ (5 <= level <= 100 -> safe_level = level)
  /\ (100 < level -> safe_level = 100)
  /\ fst (set_brightness os level) = [cmd]
  /\ (forall out, os cmd = Ok out -> snd (set_brightness os level) = Ok tt)
  /\ (forall e, os cmd = Err e ->
        snd (set_brightness os level) = Err ("Failed to set brightness: " ++ e)).
Proof.
  intros _ safe_level cmd.
  assert (Hclamp : clamp level 5 100 = safe_level).
  { unfold clamp, safe_level.
    destruct (Z.ltb_spec level 5); [lia|].
    destruct (Z.ltb_spec 100 level); lia. }
  split; [unfold safe_level; lia|].
  split; [unfold safe_level; lia|].
  split; [unfold safe_level; lia|].
  split; [unfold safe_level; lia|].
  unfold set_brightness. rewrite Hclamp.
  change (brightness_command safe_level) with cmd.
  destruct (os cmd) as [out|e] eqn:Hos; simpl.
  - split; [reflexivity|]. split; [intros; reflexivity | intros; discriminate].
  - split; [reflexivity|]. split; [intros; discriminate | intros e' [= <-]; reflexivity].
Qed.

Lemma set_brightness_clamps_witness :
  (fst (set_brightness (os_exits_with 1) 0) = [mkCommand "brightnessctl" ["set"; "5%"]]
   /\ snd (set_brightness (os_exits_with 1) 0) = Ok tt)
  /\ fst (set_brightness (os_exits_with 1) 42) = [mkCommand "brightnessctl" ["set"; "42%"]]
  /\ fst (set_brightness (os_exits_with 1) 100) = [mkCommand "brightnessctl" ["set"; "100%"]]
  /\ fst (set_brightness (os_exits_with 1) 255) = [mkCommand "brightnessctl" ["set"; "100%"]]
  /\ snd (set_brightness os_not_installed 4)
     = Err "Failed to set brightness: No such file or directory (os error 2)".
Proof.
  assert (Hu8 : forall n, 0 <= n <= 255 -> is_u8 n) by (intros n Hn; exact Hn).
  split; [|split; [|split; [|split]]].
  - destruct (set_brightness_clamps (os_exits_with 1) 0 (Hu8 0 ltac:(lia)))
      as (_ & _ & _ & _ & Hcmd & Hok & _).
    split; [exact Hcmd | exact (Hok _ eq_refl)].
  - destruct (set_brightness_clamps (os_exits_with 1) 42 (Hu8 42 ltac:(lia)))
      as (_ & _ & _ & _ & Hcmd & _).
    exact Hcmd.
  - destruct (set_brightness_clamps (os_exits_with 1) 100 (Hu8 100 ltac:(lia)))
      as (_ & _ & _ & _ & Hcmd & _).
    exact Hcmd.
  - destruct (set_brightness_clamps (os_exits_with 1) 255 (Hu8 255 ltac:(lia)))
      as (_ & _ & _ & _ & Hcmd & _).
    exact Hcmd.
  - destruct (set_brightness_clamps os_not_installed 4 (Hu8 4 ltac:(lia)))
      as (_ & _ & _ & _ & _ & _ & Herr).
    exact (Herr _ eq_refl).
Defined.

(** The levels at the ends of the range, a level inside it, and a system
    without [brightnessctl]. *)
Example set_brightness_255 :
  set_brightness (os_exits_with 0) 255 =
    ([mkCommand "brightnessctl" ["set"; "100%"]], Ok tt).
Proof. reflexivity. Qed.

Example set_brightness_42 :
  set_brightness os_not_installed 42 =
    ([mkCommand "brightnessctl" ["set"; "42%"]],
     Err "Failed to set brightness: No such file or directory (os error 2)").
Proof. reflexivity. Qed.

End SetBrightness.

(** ** delete_media *)

Section DeleteMediaProperties.
Import Media.
Local Open Scope string_scope.
Context {FS : Type} `{FileSystem FS}.

(** Whatever goes wrong, the file system is handed back as it was. *)
Lemma delete_media_error_keeps (fs : FS) (path : string) :
  is_err (snd (delete_media fs path)) = true -> fst (delete_media fs path) = fs.
Proof.
  unfold delete_media. destruct (delete_media_body fs path); [discriminate|reflexivity].
Qed.

(** C9: [delete_media] removes a file only when the canonicalized path
    starts with the canonicalized media base under the home directory; when
    the path cannot be canonicalized (it does not exist, for one), or
    canonicalizes outside the base, it returns an error and the file system
    is as it was, as it is after every error. *)
Theorem delete_media_confined (fs : FS) (path : string) :
  (forall fs', delete_media fs path = (fs', Ok tt) ->
     exists home canonical_path canonical_base,
       home_dir fs = Some home
       /\ canonicalize fs (PathBuf_from path) = Ok canonical_path
       /\ canonicalize fs (join home (PathBuf_from ".config/honeybee/media"))
            = Ok canonical_base
       /\ starts_with canonical_path canonical_base = true
       /\ remove_file fs (PathBuf_from path) = Ok fs')
  /\ (is_err (canonicalize fs (PathBuf_from path)) = true ->
        exists e, delete_media fs path = (fs, Err e))
  /\ (forall home canonical_path canonical_base,
        home_dir fs = Some home ->
        canonicalize fs (PathBuf_from path) = Ok canonical_path ->
        canonicalize fs (join home (PathBuf_from ".config/honeybee/media"))
          = Ok canonical_base ->
        starts_with canonical_path canonical_base = false ->
        delete_media fs path =
          (fs, Err "Access denied: path outside media directory"))
  /\ (is_err (snd (delete_media fs path)) = true ->
        fst (delete_media fs path) = fs).
Proof.
  pose proof (delete_media_error_keeps fs path) as Hkeeps.
  unfold delete_media, delete_media_body, MEDIA_BASE.
  split; [|split; [|split]]; [| | |exact Hkeeps]; clear Hkeeps.
  - intros fs'.
    destruct (home_dir fs) as [home|]; red_result; [|discriminate].
    destruct (canonicalize fs (PathBuf_from path)) as [cp|]; red_result; [|discriminate].
    destruct (canonicalize fs (join home (PathBuf_from ".config/honeybee/media")))
      as [cb|] eqn:Hcb; red_result; [|discriminate].
    destruct (starts_with cp cb) eqn:Hsw; red_result; [|discriminate].
    destruct (remove_file fs (PathBuf_from path)) as [fs2|]; red_result; [|discriminate].
    intros [= <-]. exists home, cp, cb. auto.
  - intros Herr.
    destruct (home_dir fs) as [home|]; red_result; [|eauto].
    destruct (canonicalize fs (PathBuf_from path)) as [cp|]; red_result;
      [discriminate|eauto].
  - intros home cp cb -> -> Hcb Hsw. red_result. rewrite Hcb. red_result.
    rewrite Hsw. reflexivity.
Qed.

End DeleteMediaProperties.

Section DeleteMediaOnDisk.
Import Media Disk.
Local Open Scope string_scope.

Lemma delete_media_confined_witness :
  (exists home canonical_path canonical_base,
     home_dir kiosk = Some home
     /\ canonicalize kiosk
          (PathBuf_from "/home/bee/.config/honeybee/media/photos/a.jpg")
          = Ok canonical_path
     /\ canonicalize kiosk (join home (PathBuf_from ".config/honeybee/media"))
          = Ok canonical_base
     /\ starts_with canonical_path canonical_base = true
     /\ remove_file kiosk
          (PathBuf_from "/home/bee/.config/honeybee/media/photos/a.jpg")
          = Ok (fst (delete_media kiosk
                       "/home/bee/.config/honeybee/media/photos/a.jpg")))
  /\ (exists e, delete_media kiosk "/home/bee/nothing.jpg" = (kiosk, Err e))
  /\ delete_media kiosk "/home/bee/.config/honeybee/media/../../../../../etc/passwd"
     = (kiosk, Err "Access denied: path outside media directory").
Proof.
  split; [|split].
  - apply (proj1 (delete_media_confined kiosk
                    "/home/bee/.config/honeybee/media/photos/a.jpg")).
    vm_compute. reflexivity.
  - apply (proj1 (proj2 (delete_media_confined kiosk "/home/bee/nothing.jpg"))).
    vm_compute. reflexivity.
  - apply (proj1 (proj2 (proj2 (delete_media_confined kiosk
             "/home/bee/.config/honeybee/media/../../../../../etc/passwd")))
             (PathBuf_from "/home/bee")
             (absolute ["etc"; "passwd"])
             (absolute ["home"; "bee"; ".config"; "honeybee"; "media"]));
      vm_compute; reflexivity.
Defined.

(** The photo is gone after the call, the recording next to it is not. *)
Example delete_media_photo :
  let after := fst (delete_media kiosk "/home/bee/.config/honeybee/media/photos/a.jpg") in
  nodes after !! ["home"; "bee"; ".config"; "honeybee"; "media"; "photos"; "a.jpg"] = None
  /\ nodes after !! ["home"; "bee"; ".config"; "honeybee"; "media"; "audio"; "r.webm"] = Some File.
Proof. vm_compute. split; reflexivity. Qed.

(** [..] components that lead out of the media directory. *)
Example delete_media_dotdot :
  delete_media kiosk "/home/bee/.config/honeybee/media/../../../../../etc/passwd"
  = (kiosk, Err "Access denied: path outside media directory").
Proof. vm_compute. reflexivity. Qed.

(** A symbolic link inside the media directory that points out of it. *)
Example delete_media_link_out :
  delete_media kiosk "/home/bee/.config/honeybee/media/photos/escape"
  = (kiosk, Err "Access denied: path outside media directory").
Proof. vm_compute. reflexivity. Qed.

(** A sibling directory whose name starts with the base's name. *)
Example delete_media_sibling :
  delete_media kiosk "/home/bee/.config/honeybee/media-old/b.jpg"
  = (kiosk, Err "Access denied: path outside media directory").
Proof. vm_compute. reflexivity. Qed.

(** A path that does not exist. *)
Example delete_media_missing :
  delete_media kiosk "/home/bee/.config/honeybee/media/photos/none.jpg"
  = (kiosk, Err "File not found").
Proof. vm_compute. reflexivity. Qed.

(** A symbolic link outside the media directory that points into it: the
    canonicalized path is inside, so the check passes, and [remove_file],
    which is given the path as it was passed, removes the link, not the
    recording. *)
Example delete_media_link_in :
  let after := delete_media kiosk "/tmp/shortcut" in
  snd after = Ok tt
  /\ nodes (fst after) !! ["tmp"; "shortcut"] = None
  /\ nodes (fst after) !! ["home"; "bee"; ".config"; "honeybee"; "media"; "audio"; "r.webm"]
       = Some File.
Proof. vm_compute. repeat split; reflexivity. Qed.

End DeleteMediaOnDisk.

(** ** MusicApp: deleteRecording *)

Section DeleteRecording.
Import MusicApp.
Local Open Scope string_scope.

(** The setters and [perform] touch the cell they name and no other. *)
Lemma finally_recordings (st : State) :
  recordings (deleteRecording_finally st) = recordings st.
Proof. reflexivity. Qed.

(** When the backend has deleted the file, the list is filtered as it is
    at that moment, whatever else happened to the component during the
    [await]. *)
Lemma resume_resolved_recordings (captured : option RecordingInfo)
    (p : string) (st : State) :
  recordings (deleteRecording_resume captured (Ok tt) p st)
  = filter (fun r => path r <> p) (recordings st).
Proof.
  unfold deleteRecording_resume, deleteRecording_resolved.
  destruct (track_has_path captured p); [destruct (audioRef st)|]; reflexivity.
Qed.

Lemma resume_rejected_recordings (captured : option RecordingInfo)
    (e p : string) (st : State) :
  recordings (deleteRecording_resume captured (Err e) p st) = recordings st.
Proof. reflexivity. Qed.

(** [deleteRecording] when nothing else runs between its call and the
    answer of the backend: after it has succeeded for a path, the
    recordings are the previous ones without the entries of that path, the
    others unchanged and in their order; if the current track has that
    path, the audio element is paused and dropped, [currentTrack] is cleared
    and [isPlaying] is false, otherwise the three are as before; the cells
    [loading], [progress], [duration] and the progress timer are as before,
    [deleting] is false and [confirmDelete] is cleared; if the backend
    fails, the recordings are unchanged. *)
Theorem deleteRecording_frame (p : string) (st : State) :
  let after := deleteRecording (Ok tt) p st in
  recordings after = filter (fun r => path r <> p) (recordings st)
  /\ (forall r, r ∈ recordings after <-> r ∈ recordings st /\ path r <> p)
  /\ recordings after `sublist_of` recordings st
  /\ (forall t, currentTrack st = Some t -> path t = p ->
        currentTrack after = None
        /\ isPlaying after = false
        /\ audioRef after = None
        /\ (forall src, audioRef st = Some src ->
              effects after
              = (effects st ++ [Invoke "delete_recording" p; AudioPause src])%list))
  /\ (track_has_path (currentTrack st) p = false ->
        currentTrack after = currentTrack st
        /\ isPlaying after = isPlaying st
        /\ audioRef after = audioRef st)
  /\ (loading after = loading st /\ progress after = progress st
      /\ duration after = duration st
      /\ progressInterval after = progressInterval st
      /\ deleting after = false /\ confirmDelete after = None)
  /\ (forall e, recordings (deleteRecording (Err e) p st) = recordings st).
Proof.
  intros after.
  assert (Hrec : recordings after = filter (fun r => path r <> p) (recordings st)).
  { unfold after, deleteRecording. rewrite resume_resolved_recordings. reflexivity. }
  split; [exact Hrec|].
  split. { intros r. rewrite Hrec, list_elem_of_filter. tauto. }
  split. { rewrite Hrec. apply sublist_filter. }
  split.
  { intros t Ht Hp. unfold after, deleteRecording, deleteRecording_resume,
      deleteRecording_resolved. rewrite Ht. simpl.
    rewrite bool_decide_eq_true_2 by exact Hp.
    destruct (audioRef st) as [src|] eqn:Ha; simpl.
    - split; [reflexivity|]. split; [reflexivity|]. split; [reflexivity|].
      intros src' [= <-]. rewrite <- app_assoc. reflexivity.
    - split; [reflexivity|]. split; [reflexivity|]. split; [exact Ha|].
      intros src' [=]. }
  split.
  { intros Hno. unfold after, deleteRecording, deleteRecording_resume,
      deleteRecording_resolved. rewrite Hno. repeat split. }
  split.
  { unfold after, deleteRecording, deleteRecording_resume,
      deleteRecording_resolved.
    destruct (track_has_path (currentTrack st) p);
      [destruct (audioRef (deleteRecording_begin p st))|]; repeat split. }
  intros e. reflexivity.
Qed.

Lemma deleteRecording_frame_witness :
  (currentTrack (deleteRecording (Ok tt) "/rec/a.wav" two_tracks) = None
   /\ isPlaying (deleteRecording (Ok tt) "/rec/a.wav" two_tracks) = false
   /\ audioRef (deleteRecording (Ok tt) "/rec/a.wav" two_tracks) = None
   /\ (forall src, audioRef two_tracks = Some src ->
         effects (deleteRecording (Ok tt) "/rec/a.wav" two_tracks)
         = (effects two_tracks
            ++ [Invoke "delete_recording" "/rec/a.wav"; AudioPause src])%list))
  /\ (currentTrack (deleteRecording (Ok tt) "/rec/b.wav" two_tracks)
      = currentTrack two_tracks
      /\ isPlaying (deleteRecording (Ok tt) "/rec/b.wav" two_tracks)
         = isPlaying two_tracks
      /\ audioRef (deleteRecording (Ok tt) "/rec/b.wav" two_tracks)
         = audioRef two_tracks).
Proof.
  split.
  - destruct (deleteRecording_frame "/rec/a.wav" two_tracks)
      as (_ & _ & _ & Hcur & _).
    exact (Hcur (mkRecording "a.wav" "/rec/a.wav" 10 1) eq_refl eq_refl).
  - destruct (deleteRecording_frame "/rec/b.wav" two_tracks)
      as (_ & _ & _ & _ & Hother & _).
    exact (Hother eq_refl).
Defined.

Example deleteRecording_two_tracks :
  recordings (deleteRecording (Ok tt) "/rec/a.wav" two_tracks)
  = [mkRecording "b.wav" "/rec/b.wav" 20 2; mkRecording "c.wav" "/rec/c.wav" 30 3].
Proof. vm_compute. reflexivity. Qed.

Example deleteRecording_backend_fails :
  let after := deleteRecording (Err "Access denied") "/rec/a.wav" two_tracks in
  recordings after = recordings two_tracks
  /\ currentTrack after = currentTrack two_tracks
  /\ deleting after = false /\ confirmDelete after = None
  /\ effects after = [Invoke "delete_recording" "/rec/a.wav";
                      ConsoleError "Failed to delete:" "Access denied"].
Proof. vm_compute. repeat split; reflexivity. Qed.

(** Whatever state the component is in when the backend answers, a
    callback that closed over a track of another path, or over none, leaves
    the player alone. *)
Lemma resume_resolved_player (captured : option RecordingInfo) (p : string)
    (st : State) :
  track_has_path captured p = false ->
  let after := deleteRecording_resume captured (Ok tt) p st in
  currentTrack after = currentTrack st /\ isPlaying after = isPlaying st
  /\ audioRef after = audioRef st /\ effects after = effects st.
Proof.
  intros Hno. unfold deleteRecording_resume, deleteRecording_resolved.
  rewrite Hno. repeat split.
Qed.

(** C10: the code does not stop a track that started to play during the
    [await]. With nothing playing, the deletion of [/rec/a.wav] is
    confirmed; while the backend deletes, the play button of that row is
    tapped and the file is read and played; then the deletion succeeds. The
    callback tests the [currentTrack] it closed over, which is [null]: the
    entries of the path leave the list, but the deleted recording stays the
    current track and goes on playing, and the audio element is never
    paused. *)
Theorem deleteRecording_misses_track_started_during_await :
  let a := mkRecording "a.wav" "/rec/a.wav" 10 1 in
  let after := played_during_delete in
  recordings after
  = [mkRecording "b.wav" "/rec/b.wav" 20 2; mkRecording "c.wav" "/rec/c.wav" 30 3]
  /\ currentTrack after = Some a /\ isPlaying after = true
  /\ audioRef after = Some "data:audio/wav;base64,AAAA"
  /\ effects after
     = [Invoke "delete_recording" "/rec/a.wav"; Invoke "read_audio_file" "/rec/a.wav";
        AudioPlay "data:audio/wav;base64,AAAA"]
  /\ deleting after = false.
Proof.
  cbn zeta. unfold played_during_delete.
  destruct (resume_resolved_player (currentTrack two_tracks_idle) "/rec/a.wav"
              (playTrack (Ok "data:audio/wav;base64,AAAA") (Ok tt) 8
                 (mkRecording "a.wav" "/rec/a.wav" 10 1)
                 (deleteRecording_begin "/rec/a.wav" two_tracks_idle)) eq_refl)
    as (Hcur & Hplay & Hau & Heff).
  rewrite resume_resolved_recordings.
  cbn zeta in Hcur, Hplay, Hau, Heff. rewrite Hcur, Hplay, Hau, Heff.
  vm_compute. repeat split; reflexivity.
Qed.

End DeleteRecording.

(** ** RecorderApp: handleClose *)

Section HandleClose.
Import Recorder.
Local Open Scope string_scope.

(** C7 (amended): an error of the [stop_recording] call that
    [handleClose] makes is swallowed without being logged; for every
    outcome of the call [handleClose] goes on to call [onClose], as its
    last action, and its promise is fulfilled, never rejected. *)
Theorem handleClose_swallows (isRecording : bool)
    (stop_recording : Result unit string) :
  snd (handleClose isRecording stop_recording) = Ok tt
  /\ fst (handleClose isRecording stop_recording)
     = ((if isRecording then [Invoke "stop_recording"] else []) ++ [OnClose])%list
  /\ logged (fst (handleClose isRecording stop_recording)) = [].
Proof.
  destruct isRecording, stop_recording as [[]|e]; repeat split; reflexivity.
Qed.

End HandleClose.

(** ** Cleanup on unmount *)

Section Cleanup.
Import Lifecycle.
Local Open Scope string_scope.

(** C7 (counterexample): when [release_camera] rejects because the camera
    is gone, the cleanup ends there: the rejection reaches the caller and
    neither the inference session is closed nor the renderer disposed; and
    [handleClose] logs nothing about the error it swallows. *)
Lemma release_error_ends_cleanup :
  snd (cleanup (Err "camera gone") mounted_mid_capture) = Err "camera gone"
  /\ fst (cleanup (Err "camera gone") mounted_mid_capture)
     = [ClearInterval; InvokeReleaseCamera "0"]
  /\ (HolisticClose ∉ fst (cleanup (Err "camera gone") mounted_mid_capture))
  /\ (RendererDispose ∉ fst (cleanup (Err "camera gone") mounted_mid_capture))
  /\ Recorder.logged (fst (Recorder.handleClose true (Err "not recording"))) = [].
Proof.
  repeat split; try reflexivity.
  - apply (bool_decide_unpack _). vm_compute. exact I.
  - apply (bool_decide_unpack _). vm_compute. exact I.
Qed.

Lemma dispose_object_gpu (o : nat * bool) :
  Forall (fun c => rank_snippet c = 4) (dispose_object o).
Proof.
  unfold dispose_object. destruct (snd o); repeat constructor.
Qed.

Lemma dispose_scene_gpu (s : Object3D) :
  Forall (fun c => rank_snippet c = 4) (dispose_scene s).
Proof.
  unfold dispose_scene. induction (traverse s) as [|o os IH]; simpl.
  - constructor.
  - apply Forall_app. split; [apply dispose_object_gpu | exact IH].
Qed.

Lemma rank4_is_gpu (c : Call) : rank_snippet c = 4 -> step_of c = DisposeGpu.
Proof. destruct c; simpl; congruence. Qed.

(** A trace whose calls all have one rank is ordered, and stays ordered
    behind calls of lower rank. *)
Lemma ordered_by_constant {A} (rank : A -> nat) (n : nat) (l : list A) :
  Forall (fun x => rank x = n) l -> ordered_by rank l = true.
Proof.
  induction 1 as [|x l Hx Hl IH]; simpl; [reflexivity|].
  rewrite IH, andb_true_r. apply forallb_forall. intros y Hy.
  rewrite Forall_forall in Hl. rewrite Hx.
  rewrite (Hl y) by (apply list_elem_of_In; exact Hy).
  apply Nat.leb_refl.
Qed.

Lemma ordered_by_app_constant {A} (rank : A -> nat) (n : nat) (pre l : list A) :
  ordered_by rank pre = true ->
  Forall (fun x => (rank x <= n)%nat) pre ->
  Forall (fun y => rank y = n) l ->
  ordered_by rank (pre ++ l) = true.
Proof.
  intros Hpre Hle Hl. induction pre as [|x pre IH]; simpl.
  - apply (ordered_by_constant rank n). exact Hl.
  - simpl in Hpre. apply andb_true_iff in Hpre as [Hx Hrest].
    apply Forall_cons in Hle as [Hxn Hle].
    rewrite forallb_app, Hx, (IH Hrest Hle), andb_true_r. simpl.
    apply forallb_forall. intros y Hy. rewrite Forall_forall in Hl.
    rewrite (Hl y) by (apply list_elem_of_In; exact Hy).
    apply Nat.leb_le. exact Hxn.
Qed.

(** C1 (amended): the cleanup makes its calls in one order for every
    mounted component: the capture timer is cleared first, then the camera
    is released, then the inference session is closed, then the renderer is
    disposed, then the geometry and material of every mesh of the scene;
    when the release is rejected the trace ends after the release. No call
    of the sequence awaits or cancels an inference call in flight. *)
Theorem cleanup_order (m : Mounted) :
  fst (cleanup (Ok tt) m)
  = ([ClearInterval; InvokeReleaseCamera (deviceId m); HolisticClose; RendererDispose]
     ++ dispose_scene (scene m))%list
  /\ Forall (fun c => step_of c = DisposeGpu) (dispose_scene (scene m))
  /\ (forall release, ordered_by rank_snippet (fst (cleanup release m)) = true)
  /\ (forall release, SettleInference ∉ map step_of (fst (cleanup release m))).
Proof.
  pose proof (dispose_scene_gpu (scene m)) as Hgpu.
  split; [reflexivity|].
  split. { eapply Forall_impl; [exact Hgpu|]. intros c. apply rank4_is_gpu. }
  split.
  - intros [[]|e]; [|reflexivity].
    change (fst (cleanup (Ok tt) m))
      with ([ClearInterval; InvokeReleaseCamera (deviceId m); HolisticClose;
             RendererDispose] ++ dispose_scene (scene m))%list.
    apply (ordered_by_app_constant rank_snippet 4); [reflexivity| |exact Hgpu].
    repeat constructor.
  - intros release Hin. apply list_elem_of_fmap in Hin as (c & Hc & _).
    destruct c; discriminate.
Qed.

(** C1 (counterexample): unmounting while an inference call is pending.
    The session is closed before the renderer and the meshes are disposed,
    and the camera is released and the GPU resources disposed with no step
    that settles the pending call: the trace is not in the order of
    section 4.7. *)
Lemma cleanup_not_in_order_4_7 :
  inferencePending mounted_mid_capture = true
  /\ fst (cleanup (Ok tt) mounted_mid_capture)
     = [ClearInterval; InvokeReleaseCamera "0"; HolisticClose; RendererDispose;
        GeometryDispose 1; MaterialDispose 1; GeometryDispose 3; MaterialDispose 3]
  /\ ordered_by rank_4_7 (map step_of (fst (cleanup (Ok tt) mounted_mid_capture))) = false
  /\ (SettleInference ∉ map step_of (fst (cleanup (Ok tt) mounted_mid_capture)))
  /\ follows_4_7 (inferencePending mounted_mid_capture)
       (fst (cleanup (Ok tt) mounted_mid_capture)) = false.
Proof.
  repeat split; try reflexivity.
  apply (bool_decide_unpack _). vm_compute. exact I.
Qed.

End Cleanup.

(** ** The capture scheduler *)

Section Scheduler.
Import Gaze Pipeline.
Local Open Scope string_scope.
Local Open Scope Z_scope.

Lemma step_outstanding (cfg : Config) (s : Scheduler) (e : Event) :
  (outstanding s <= 1)%nat -> (outstanding (step cfg s e) <= 1)%nat.
Proof.
  intros Hle. destruct e as [camera|now r| |]; unfold_step.
  - destruct (decide (state (health s) = Stopped)); [exact Hle|].
    destruct (Nat.ltb_spec 0 (outstanding s)); [exact Hle|].
    destruct camera as [msg|f]; [simpl; lia|].
    destruct (convertFrame f); simpl; lia.
  - destruct (outstanding s) as [|k] eqn:Hk; [rewrite Hk; lia|].
    step_cases; simpl; lia.
  - exact Hle.
  - destruct (decide (state (health s) = Stopped)); exact Hle.
Qed.

Lemma run_snoc (cfg : Config) (es : list Event) (e : Event) (s : Scheduler) :
  run cfg (es ++ [e]) s = step cfg (run cfg es s) e.
Proof. unfold run. rewrite fold_left_app. reflexivity. Qed.

(** Reachable states, by the last event. *)
Lemma reachable_ind (cfg : Config) (P : Scheduler -> Prop) :
  P initial ->
  (forall s e, reachable cfg s -> P s -> P (step cfg s e)) ->
  forall s, reachable cfg s -> P s.
Proof.
  intros Hinit Hstep s [es ->].
  induction es as [|e es IH] using rev_ind; [exact Hinit|].
  rewrite run_snoc. apply Hstep; [exists es; reflexivity | exact IH].
Qed.

Lemma reachable_outstanding (cfg : Config) (s : Scheduler) :
  reachable cfg s -> (outstanding s <= 1)%nat.
Proof.
  apply (reachable_ind cfg (fun s => (outstanding s <= 1)%nat)).
  - simpl. lia.
  - intros s' e _. apply step_outstanding.
Qed.

(** C2: in every state the scheduler can reach, at most one
    capture-to-inference round trip is in flight; and a tick that fires
    while one is still outstanding starts no capture (the count of cycles
    started, the round trips in flight and the times the camera was asked
    at stay as they are), adds one to the skip counter, sets the timer for
    the next tick, and changes nothing else. A stopped scheduler has no
    ticks. *)
Theorem at_most_one_round_trip (cfg : Config) (s : Scheduler) :
  reachable cfg s ->
  (outstanding s <= 1)%nat
  /\ (forall camera,
        (0 < outstanding s)%nat -> state (health s) <> Stopped ->
        tick cfg camera s
        = mkScheduler (health s) (outstanding s) (cyclesStarted s)
            (S (skipCounter s)) (slot s) (neutralRef s)
            (nextTickAt s + captureRetryInterval cfg s) (attempts s))
  /\ (forall e, (outstanding (step cfg s e) <= 1)%nat).
Proof.
  intros Hreach. pose proof (reachable_outstanding cfg s Hreach) as Hle.
  split; [exact Hle|]. split.
  - intros camera Hout Hrun. unfold tick.
    destruct (decide (state (health s) = Stopped)); [contradiction|].
    destruct (Nat.ltb_spec 0 (outstanding s)); [reflexivity|lia].
  - intros e. apply step_outstanding. exact Hle.
Qed.

Lemma at_most_one_round_trip_witness :
  tick kiosk_config (Captured rgb_frame)
    (run kiosk_config [Tick (Captured rgb_frame)] initial)
  = mkScheduler (mkHealth 0 0 Running) 1 1 1 None None 100 [0].
Proof.
  assert (Hreach : reachable kiosk_config
                     (run kiosk_config [Tick (Captured rgb_frame)] initial))
    by (exists [Tick (Captured rgb_frame)]; reflexivity).
  destruct (at_most_one_round_trip kiosk_config _ Hreach) as (_ & Hskip & _).
  rewrite (Hskip (Captured rgb_frame)).
  - reflexivity.
  - vm_compute. lia.
  - vm_compute. discriminate.
Defined.

(** A camera that answers only after two further ticks: one capture is
    started, the two ticks are skipped. *)
Example slow_camera :
  let s := run kiosk_config
             [Tick (Captured rgb_frame); Tick (Captured rgb_frame);
              Tick (Captured rgb_frame)] initial in
  outstanding s = 1%nat /\ cyclesStarted s = 1%nat /\ skipCounter s = 2%nat.
Proof. vm_compute. repeat split; reflexivity. Qed.

(** *** Backoff *)











(** The camera fails fourteen times in a row: the times at which it is
    asked, in milliseconds, and the time of the tick after them. *)
Example backoff_attempt_times :
  let s := run kiosk_config (repeat (Tick (CaptureError "busy")) 14) initial in
  rev (attempts s)
  = [0; 50; 100; 150; 200; 250; 300; 350; 400; 450; 500; 600; 800; 1200]
  /\ nextTickAt s = 2000.
Proof. vm_compute. split; reflexivity. Qed.

(** The intervals after 8 to 17 consecutive failures, in milliseconds. *)
Example backoff_table :
  map (backoffInterval kiosk_config) (seq 8 10)
  = [50; 50; 50; 100; 200; 400; 800; 1600; 1600; 1600].
Proof. vm_compute. reflexivity. Qed.

(** *** The hold policy *)

Lemma lowConfidence_below (cfg : Config) (ls : LandmarkSet) :
  (eyeConfidence ls < confidenceThreshold cfg)%Q -> lowConfidence cfg ls = true.
Proof.
  intros Hlt. unfold lowConfidence.
  destruct (Qle_bool (confidenceThreshold cfg) (eyeConfidence ls)) eqn:Hle;
    [|reflexivity].
  apply Qle_bool_iff in Hle. exfalso. exact (Qlt_not_le _ _ Hlt Hle).
Qed.

Lemma lowConfidence_not_below (cfg : Config) (ls : LandmarkSet) :
  (confidenceThreshold cfg <= eyeConfidence ls)%Q -> lowConfidence cfg ls = false.
Proof.
  intros Hle. unfold lowConfidence.
  apply Qle_bool_iff in Hle. rewrite Hle. reflexivity.
Qed.

(** A result of low confidence leaves the slot as it is. *)
Lemma low_confidence_slot (cfg : Config) (s : Scheduler) (now : Z)
    (ls : LandmarkSet) :
  lowConfidence cfg ls = true ->
  slot (inferenceDone cfg now (Landmarks ls) s) = slot s.
Proof.
  intros Hlow. unfold inferenceDone.
  destruct (outstanding s); [reflexivity|].
  destruct (decide (state (health (landed s)) = Stopped)); [reflexivity|].
  rewrite Hlow, orb_true_r. reflexivity.
Qed.

(** An event that brings no new valid vector leaves the slot as it is: a
    tick, whatever the camera answers, a stop, a restart, and a result that
    is rejected. *)
Lemma step_holds_slot (cfg : Config) (s : Scheduler) (e : Event) :
  bringsNoVector cfg e = true -> slot (step cfg s e) = slot s.
Proof.
  intros Hno. destruct e as [camera|now r| |]; cbn [step].
  - unfold tick. destruct (decide (state (health s) = Stopped)); [reflexivity|].
    destruct (0 <? outstanding s)%nat; [reflexivity|].
    destruct camera as [msg|f]; [reflexivity|].
    destruct (convertFrame f); reflexivity.
  - unfold inferenceDone. destruct (outstanding s); [reflexivity|].
    destruct (decide (state (health (landed s)) = Stopped)); [reflexivity|].
    destruct r as [msg| |ls]; [reflexivity|reflexivity|].
    cbn [bringsNoVector rejected] in Hno. rewrite Hno. reflexivity.
  - reflexivity.
  - unfold start. destruct (decide (state (health s) = Stopped)); reflexivity.
Qed.

Lemma run_holds_slot (cfg : Config) (es : list Event) (s : Scheduler) :
  Forall (fun e => bringsNoVector cfg e = true) es -> slot (run cfg es s) = slot s.
Proof.
  revert s. induction es as [|e es IH]; intros s Hes; [reflexivity|].
  apply Forall_cons_1 in Hes as [He Hes].
  change (slot (run cfg es (step cfg s e)) = slot s).
  rewrite (IH _ Hes). apply step_holds_slot, He.
Qed.

(** C4: when the eye-region confidence of a landmark set is below the
    configured threshold, the cycle leaves the shared slot as it is, and so
    do all the events that follow as long as none of them is a valid and
    confident result: ticks, whatever the camera answers, stops and
    restarts, errors of the inference, no face, and further rejected sets.
    All that time a reader gets the last accepted vector as long as the
    hold-timeout has not elapsed since it was accepted, and the neutral
    gaze after that (and when no vector was ever accepted); a later result
    that is valid and confident replaces the slot. *)
Theorem low_confidence_holds (cfg : Config) (s : Scheduler) (now : Z)
    (ls : LandmarkSet) :
  (eyeConfidence ls < confidenceThreshold cfg)%Q ->
  let s' := inferenceDone cfg now (Landmarks ls) s in
  slot s' = slot s
  /\ (forall es, Forall (fun e => bringsNoVector cfg e = true) es ->
        slot (run cfg es s') = slot s
        /\ (forall h t, slot s = Some h -> t - acceptedAt h <= holdTimeout cfg ->
              currentGaze cfg t (slot (run cfg es s')) = vector h)
        /\ (forall h t, slot s = Some h -> holdTimeout cfg < t - acceptedAt h ->
              currentGaze cfg t (slot (run cfg es s')) = neutralGaze)
        /\ (forall t, slot s = None ->
              currentGaze cfg t (slot (run cfg es s')) = neutralGaze))
  /\ (forall s2 now2 ls2 g n,
        state (health s2) <> Stopped -> (0 < outstanding s2)%nat ->
        valid ls2 = true ->
        (confidenceThreshold cfg <= eyeConfidence ls2)%Q ->
        gazeCall (neutralRef s2) ls2 = (Some g, n) ->
        slot (inferenceDone cfg now2 (Landmarks ls2) s2) = Some (mkHeld g now2)).
Proof.
  intros Hlt s'.
  assert (Hslot : slot s' = slot s)
    by (apply low_confidence_slot, lowConfidence_below, Hlt).
  split; [exact Hslot|]. split.
  - intros es Hes.
    assert (Hheld : slot (run cfg es s') = slot s)
      by (rewrite (run_holds_slot cfg es s' Hes); exact Hslot).
    split; [exact Hheld|]. rewrite Hheld. unfold currentGaze.
    split; [|split].
    + intros h t -> Hage.
      destruct (Z.ltb_spec (holdTimeout cfg) (t - acceptedAt h)); [lia|reflexivity].
    + intros h t -> Hage.
      destruct (Z.ltb_spec (holdTimeout cfg) (t - acceptedAt h)); [reflexivity|lia].
    + intros t ->. reflexivity.
  - intros s2 now2 ls2 g n Hrun Hout Hvalid Hconf Hgaze. unfold inferenceDone.
    destruct (outstanding s2) as [|k] eqn:Hk; [lia|].
    destruct (decide (state (health (landed s2)) = Stopped)) as [Hstop|_];
      [contradiction|].
    rewrite Hvalid, (lowConfidence_not_below cfg ls2 Hconf). simpl negb. simpl orb.
    change (neutralRef (landed s2)) with (neutralRef s2). rewrite Hgaze.
    reflexivity.
Qed.

(** After the blurred face at 130 ms: a frame with no face in it, a camera
    that is busy, a stop and a restart, and an inference that fails. The
    vector accepted at 80 ms is still read at 1080 ms. *)
Lemma low_confidence_holds_witness :
  slot tracking <> None
  /\ Some (currentGaze kiosk_config 1080
             (slot (run kiosk_config
                      [Tick (Captured rgb_frame); InferenceDone 160 NoFaceDetected;
                       Tick (CaptureError "busy"); Stop; Start;
                       Tick (Captured rgb_frame);
                       InferenceDone 290 (InferenceError "timeout")]
                      (inferenceDone kiosk_config 130 (Landmarks face_blurred)
                         tracking))))
     = (vector <$> slot tracking).
Proof.
  assert (Hlt : (eyeConfidence face_blurred < confidenceThreshold kiosk_config)%Q)
    by (vm_compute; reflexivity).
  destruct (low_confidence_holds kiosk_config tracking 130 face_blurred Hlt)
    as (_ & Hhold & _).
  destruct (Hhold [Tick (Captured rgb_frame); InferenceDone 160 NoFaceDetected;
                   Tick (CaptureError "busy"); Stop; Start;
                   Tick (Captured rgb_frame);
                   InferenceDone 290 (InferenceError "timeout")])
    as (_ & Hread & _); [repeat constructor|].
  destruct (slot tracking) as [h|] eqn:Htracking; [|discriminate Htracking].
  split; [discriminate|].
  rewrite (Hread h 1080 eq_refl); [reflexivity|].
  vm_compute in Htracking. injection Htracking as <-. vm_compute. discriminate.
Defined.

(** The vector accepted at 80 ms is read at 1080 ms and no longer at
    1081 ms. *)
Example hold_then_neutral :
  let s := inferenceDone kiosk_config 130 (Landmarks face_blurred) tracking in
  (vector <$> slot s) = gazeFor tracking face_left
  /\ Some (currentGaze kiosk_config 1080 (slot s)) = gazeFor tracking face_left
  /\ currentGaze kiosk_config 1081 (slot s) = neutralGaze
  /\ consecutiveInferenceFailures (health s) = 1%nat.
Proof. vm_compute. repeat split; reflexivity. Qed.

(** *** Gaze computation *)

(** Calibration happens once: a neutral reference that is set stays. *)
Lemma calibrate_once (n : Neutral) (ls : LandmarkSet) :
  calibrate (Some n) ls = Some n.
Proof. reflexivity. Qed.

Lemma step_neutral (cfg : Config) (s : Scheduler) (e : Event) (n : Neutral) :
  neutralRef s = Some n -> neutralRef (step cfg s e) = Some n.
Proof.
  intros Hn. destruct e as [camera|now r| |]; unfold_step.
  - step_cases; simpl; exact Hn.
  - destruct (outstanding s); [exact Hn|]. simpl.
    destruct (decide (state (health s) = Stopped)); [exact Hn|].
    destruct r as [msg| |ls]; try exact Hn.
    destruct (negb (valid ls) || lowConfidence cfg ls); [exact Hn|].
    rewrite Hn. unfold gazeCall. rewrite calibrate_once.
    destruct (computeGaze n ls); reflexivity.
  - exact Hn.
  - step_cases; simpl; exact Hn.
Qed.

Lemma run_neutral (cfg : Config) (es : list Event) (s : Scheduler) (n : Neutral) :
  neutralRef s = Some n -> neutralRef (run cfg es s) = Some n.
Proof.
  revert s. induction es as [|e es IH]; intros s Hn; [exact Hn|].
  simpl. apply IH, step_neutral, Hn.
Qed.

(** C5: for a fixed landmark set, the output of Gaze Computation is the
    same in any two scheduler states that agree on the neutral reference,
    whatever else differs; the same when the call is repeated at once, also
    when the first call is the one that calibrates; and, once the reference
    is calibrated, the same after any sequence of events. *)
Theorem gaze_depends_on_landmarks_only (cfg : Config) (ls : LandmarkSet) :
  (forall s1 s2, neutralRef s1 = neutralRef s2 -> gazeFor s1 ls = gazeFor s2 ls)
  /\ (forall neutral,
        fst (gazeCall (snd (gazeCall neutral ls)) ls) = fst (gazeCall neutral ls))
  /\ (forall s es, neutralRef s <> None ->
        gazeFor (run cfg es s) ls = gazeFor s ls).
Proof.
  split; [|split].
  - intros s1 s2 Heq. unfold gazeFor. rewrite Heq. reflexivity.
  - intros [n|]; [reflexivity|]. unfold gazeCall, calibrate. simpl.
    destruct (valid ls); [|reflexivity].
    destruct (eyeCentres ls); reflexivity.
  - intros s es Hn. unfold gazeFor.
    destruct (neutralRef s) as [n|] eqn:Href; [|contradiction].
    rewrite (run_neutral cfg es s n Href). reflexivity.
Qed.

Lemma gaze_depends_on_landmarks_only_witness :
  gazeFor (run kiosk_config
             [InferenceDone 130 (Landmarks face_blurred); Stop; Start;
              Tick (CaptureError "busy")] tracking) face_left
  = gazeFor tracking face_left.
Proof.
  apply (proj2 (proj2 (gaze_depends_on_landmarks_only kiosk_config face_left))).
  vm_compute. discriminate.
Defined.

(** The first valid frame is the reference: its own offsets are zero, and
    a face that has moved by a tenth to the right is a tenth off. *)
Example gaze_of_face_left :
  match gazeFor tracking face_left with
  | Some g =>
      (offsetX (leftEye g) == 1 # 10)%Q /\ (offsetY (leftEye g) == 0)%Q
      /\ (offsetX (rightEye g) == 1 # 10)%Q
  | None => False
  end.
Proof. vm_compute. repeat split; reflexivity. Qed.

(** *** Frame conversion *)




End Scheduler.

(** ** Formatting *)

Section Formatting.
Import Format.
Local Open Scope string_scope.
Local Open Scope Z_scope.

Lemma all_digits_uint (d : Decimal.uint) :
  all_digits (NilEmpty.string_of_uint d) = true.
Proof. induction d; simpl; auto. Qed.

Lemma all_digits_decimal (n : N) : all_digits (decimal n) = true.
Proof.
  unfold decimal, NilZero.string_of_uint.
  destruct (N.to_uint n); try reflexivity; apply all_digits_uint.
Qed.

Lemma all_digits_pad2 (s : string) :
  all_digits s = true -> all_digits (padStart 2 "0" s) = true.
Proof.
  intros Hs. destruct s as [|a [|b rest]]; try reflexivity; exact Hs.
Qed.

Lemma toString_nonneg (n : Z) : 0 <= n -> toString n = decimal (Z.to_N n).
Proof.
  intros Hn. unfold toString. destruct (Z.ltb_spec n 0); [lia|reflexivity].
Qed.

(** A separator that is no digit is found right after a run of digits. *)
Lemma split_once_digits (c : ascii) (s rest : string) :
  is_digit c = false -> all_digits s = true ->
  split_once c (s ++ String c rest) = Some (s, rest).
Proof.
  intros Hc. induction s as [|a s IH]; simpl.
  - rewrite Ascii.eqb_refl. reflexivity.
  - intros Hs. apply andb_true_iff in Hs as [Ha Hs].
    destruct (Ascii.eqb_spec a c) as [->|_]; [congruence|].
    rewrite (IH Hs). reflexivity.
Qed.

Lemma parseDecimal_decimal (n : N) : parseDecimal (decimal n) = Some (Z.of_N n).
Proof.
  unfold parseDecimal, decimal.
  rewrite NilZero.usu.
  - simpl. rewrite DecimalN.Unsigned.of_to. reflexivity.
  - destruct n as [|p]; [discriminate|]. apply DecimalPos.Unsigned.to_uint_nonnil.
Qed.

Lemma parseDecimal_pad2 (n : N) :
  parseDecimal (padStart 2 "0" (decimal n)) = Some (Z.of_N n).
Proof.
  pose proof (parseDecimal_decimal n) as Hn.
  destruct (decimal n) as [|a [|b rest]]; [discriminate Hn| |exact Hn].
  unfold parseDecimal in *.
  change (padStart 2 "0" (String a "")) with (String "0" (String a "")).
  change (NilZero.uint_of_string (String "0" (String a "")))
    with (uint_of_char "0" (NilEmpty.uint_of_string (String a ""))).
  change (NilZero.uint_of_string (String a ""))
    with (NilEmpty.uint_of_string (String a "")) in Hn.
  destruct (NilEmpty.uint_of_string (String a "")) as [d|];
    [exact Hn | discriminate Hn].
Qed.

(** Two digits for a number below 100, by going through them. *)
Lemma pad2_length (n : Z) :
  0 <= n < 100 -> String.length (padStart 2 "0" (toString n)) = 2%nat.
Proof.
  intros Hn.
  assert (Hall : forallb
            (fun k => Nat.eqb (String.length (padStart 2 "0" (toString (Z.of_nat k)))) 2)
            (seq 0 100) = true) by (vm_compute; reflexivity).
  rewrite forallb_forall in Hall.
  specialize (Hall (Z.to_nat n)). rewrite Z2Nat.id in Hall by lia.
  apply Nat.eqb_eq, Hall, in_seq. lia.
Qed.

Lemma length_append (a b : string) :
  String.length (a ++ b) = (String.length a + String.length b)%nat.
Proof. induction a; simpl; auto. Qed.

Lemma formatDuration_parts (ms : Z) :
  0 <= ms ->
  formatDuration ms
  = padStart 2 "0" (decimal (Z.to_N (ms / 60000)))
    ++ String ":" (padStart 2 "0" (decimal (Z.to_N ((ms / 1000) mod 60)))
    ++ String "." (padStart 2 "0" (decimal (Z.to_N ((ms mod 1000) / 10))))).
Proof.
  intros Hms. unfold formatDuration.
  rewrite !Z.rem_mod_nonneg by (try apply Z.div_pos; lia).
  rewrite Z.div_div by lia. change (1000 * 60) with 60000.
  rewrite !toString_nonneg; [reflexivity| | |].
  - apply Z.div_pos; [apply Z.mod_pos_bound|]; lia.
  - apply Z.mod_pos_bound. lia.
  - apply Z.div_pos; lia.
Qed.

(** X1: for a duration of [ms] milliseconds, a non-negative integer,
    [formatDuration] shows minutes, seconds and hundredths, each padded to
    two digits: the seconds are below 60, the hundredths below 100, and
    together they are [ms] rounded down to the hundredth of a second. Below
    100 minutes the text is 8 characters long. *)
Theorem formatDuration_fields (ms : Z) :
  0 <= ms < 2 ^ 53 ->
  let m := ms / 60000 in
  let s := (ms / 1000) mod 60 in
  let c := (ms mod 1000) / 10 in
  formatDuration ms
  = padStart 2 "0" (toString m) ++ ":" ++ padStart 2 "0" (toString s)
    ++ "." ++ padStart 2 "0" (toString c)
  /\ 0 <= m /\ 0 <= s < 60 /\ 0 <= c < 100
  /\ 60000 * m + 1000 * s + 10 * c <= ms < 60000 * m + 1000 * s + 10 * c + 10
  /\ (ms < 6000000 -> String.length (formatDuration ms) = 8%nat).
Proof.
  intros [Hms _] m s c.
  assert (Hm : 0 <= m) by (apply Z.div_pos; lia).
  assert (Hs : 0 <= s < 60) by (apply Z.mod_pos_bound; lia).
  assert (Hc : 0 <= c < 100).
  { unfold c. pose proof (Z.mod_pos_bound ms 1000 ltac:(lia)).
    split; [apply Z.div_pos; lia | apply Z.div_lt_upper_bound; lia]. }
  assert (Heq : formatDuration ms
                = padStart 2 "0" (toString m) ++ ":" ++ padStart 2 "0" (toString s)
                  ++ "." ++ padStart 2 "0" (toString c)).
  { rewrite formatDuration_parts by exact Hms.
    rewrite !toString_nonneg by lia. reflexivity. }
  split; [exact Heq|]. split; [exact Hm|]. split; [exact Hs|]. split; [exact Hc|].
  split.
  - unfold m, s, c. Z.to_euclidean_division_equations. lia.
  - intros Hlt. rewrite Heq. rewrite !length_append.
    assert (Hm100 : m < 100) by (unfold m; apply Z.div_lt_upper_bound; lia).
    rewrite !pad2_length by lia. reflexivity.
Qed.

Lemma formatDuration_fields_witness :
  formatDuration 61234 = "01:01.23"
  /\ String.length (formatDuration 61234) = 8%nat.
Proof.
  assert (Hms : 0 <= 61234 < 2 ^ 53) by lia.
  destruct (formatDuration_fields 61234 Hms) as (Heq & _ & _ & _ & _ & Hlen).
  split; [exact Heq | apply Hlen; reflexivity].
Defined.

Lemma parseDuration_formatDuration (ms : Z) :
  0 <= ms -> parseDuration (formatDuration ms) = Some (ms / 10).
Proof.
  intros Hms. rewrite formatDuration_parts by exact Hms. unfold parseDuration.
  rewrite split_once_digits
    by (try apply all_digits_pad2, all_digits_decimal; reflexivity).
  simpl.
  rewrite split_once_digits
    by (try apply all_digits_pad2, all_digits_decimal; reflexivity).
  simpl. rewrite !parseDecimal_pad2. simpl. f_equal.
  pose proof (Z.mod_pos_bound ms 1000 ltac:(lia)).
  rewrite !Z2N.id.
  - Z.to_euclidean_division_equations. lia.
  - apply Z.div_pos; lia.
  - apply Z.mod_pos_bound. lia.
  - apply Z.div_pos; lia.
Qed.

(** X2: the text [formatDuration] gives can be read back: its three
    numbers give the duration in hundredths of a second. So two durations
    are shown alike only when they agree to the hundredth of a second. *)
Theorem formatDuration_round_trip (ms : Z) :
  0 <= ms < 2 ^ 53 ->
  parseDuration (formatDuration ms) = Some (ms / 10)
  /\ (forall ms', 0 <= ms' < 2 ^ 53 ->
        formatDuration ms = formatDuration ms' -> ms / 10 = ms' / 10).
Proof.
  intros [Hms _]. split; [apply parseDuration_formatDuration, Hms|].
  intros ms' [Hms' _] Heq.
  pose proof (parseDuration_formatDuration ms Hms) as H1.
  pose proof (parseDuration_formatDuration ms' Hms') as H2.
  rewrite Heq, H2 in H1. congruence.
Qed.

Lemma formatDuration_round_trip_witness :
  parseDuration (formatDuration 5999999) = Some 599999.
Proof.
  assert (Hms : 0 <= 5999999 < 2 ^ 53) by lia.
  exact (proj1 (formatDuration_round_trip 5999999 Hms)).
Defined.

(** From 100 minutes on the minutes take the digits they need. *)
Example formatDuration_100_minutes : formatDuration 6000000 = "100:00.00".
Proof. vm_compute. reflexivity. Qed.

(** X3: [formatTime] of the recorder shows a count of seconds as minutes
    and seconds, two digits each, the seconds below 60; the count can be
    read back from the text, and below 100 minutes the text is 5 characters
    long. *)
Theorem formatTime_round_trip (seconds : Z) :
  0 <= seconds < 2 ^ 53 ->
  formatTime seconds
  = padStart 2 "0" (toString (seconds / 60)) ++ ":"
    ++ padStart 2 "0" (toString (seconds mod 60))
  /\ parseTime (formatTime seconds) = Some seconds
  /\ (seconds < 6000 -> String.length (formatTime seconds) = 5%nat).
Proof.
  intros [Hs _].
  pose proof (Z.mod_pos_bound seconds 60 ltac:(lia)) as Hmod.
  assert (Hdiv : 0 <= seconds / 60) by (apply Z.div_pos; lia).
  assert (Heq : formatTime seconds
                = padStart 2 "0" (toString (seconds / 60)) ++ ":"
                  ++ padStart 2 "0" (toString (seconds mod 60))).
  { unfold formatTime. rewrite Z.rem_mod_nonneg by lia. reflexivity. }
  split; [exact Heq|]. split.
  - rewrite Heq, !toString_nonneg by lia. unfold parseTime.
    change (":" ++ ?x) with (String ":" x).
    rewrite split_once_digits
      by (try apply all_digits_pad2, all_digits_decimal; reflexivity).
    simpl. rewrite !parseDecimal_pad2. simpl. f_equal.
    rewrite !Z2N.id by lia. Z.to_euclidean_division_equations. lia.
  - intros Hlt.
    assert (Hm100 : seconds / 60 < 100) by (apply Z.div_lt_upper_bound; lia).
    rewrite Heq, !length_append, !pad2_length by lia. reflexivity.
Qed.

Lemma formatTime_round_trip_witness :
  formatTime 125 = "02:05" /\ parseTime (formatTime 125) = Some 125.
Proof.
  assert (Hs : 0 <= 125 < 2 ^ 53) by lia.
  destruct (formatTime_round_trip 125 Hs) as (Heq & Hparse & _).
  split; [exact Heq | exact Hparse].
Defined.

End Formatting.

Section FormatSize.
Import Format.
Local Open Scope string_scope.
Local Open Scope Z_scope.

(** [toFixed(1)] of an exact quotient: the tenths shown are within half a
    tenth of the quotient. *)
Lemma tenths_accuracy (num den : Z) :
  0 < den -> 0 <= num ->
  let n := (20 * num + den) / (2 * den) in
  0 <= n /\ - den <= 2 * (10 * num - den * n) < den.
Proof.
  intros Hden Hnum n. unfold n.
  pose proof (Z.div_mod (20 * num + den) (2 * den) ltac:(lia)) as Hdm.
  pose proof (Z.mod_pos_bound (20 * num + den) (2 * den) ltac:(lia)) as Hmod.
  split; [apply Z.div_pos; lia|]. lia.
Qed.

(** X4: [formatSize] shows a size below 1024 bytes as the count of bytes;
    from 1024 bytes up to 1024 * 1024 it shows kilobytes with one decimal,
    at least 1.0 and within 0.05 of the size, the largest sizes of that
    range (from 1048525 bytes on) as 1024.0 KB; from 1024 * 1024 bytes on it
    shows megabytes with one decimal, at least 1.0 and within 0.05 of the
    size. *)
Theorem formatSize_accuracy (bytes : Z) :
  0 <= bytes < 2 ^ 53 ->
  (bytes < 1024 -> formatSize bytes = toString bytes ++ " B")
  /\ (1024 <= bytes < 1048576 ->
      exists n,
        formatSize bytes = (toString (n / 10) ++ "." ++ toString (n mod 10)) ++ " KB"
        /\ 10 <= n <= 10240
        /\ - 512 <= 10 * bytes - 1024 * n < 512
        /\ (n = 10240 <-> 1048525 <= bytes))
  /\ (1048576 <= bytes ->
      exists n,
        formatSize bytes = (toString (n / 10) ++ "." ++ toString (n mod 10)) ++ " MB"
        /\ 10 <= n
        /\ - 524288 <= 10 * bytes - 1048576 * n < 524288).
Proof.
  intros [Hlo _]. unfold formatSize. split; [|split].
  - intros Hlt. destruct (Z.ltb_spec bytes 1024); [reflexivity|lia].
  - intros [Hge Hlt].
    destruct (Z.ltb_spec bytes 1024); [lia|].
    destruct (Z.ltb_spec bytes (1024 * 1024)); [|lia].
    exists ((20 * bytes + 1024) / (2 * 1024)). split; [reflexivity|].
    pose proof (tenths_accuracy bytes 1024 ltac:(lia) Hlo) as [Hn Hacc].
    cbv zeta in Hacc. lia.
  - intros Hge.
    destruct (Z.ltb_spec bytes 1024); [lia|].
    destruct (Z.ltb_spec bytes (1024 * 1024)); [lia|].
    exists ((20 * bytes + 1024 * 1024) / (2 * (1024 * 1024))). split; [reflexivity|].
    pose proof (tenths_accuracy bytes (1024 * 1024) ltac:(lia) Hlo) as [Hn Hacc].
    cbv zeta in Hacc. lia.
Qed.

Lemma formatSize_accuracy_witness :
  formatSize 1000 = "1000 B"
  /\ (exists n,
        formatSize 1280 = (toString (n / 10) ++ "." ++ toString (n mod 10)) ++ " KB"
        /\ 10 <= n <= 10240
        /\ - 512 <= 10 * 1280 - 1024 * n < 512
        /\ (n = 10240 <-> 1048525 <= 1280)).
Proof.
  split.
  - apply (proj1 (formatSize_accuracy 1000 ltac:(lia))). lia.
  - apply (proj1 (proj2 (formatSize_accuracy 1280 ltac:(lia)))). lia.
Defined.

(** A tie goes up: 1280 bytes are 1.25 KB and show as 1.3 KB. The last
    bytes before a megabyte show as 1024.0 KB. *)
Example formatSize_samples :
  map formatSize [0; 1023; 1024; 1280; 1536; 1048524; 1048525; 1048575; 1048576; 1572864]
  = ["0 B"; "1023 B"; "1.0 KB"; "1.3 KB"; "1.5 KB"; "1023.9 KB"; "1024.0 KB";
     "1024.0 KB"; "1.0 MB"; "1.5 MB"].
Proof. vm_compute. reflexivity. Qed.

End FormatSize.

(** ** The volume commands *)

Section VolumeCommands.
Import SystemCmd Volume.
Local Open Scope string_scope.
Local Open Scope Z_scope.

(** X5: [detect_audio_backend] prefers PipeWire to PulseAudio to ALSA: it
    answers PipeWire exactly when [wpctl --version] runs and exits with 0,
    and then tries nothing else; PulseAudio exactly when that fails and
    [pactl --version] runs and exits with 0; ALSA exactly when both fail,
    without trying [amixer]. *)
Theorem detect_audio_backend_priority (os : Spawner) :
  let ok p :=
    match os (mkCommand p ["--version"]) with
    | Ok o => status o =? 0
    | Err _ => false
    end in
  (snd (detect_audio_backend os) = PipeWire <-> ok "wpctl" = true)
  /\ (snd (detect_audio_backend os) = PulseAudio
      <-> ok "wpctl" = false /\ ok "pactl" = true)
  /\ (snd (detect_audio_backend os) = Alsa
      <-> ok "wpctl" = false /\ ok "pactl" = false)
  /\ fst (detect_audio_backend os)
     = (if ok "wpctl" then [mkCommand "wpctl" ["--version"]]
        else [mkCommand "wpctl" ["--version"]; mkCommand "pactl" ["--version"]]).
Proof.
  intros ok. unfold detect_audio_backend, probe, success. fold (ok "wpctl").
  fold (ok "pactl"). cbn [fst snd].
  destruct (ok "wpctl"), (ok "pactl"); cbn [fst snd];
    repeat split; try discriminate; try reflexivity;
    try (intros [? ?]; discriminate).
Qed.

Lemma clamp_0_100 (level : Z) : is_u8 level -> clamp level 0 100 = Z.min level 100.
Proof.
  intros [Hlo _]. unfold clamp.
  destruct (Z.ltb_spec level 0); [lia|].
  destruct (Z.ltb_spec 100 level); lia.
Qed.

(** X6: for every level of a [u8], [set_volume] hands the operating system
    the probes of the detection and then exactly one command, the one that
    sets the default sink (PipeWire, PulseAudio) or the Master control
    (ALSA) of the detected backend to [min(level, 100)] percent; it returns
    [Ok(())] exactly when that command could be spawned. *)
Theorem set_volume_one_command (os : Spawner) (level : Z) :
  is_u8 level ->
  let percent := display_u8 (Z.min level 100) ++ "%" in
  let cmd :=
    match snd (detect_audio_backend os) with
    | PipeWire => mkCommand "wpctl" ["set-volume"; "@DEFAULT_AUDIO_SINK@"; percent]
    | PulseAudio => mkCommand "pactl" ["set-sink-volume"; "@DEFAULT_SINK@"; percent]
    | Alsa => mkCommand "amixer" ["set"; "Master"; percent]
    end in
  0 <= Z.min level 100 <= 100
  /\ fst (set_volume os level) = (fst (detect_audio_backend os) ++ [cmd])%list
  /\ (snd (set_volume os level) = Ok tt <-> is_ok (os cmd) = true).
Proof.
  intros Hu8 percent cmd. split; [destruct Hu8; lia|].
  unfold set_volume. rewrite (clamp_0_100 level Hu8). unfold cmd, percent.
  destruct (snd (detect_audio_backend os));
    unfold set_volume_pipewire, set_volume_pulseaudio, set_volume_alsa, run_quietly;
    cbn [fst snd]; (split; [reflexivity|]);
    match goal with |- context [os ?c] => destruct (os c) end;
    simpl; split; congruence.
Qed.

Lemma set_volume_one_command_witness :
  fst (set_volume os_pulse 250)
  = [mkCommand "wpctl" ["--version"]; mkCommand "pactl" ["--version"];
     mkCommand "pactl" ["set-sink-volume"; "@DEFAULT_SINK@"; "100%"]].
Proof.
  assert (Hu8 : is_u8 250) by (unfold is_u8; lia).
  exact (proj1 (proj2 (set_volume_one_command os_pulse 250 Hu8))).
Defined.

(** What [parse::<u8>] accepts is a [u8]. *)
Lemma parse_u8_digits_range (s : string) (acc v : Z) :
  0 <= acc <= 255 -> parse_u8_digits acc s = Some v -> 0 <= v <= 255.
Proof.
  revert acc. induction s as [|a s IH]; simpl; intros acc Hacc.
  - intros [= <-]. exact Hacc.
  - destruct (digit_value a) as [d|] eqn:Hd; simpl; [|discriminate].
    destruct (Z.ltb_spec 255 (acc * 10 + d)); [discriminate|].
    apply IH. split; [|lia].
    assert (0 <= d).
    { unfold digit_value in Hd.
      destruct (Z.leb_spec 48 (Z.of_N (N_of_ascii a))); [|discriminate].
      destruct (Z.of_N (N_of_ascii a) <=? 57); [|discriminate].
      injection Hd as <-. lia. }
    lia.
Qed.

Lemma parse_u8_range (s : string) (v : Z) : parse_u8 s = Some v -> 0 <= v <= 255.
Proof.
  unfold parse_u8. intros H.
  assert (Hgen : forall t, parse_u8_digits 0 t = Some v -> 0 <= v <= 255)
    by (intros t; apply parse_u8_digits_range; lia).
  destruct s as [|a [|b rest]]; [discriminate| |].
  - destruct (Ascii.eqb_spec a "+") as [->|]; [discriminate|].
    destruct (Ascii.eqb_spec a "-") as [->|]; [discriminate|].
    apply (Hgen (String a "")).
    destruct a as [[] [] [] [] [] [] [] []]; try exact H; congruence.
  - destruct (Ascii.eqb_spec a "+") as [->|]; [exact (Hgen _ H)|].
    apply (Hgen (String a (String b rest))).
    destruct a as [[] [] [] [] [] [] [] []]; try exact H; congruence.
Qed.

(** The percentage the setters write is the one the readers accept, for
    every [u8], by going through them. *)
Lemma pulse_word_volume_display (n : Z) :
  is_u8 n -> pulse_word_volume (display_u8 n ++ "%") = Some n.
Proof.
  intros [Hlo Hhi].
  assert (Hall : forallb
            (fun k => match pulse_word_volume (display_u8 (Z.of_nat k) ++ "%") with
                      | Some v => v =? Z.of_nat k
                      | None => false
                      end)
            (seq 0 256) = true) by (vm_compute; reflexivity).
  rewrite forallb_forall in Hall.
  specialize (Hall (Z.to_nat n)). rewrite Z2Nat.id in Hall by lia.
  match type of Hall with _ -> match ?x with _ => _ end = _ => destruct x as [v|] end.
  - f_equal. apply Z.eqb_eq, Hall, in_seq. lia.
  - discriminate Hall. apply in_seq. lia.
Qed.

Lemma parse_u8_display (n : Z) : is_u8 n -> parse_u8 (display_u8 n) = Some n.
Proof.
  intros [Hlo Hhi].
  assert (Hall : forallb
            (fun k => match parse_u8 (display_u8 (Z.of_nat k)) with
                      | Some v => v =? Z.of_nat k
                      | None => false
                      end)
            (seq 0 256) = true) by (vm_compute; reflexivity).
  rewrite forallb_forall in Hall.
  specialize (Hall (Z.to_nat n)). rewrite Z2Nat.id in Hall by lia.
  match type of Hall with _ -> match ?x with _ => _ end = _ => destruct x as [v|] end.
  - f_equal. apply Z.eqb_eq, Hall, in_seq. lia.
  - discriminate Hall. apply in_seq. lia.
Qed.

Lemma first_some_skip {A B} (f : A -> option B) (pre post : list A) (x : A) :
  Forall (fun a => f a = None) pre ->
  first_some f (pre ++ x :: post) = first_some f (x :: post).
Proof.
  induction 1 as [|a pre Ha _ IH]; simpl; [reflexivity|].
  rewrite Ha. exact IH.
Qed.

Lemma first_some_none {A B} (f : A -> option B) (l : list A) :
  Forall (fun a => f a = None) l -> first_some f l = None.
Proof. induction 1 as [|a l Ha _ IH]; simpl; [reflexivity|]. rewrite Ha. exact IH. Qed.

Lemma first_some_in {A B} (f : A -> option B) (l : list A) (y : B) :
  first_some f l = Some y -> exists x, In x l /\ f x = Some y.
Proof.
  induction l as [|a l IH]; simpl; [discriminate|].
  destruct (f a) as [b|] eqn:Ha.
  - intros [= <-]. exists a. auto.
  - intros H. destruct (IH H) as (x & Hx & Hfx). exists x. auto.
Qed.

(** X7: once [pactl] could be spawned, [get_volume_pulseaudio] never
    fails, and its answer is a [u8]: it is the number of the first word of
    the output that ends in a percent sign and parses, so a percentage the
    setter wrote (for any [u8], also above 100) is read back as it is, and
    it is 50 when the output has no such word. *)
Theorem get_volume_pulseaudio_reads_back (os : Spawner) (output : Output) :
  os (mkCommand "pactl" ["get-sink-volume"; "@DEFAULT_SINK@"]) = Ok output ->
  (exists vol, snd (get_volume_pulseaudio os) = Ok vol /\ 0 <= vol <= 255)
  /\ (forall before n after,
        is_u8 n ->
        split_whitespace (stdout output) = (before ++ (display_u8 n ++ "%")%string :: after)%list ->
        Forall (fun w => pulse_word_volume w = None) before ->
        snd (get_volume_pulseaudio os) = Ok n)
  /\ (Forall (fun w => pulse_word_volume w = None) (split_whitespace (stdout output)) ->
      snd (get_volume_pulseaudio os) = Ok 50).
Proof.
  intros Hos. unfold get_volume_pulseaudio. cbn [snd]. rewrite Hos. cbn [map_err].
  split; [|split].
  - destruct (first_some pulse_word_volume (split_whitespace (stdout output)))
      as [vol|] eqn:Hfirst.
    + exists vol. split; [reflexivity|].
      apply first_some_in in Hfirst as (w & _ & Hw).
      unfold pulse_word_volume in Hw. destruct (ends_with w "%"); [|discriminate].
      exact (parse_u8_range _ _ Hw).
    + exists 50. split; [reflexivity|lia].
  - intros before n after Hn Hwords Hbefore.
    rewrite Hwords, (first_some_skip _ _ _ _ Hbefore). simpl.
    rewrite (pulse_word_volume_display n Hn). reflexivity.
  - intros Hnone. rewrite (first_some_none _ _ Hnone). reflexivity.
Qed.

Lemma get_volume_pulseaudio_reads_back_witness :
  snd (get_volume_pulseaudio os_pulse) = Ok 65
  /\ snd (get_volume_pulseaudio os_pulse_nbsp) = Ok 65.
Proof.
  split.
  - destruct (get_volume_pulseaudio_reads_back os_pulse _ eq_refl) as (_ & Hread & _).
    apply (Hread ["Volume:"; "front-left:"; "42598"; "/"] 65
             ["/"; "-11.23"; "dB,"; "front-right:"; "42598"; "/"; "65%"; "/";
              "-11.23"; "dB"; "balance"; "0.00"]).
    + unfold is_u8. lia.
    + vm_compute. reflexivity.
    + repeat constructor.
  - destruct (get_volume_pulseaudio_reads_back os_pulse_nbsp _ eq_refl)
      as (_ & Hread & _).
    apply (Hread ["Volume:"] 65 ["/"]).
    + unfold is_u8. lia.
    + vm_compute. reflexivity.
    + repeat constructor.
Defined.

(** A volume above 255% is no [u8]: the word is passed over, and with no
    other percentage in the output the answer is 50. *)
Example get_volume_pulseaudio_overflow :
  snd (get_volume_pulseaudio
         (fun _ => Ok {| status := 0; stdout := "Volume: mono: 196608 / 300% / 28.63 dB";
                         stderr := "" |}))
  = Ok 50.
Proof. vm_compute. reflexivity. Qed.

(** Words are split at every white space character of Unicode, not only
    at those of ASCII. *)
Example get_volume_pulseaudio_no_break_space :
  split_whitespace
    ("Volume:" ++ String "194" (String "160" "65%")
     ++ String "226" (String "128" (String "175" "/")))
  = ["Volume:"; "65%"; "/"]
  /\ snd (get_volume_pulseaudio os_pulse_nbsp) = Ok 65.
Proof. vm_compute. split; reflexivity. Qed.

Lemma split_once_absent (c : ascii) (a rest : string) :
  Format.split_once c a = None ->
  Format.split_once c (a ++ String c rest) = Some (a, rest).
Proof.
  induction a as [|x a IH]; simpl.
  - intros _. rewrite Ascii.eqb_refl. reflexivity.
  - destruct (Ascii.eqb x c); [discriminate|].
    destruct (Format.split_once c a) as [[b1 b2]|]; [discriminate|].
    intros _. rewrite (IH eq_refl). reflexivity.
Qed.

Lemma display_u8_digits (n : Z) : Format.all_digits (display_u8 n) = true.
Proof.
  unfold display_u8, NilZero.string_of_uint.
  destruct (N.to_uint (Z.to_N n)); try reflexivity;
    induction u; simpl; auto.
Qed.

Lemma alsa_line_volume_display (a b : string) (n : Z) :
  is_u8 n -> Format.split_once "[" a = None ->
  alsa_line_volume (a ++ "[" ++ display_u8 n ++ "%" ++ b) = Some n.
Proof.
  intros Hn Ha. unfold alsa_line_volume.
  change ("[" ++ ?x) with (String "[" x).
  rewrite (split_once_absent "[" a _ Ha). simpl.
  change ("%" ++ b) with (String "%" b).
  assert (Hsplit : Format.split_once "%" (display_u8 n ++ String "%" b)
                   = Some (display_u8 n, b)).
  { clear Hn Ha. pose proof (display_u8_digits n) as Hd.
    induction (display_u8 n) as [|x s IH]; simpl.
    - reflexivity.
    - simpl in Hd. apply andb_true_iff in Hd as [Hx Hs].
      destruct (Ascii.eqb_spec x "%") as [->|_]; [discriminate|].
      rewrite (IH Hs). reflexivity. }
  rewrite Hsplit. simpl. apply parse_u8_display, Hn.
Qed.

(** X8: once [amixer] could be spawned, [get_volume_alsa] never fails, and
    its answer is a [u8]: it is the number between the first ["["] of a
    line and the next ["%"], for the first line where that text parses, so
    a line that reports [[N%]] after text without ["["] is read as N, and it
    is 50 when no line has such a number. *)
Theorem get_volume_alsa_reads_back (os : Spawner) (output : Output) :
  os (mkCommand "amixer" ["get"; "Master"]) = Ok output ->
  (exists vol, snd (get_volume_alsa os) = Ok vol /\ 0 <= vol <= 255)
  /\ (forall before a n b after,
        is_u8 n ->
        lines (stdout output)
        = (before ++ (a ++ "[" ++ display_u8 n ++ "%" ++ b)%string :: after)%list ->
        Forall (fun l => alsa_line_volume l = None) before ->
        Format.split_once "[" a = None ->
        snd (get_volume_alsa os) = Ok n)
  /\ (Forall (fun l => alsa_line_volume l = None) (lines (stdout output)) ->
      snd (get_volume_alsa os) = Ok 50).
Proof.
  intros Hos. unfold get_volume_alsa. cbn [snd]. rewrite Hos. cbn [map_err].
  split; [|split].
  - destruct (first_some alsa_line_volume (lines (stdout output)))
      as [vol|] eqn:Hfirst.
    + exists vol. split; [reflexivity|].
      apply first_some_in in Hfirst as (l & _ & Hl).
      unfold alsa_line_volume in Hl.
      destruct (Format.split_once "[" l) as [[x from]|]; [|discriminate].
      simpl in Hl.
      destruct (Format.split_once "%" from) as [[between y]|]; [|discriminate].
      exact (parse_u8_range _ _ Hl).
    + exists 50. split; [reflexivity|lia].
  - intros before a n b after Hn Hlines Hbefore Ha.
    rewrite Hlines, (first_some_skip _ _ _ _ Hbefore). simpl.
    rewrite (alsa_line_volume_display a b n Hn Ha). reflexivity.
  - intros Hnone. rewrite (first_some_none _ _ Hnone). reflexivity.
Qed.

Lemma get_volume_alsa_reads_back_witness :
  snd (get_volume_alsa os_alsa) = Ok 40.
Proof.
  destruct (get_volume_alsa_reads_back os_alsa _ eq_refl) as (_ & Hread & _).
  apply (Hread ["Simple mixer control 'Master',0"; "  Limits: Playback 0 - 65536"]
           "  Front Left: Playback 26214 " 40 "] [on]"
           ["  Front Right: Playback 26214 [40%] [on]"]).
  - unfold is_u8. lia.
  - vm_compute. reflexivity.
  - repeat constructor.
  - reflexivity.
Defined.

(** Only the first ["["] of a line counts. *)
Example alsa_line_volume_first_bracket :
  alsa_line_volume "  Mono: Playback [on] [50%]" = None
  /\ alsa_line_volume "  Mono: Playback 32 [50%] [on]" = Some 50.
Proof. vm_compute. split; reflexivity. Qed.

End VolumeCommands.

(** ** Listing and naming media files *)

Section StableSort.
Import MediaStore.
Local Open Scope Z_scope.

Lemma insert_by_Permutation {A} (cmp : A -> A -> comparison) (x : A) (l : list A) :
  insert_by cmp x l ≡ₚ x :: l.
Proof.
  induction l as [|y l IH]; simpl; [reflexivity|].
  destruct (cmp x y); try reflexivity.
  rewrite IH. apply Permutation_swap.
Qed.

Lemma sort_by_Permutation {A} (cmp : A -> A -> comparison) (l : list A) :
  sort_by cmp l ≡ₚ l.
Proof.
  induction l as [|x l IH]; simpl; [reflexivity|].
  rewrite insert_by_Permutation, IH. reflexivity.
Qed.

Lemma insert_newest_first_sorted (x : MediaFile) (l : list MediaFile) :
  StronglySorted (fun a b => timestamp b <= timestamp a) l ->
  StronglySorted (fun a b => timestamp b <= timestamp a) (insert_by newest_first x l).
Proof.
  induction 1 as [|y l Hsorted IH Hy]; simpl.
  - repeat constructor.
  - unfold newest_first at 1.
    destruct (Z.compare_spec (timestamp y) (timestamp x)) as [Heq|Hlt|Hgt].
    + constructor; [constructor; assumption|].
      constructor; [lia|]. eapply Forall_impl; [exact Hy|]. simpl. intros; lia.
    + constructor; [constructor; assumption|].
      constructor; [lia|]. eapply Forall_impl; [exact Hy|]. simpl. intros; lia.
    + constructor; [exact IH|].
      rewrite insert_by_Permutation. constructor; [lia|exact Hy].
Qed.

Lemma sort_newest_first_sorted (l : list MediaFile) :
  StronglySorted (fun a b => timestamp b <= timestamp a) (sort_by newest_first l).
Proof.
  induction l as [|x l IH]; simpl; [constructor|].
  apply insert_newest_first_sorted, IH.
Qed.

(** Files of one timestamp keep the order they had. *)
Lemma insert_newest_first_stable (t : Z) (x : MediaFile) (l : list MediaFile) :
  filter (fun f => timestamp f = t) (insert_by newest_first x l)
  = filter (fun f => timestamp f = t) (x :: l).
Proof.
  induction l as [|y l IH]; simpl; [reflexivity|].
  unfold newest_first at 1.
  destruct (Z.compare_spec (timestamp y) (timestamp x)) as [Heq|Hlt|Hgt];
    try reflexivity.
  rewrite (filter_cons _ y), IH, !filter_cons.
  destruct (decide (timestamp y = t)), (decide (timestamp x = t));
    try reflexivity; lia.
Qed.

Lemma sort_newest_first_stable (t : Z) (l : list MediaFile) :
  filter (fun f => timestamp f = t) (sort_by newest_first l)
  = filter (fun f => timestamp f = t) l.
Proof.
  induction l as [|x l IH]; simpl; [reflexivity|].
  rewrite insert_newest_first_stable, !filter_cons, IH. reflexivity.
Qed.

End StableSort.

Section Listings.
Import Media MediaStore.
Local Open Scope string_scope.
Local Open Scope Z_scope.
Context {FS : Type} `{Storage FS}.

Lemma list_media_returned (allowed : list string) (subdir : string) (fs : FS)
    (files : list MediaFile) :
  snd (list_media allowed subdir fs) = Returned (Ok files) ->
  exists dir pushed,
    snd (get_media_dir fs subdir) = Ok dir
    /\ pushed_files allowed (fst (get_media_dir fs subdir)) dir = Returned pushed
    /\ files = sort_by newest_first pushed.
Proof.
  unfold list_media.
  destruct (get_media_dir fs subdir) as [fs' [dir|e]]; cbn [fst snd].
  - destruct (pushed_files allowed fs' dir) as [pushed|m] eqn:Hpushed;
      [|discriminate].
    intros [= <-]. exists dir, pushed. repeat split; try reflexivity.
    exact Hpushed.
  - discriminate.
Qed.

(** X9: the files [list_photos] and [list_audio] return are the files the
    loop over the directory pushed, put in the order of their timestamps,
    newest first; files of one timestamp stay in the order of the
    directory. *)
Theorem listings_newest_first (fs : FS) :
  let sorted (listing : FS * Outcome (Result (list MediaFile) string))
             (allowed : list string) (subdir : string) :=
    forall files,
      snd listing = Returned (Ok files) ->
      exists dir pushed,
        snd (get_media_dir fs subdir) = Ok dir
        /\ pushed_files allowed (fst (get_media_dir fs subdir)) dir = Returned pushed
        /\ files ≡ₚ pushed
        /\ StronglySorted (fun a b => timestamp b <= timestamp a) files
        /\ (forall t, filter (fun f => timestamp f = t) files
                      = filter (fun f => timestamp f = t) pushed) in
  sorted (list_photos fs) ["jpg"; "jpeg"; "png"] "photos"
  /\ sorted (list_audio fs) ["webm"; "ogg"; "wav"] "audio".
Proof.
  assert (Hgen : forall allowed subdir files,
            snd (list_media allowed subdir fs) = Returned (Ok files) ->
            exists dir pushed,
              snd (get_media_dir fs subdir) = Ok dir
              /\ pushed_files allowed (fst (get_media_dir fs subdir)) dir = Returned pushed
              /\ files ≡ₚ pushed
              /\ StronglySorted (fun a b => timestamp b <= timestamp a) files
              /\ (forall t, filter (fun f => timestamp f = t) files
                            = filter (fun f => timestamp f = t) pushed)).
  { intros allowed subdir files Hret.
    destruct (list_media_returned _ _ _ _ Hret) as (dir & pushed & Hdir & Hpushed & ->).
    exists dir, pushed. split; [exact Hdir|]. split; [exact Hpushed|].
    split; [apply sort_by_Permutation|].
    split; [apply sort_newest_first_sorted|].
    intros t. apply sort_newest_first_stable. }
  split; intros files; apply Hgen.
Qed.

(** What the loop pushes for the entries of a directory, when nothing
    panics. *)
Lemma list_entries_spec (allowed : list string) (fs : FS) (dir : Path)
    (entries : list (Result string string)) (pushed : list MediaFile) :
  list_entries allowed fs dir entries = Returned pushed ->
  forall f,
    In f pushed <->
    exists entry_name md,
      In (Ok entry_name) entries
      /\ has_extension allowed (join dir [Normal entry_name]) = true
      /\ metadata fs (join dir [Normal entry_name]) = Ok md
      /\ f = mkMediaFile (to_string_lossy (join dir [Normal entry_name])) entry_name
               (match modified md with Some t => as_i64 t | None => 0 end)
               (len md) None.
Proof.
  revert pushed.
  induction entries as [|[entry_name|e] entries IH];
    cbn [list_entries In]; intros pushed.
  - intros [= <-] f. split; [intros []|intros (? & ? & [] & _)].
  - destruct (list_entry allowed fs dir entry_name) as [first|m] eqn:Hfirst;
      [|discriminate].
    destruct (list_entries allowed fs dir entries) as [rest|m]; [|discriminate].
    intros [= <-] f. specialize (IH rest eq_refl f).
    unfold list_entry in Hfirst.
    destruct (has_extension allowed (join dir [Normal entry_name])) eqn:Hext.
    + destruct (metadata fs (join dir [Normal entry_name])) as [md|err] eqn:Hmd.
      * assert (Hpush : first = Some (mkMediaFile
                  (to_string_lossy (join dir [Normal entry_name])) entry_name
                  (match modified md with Some t => as_i64 t | None => 0 end)
                  (len md) None)).
        { destruct (modified md) as [t|]; [|congruence].
          destruct (t <? 0); [discriminate|congruence]. }
        subst first. cbn [In]. rewrite IH. split.
        -- intros [<-|(n & md' & Hin & Hrest)].
           ++ exists entry_name, md. auto.
           ++ exists n, md'. auto.
        -- intros (n & md' & [[= <-]|Hin] & Hn & Hmd' & ->).
           ++ left. rewrite Hmd in Hmd'. injection Hmd' as <-. reflexivity.
           ++ right. exists n, md'. auto.
      * injection Hfirst as <-. rewrite IH. split.
        -- intros (n & md' & Hin & Hrest). exists n, md'. auto.
        -- intros (n & md' & [[= <-]|Hin] & Hn & Hmd' & ->); [congruence|].
           exists n, md'. auto.
    + injection Hfirst as <-. rewrite IH. split.
      * intros (n & md' & Hin & Hrest). exists n, md'. auto.
      * intros (n & md' & [[= <-]|Hin] & Hn & Hmd' & ->); [congruence|].
        exists n, md'. auto.
  - intros Hrest f. rewrite (IH pushed Hrest f). split.
    + intros (n & md & Hin & Hrest'). exists n, md. auto.
    + intros (n & md & [[=]|Hin] & Hrest'). exists n, md. auto.
Qed.

(** X10: when [list_photos] returns, it lists a file for exactly the
    entries of the photos directory that could be read, whose name has the
    extension [jpg], [jpeg] or [png] (in these letters, after the last dot,
    and not as the whole of a hidden name) and whose metadata could be
    read: with the path of the entry, its name, its size, its modification
    time in seconds (0 when unavailable) and no duration. A directory that
    cannot be read is listed as empty, not as an error. *)
Theorem list_photos_lists (fs : FS) (dir : Path) :
  snd (get_media_dir fs "photos") = Ok dir ->
  let fs' := fst (get_media_dir fs "photos") in
  (forall entries files,
     read_dir fs' dir = Ok entries ->
     snd (list_photos fs) = Returned (Ok files) ->
     forall f,
       In f files <->
       exists entry_name md,
         In (Ok entry_name) entries
         /\ has_extension ["jpg"; "jpeg"; "png"] (join dir [Normal entry_name]) = true
         /\ metadata fs' (join dir [Normal entry_name]) = Ok md
         /\ f = mkMediaFile (to_string_lossy (join dir [Normal entry_name])) entry_name
                  (match modified md with Some t => as_i64 t | None => 0 end)
                  (len md) None)
  /\ (is_err (read_dir fs' dir) = true -> snd (list_photos fs) = Returned (Ok [])).
Proof.
  intros Hdir fs'. split.
  - intros entries files Hread Hret f.
    destruct (list_media_returned _ _ _ _ Hret) as (dir' & pushed & Hdir' & Hpushed & ->).
    change PHOTOS_DIR with "photos" in *. rewrite Hdir in Hdir'.
    injection Hdir' as <-. fold fs' in Hpushed.
    unfold pushed_files in Hpushed. rewrite Hread in Hpushed.
    rewrite <- (list_entries_spec _ _ _ _ _ Hpushed f).
    rewrite <- !list_elem_of_In. rewrite (sort_by_Permutation newest_first pushed).
    reflexivity.
  - intros Herr. unfold list_photos, list_media. change PHOTOS_DIR with "photos".
    destruct (get_media_dir fs "photos") as [fs0 r] eqn:Hget. simpl in *.
    subst r fs'. unfold pushed_files.
    destruct (read_dir fs0 dir); [discriminate|reflexivity].
Qed.

End Listings.

Section ListingsOnShelf.
Import Media MediaStore.
Local Open Scope string_scope.
Local Open Scope Z_scope.

Lemma listings_newest_first_witness :
  exists dir pushed,
    snd (get_media_dir kiosk_shelf "photos") = Ok dir
    /\ pushed_files ["jpg"; "jpeg"; "png"] (fst (get_media_dir kiosk_shelf "photos")) dir
       = Returned pushed
    /\ map name pushed
       = ["photo_20240101_120000.jpg"; "photo_20240301_080000.jpg"; "scan.png"; "old.jpeg"].
Proof.
  destruct (snd (list_photos kiosk_shelf)) as [[files|e]|m] eqn:Hret;
    [|discriminate Hret|discriminate Hret].
  destruct (proj1 (listings_newest_first kiosk_shelf) files Hret)
    as (dir & pushed & Hdir & Hpushed & _).
  exists dir, pushed. split; [exact Hdir|]. split; [exact Hpushed|].
  vm_compute in Hdir. injection Hdir as <-.
  vm_compute in Hpushed. injection Hpushed as <-. reflexivity.
Defined.

Lemma list_photos_lists_witness :
  match snd (list_photos kiosk_shelf) with
  | Returned (Ok files) =>
      In (mkMediaFile "/home/bee/.config/honeybee/media/photos/scan.png" "scan.png"
            1704110400 512 None) files
  | _ => False
  end.
Proof.
  destruct (snd (list_photos kiosk_shelf)) as [[files|e]|m] eqn:Hret;
    [|discriminate Hret|discriminate Hret].
  assert (Hdir : snd (get_media_dir kiosk_shelf "photos") = Ok photos_path)
    by (vm_compute; reflexivity).
  destruct (list_photos_lists kiosk_shelf photos_path Hdir) as [Hlists _].
  eapply Hlists; [vm_compute; reflexivity | exact Hret |].
  exists "scan.png", (mkMetadata (Some 1704110400) 512).
  split; [|split; [|split]]; vm_compute; auto 10.
Defined.

(** The shelf, listed: newest first, the two files of one second in the
    order of the directory; the file in capitals, the hidden file and the
    text file are not listed. *)
Example list_photos_kiosk_shelf :
  match snd (list_photos kiosk_shelf) with
  | Returned (Ok files) =>
      map name files
      = ["photo_20240301_080000.jpg"; "photo_20240101_120000.jpg"; "scan.png"; "old.jpeg"]
  | _ => False
  end.
Proof. vm_compute. reflexivity. Qed.

End ListingsOnShelf.

Section ListingPanics.
Import Media MediaStore.
Local Open Scope string_scope.
Local Open Scope Z_scope.
Context {FS : Type} `{Storage FS}.

Lemma list_entry_panics (allowed : list string) (fs : FS) (dir : Path)
    (entry_name : string) :
  (exists m, list_entry allowed fs dir entry_name = Panicked m)
  <-> exists md t,
        has_extension allowed (join dir [Normal entry_name]) = true
        /\ metadata fs (join dir [Normal entry_name]) = Ok md
        /\ modified md = Some t /\ t < 0.
Proof.
  unfold list_entry.
  destruct (has_extension allowed (join dir [Normal entry_name])).
  - destruct (metadata fs (join dir [Normal entry_name])) as [md|e].
    + destruct (modified md) as [t|] eqn:Hmod.
      * destruct (Z.ltb_spec t 0).
        -- split; [intros _; exists md, t; auto | intros _; eauto].
        -- split; [intros [m [=]]|].
           intros (md' & t' & _ & [= <-] & Ht & Hneg). rewrite Hmod in Ht.
           injection Ht as <-. lia.
      * split; [intros [m [=]]|].
        intros (md' & t' & _ & [= <-] & Ht & _). congruence.
    + split; [intros [m [=]]|]. intros (md' & t' & _ & [=] & _).
  - split; [intros [m [=]]|]. intros (md' & t' & [=] & _).
Qed.

Lemma list_entries_panics (allowed : list string) (fs : FS) (dir : Path)
    (entries : list (Result string string)) :
  (exists m, list_entries allowed fs dir entries = Panicked m)
  <-> exists entry_name md t,
        In (Ok entry_name) entries
        /\ has_extension allowed (join dir [Normal entry_name]) = true
        /\ metadata fs (join dir [Normal entry_name]) = Ok md
        /\ modified md = Some t /\ t < 0.
Proof.
  induction entries as [|[entry_name|e] entries IH]; cbn [list_entries In].
  - split; [intros [m [=]] | intros (? & ? & ? & [] & _)].
  - pose proof (list_entry_panics allowed fs dir entry_name) as Hone.
    destruct (list_entry allowed fs dir entry_name) as [pushed|m] eqn:Hentry.
    + destruct (list_entries allowed fs dir entries) as [files|m] eqn:Hrest.
      * split; [intros [m [=]]|].
        intros (n & md & t & [[= <-]|Hin] & Hrest').
        -- destruct (proj2 Hone) as [m [=]]. exists md, t. exact Hrest'.
        -- destruct (proj2 IH) as [m [=]]. exists n, md, t. auto.
      * split; [|intros _; eauto].
        intros _. destruct (proj1 IH) as (n & md & t & Hin & Hrest'); [eauto|].
        exists n, md, t. auto.
    + split; [|intros _; eauto].
      intros _. destruct (proj1 Hone) as (md & t & Hrest'); [eauto|].
      exists entry_name, md, t. auto.
  - rewrite IH. split.
    + intros (n & md & t & Hin & Hrest'). exists n, md, t. auto.
    + intros (n & md & t & [[=]|Hin] & Hrest'). exists n, md, t. auto.
Qed.

(** X11: with the photos directory at hand and readable, [list_photos]
    panics, instead of returning, exactly when one of the entries it would
    list has a modification time before the Unix epoch; no file is listed
    then. *)
Theorem list_photos_panics (fs : FS) (dir : Path)
    (entries : list (Result string string)) :
  snd (get_media_dir fs "photos") = Ok dir ->
  read_dir (fst (get_media_dir fs "photos")) dir = Ok entries ->
  (exists m, snd (list_photos fs) = Panicked m)
  <-> exists entry_name md t,
        In (Ok entry_name) entries
        /\ has_extension ["jpg"; "jpeg"; "png"] (join dir [Normal entry_name]) = true
        /\ metadata (fst (get_media_dir fs "photos")) (join dir [Normal entry_name]) = Ok md
        /\ modified md = Some t /\ t < 0.
Proof.
  intros Hdir Hread.
  rewrite <- (list_entries_panics ["jpg"; "jpeg"; "png"]).
  unfold list_photos, list_media. change PHOTOS_DIR with "photos".
  destruct (get_media_dir fs "photos") as [fs' r]. cbn [fst snd] in *. subst r.
  unfold pushed_files. rewrite Hread.
  destruct (list_entries ["jpg"; "jpeg"; "png"] fs' dir entries) as [files|m].
  - split; intros [m [=]].
  - split; intros _; eauto.
Qed.

End ListingPanics.

Section Naming.
Import Media MediaStore Format.
Local Open Scope string_scope.
Local Open Scope Z_scope.

Lemma list_photos_panics_witness :
  exists m, snd (list_photos shelf_before_epoch) = Panicked m.
Proof.
  assert (Hdir : snd (get_media_dir shelf_before_epoch "photos") = Ok photos_path)
    by (vm_compute; reflexivity).
  assert (Hread : read_dir (fst (get_media_dir shelf_before_epoch "photos")) photos_path
                  = Ok [Ok "a.jpg"; Ok "b.jpg"]) by (vm_compute; reflexivity).
  apply (proj2 (list_photos_panics shelf_before_epoch photos_path _ Hdir Hread)).
  exists "b.jpg", (mkMetadata (Some (-86400)) 20), (-86400).
  split; [|split; [|split; [|split]]]; vm_compute; auto.
Defined.

Lemma rsplit_dot_last (a e : string) :
  rsplit_dot e = None -> rsplit_dot (a ++ String "." e) = Some (a, e).
Proof.
  intros He. induction a as [|x a IH]; simpl.
  - rewrite He. reflexivity.
  - rewrite IH. reflexivity.
Qed.

Lemma file_name_join (dir : Path) (n : string) :
  file_name (join dir [Normal n]) = Some n.
Proof.
  unfold file_name, join. rewrite last_snoc. reflexivity.
Qed.

Lemma append_assoc (a b c : string) : (a ++ b) ++ c = a ++ (b ++ c).
Proof.
  induction a as [|x a IH]; [reflexivity|].
  change (String x ((a ++ b) ++ c) = String x (a ++ (b ++ c))).
  f_equal. exact IH.
Qed.

(** X12: whatever the time, the name [generate_filename] makes from a
    prefix that is not empty and an extension without a dot has that
    extension: the file [save_photo] writes ([photo], [jpg]) is one
    [list_photos] lists, and the file [save_audio] writes ([recording],
    [webm]) one [list_audio] lists, in whatever directory. *)
Theorem generated_names_are_listed (now : DateTime) (dir : Path) :
  (forall prefix ext,
     prefix <> "" -> rsplit_dot ext = None ->
     extension (join dir [Normal (generate_filename now prefix ext)]) = Some ext)
  /\ has_extension ["jpg"; "jpeg"; "png"]
       (join dir [Normal (generate_filename now "photo" "jpg")]) = true
  /\ has_extension ["webm"; "ogg"; "wav"]
       (join dir [Normal (generate_filename now "recording" "webm")]) = true.
Proof.
  assert (Hext : forall prefix ext,
            prefix <> "" -> rsplit_dot ext = None ->
            extension (join dir [Normal (generate_filename now prefix ext)]) = Some ext).
  { intros prefix ext Hprefix Hno. unfold extension.
    rewrite file_name_join. cbn [mbind option_bind].
    unfold generate_filename.
    replace (prefix ++ "_" ++ format_stamp now ++ "." ++ ext)
      with ((prefix ++ "_" ++ format_stamp now) ++ String "." ext)
      by (rewrite !append_assoc; reflexivity).
    rewrite (rsplit_dot_last _ ext Hno). cbn [mbind option_bind].
    destruct prefix; [contradiction|reflexivity]. }
  split; [exact Hext|].
  split; unfold has_extension; rewrite Hext by (discriminate || reflexivity);
    reflexivity.
Qed.

Lemma generated_names_are_listed_witness :
  extension
    (join photos_path [Normal (generate_filename (mkDateTime 2024 3 1 8 0 5) "photo" "jpg")])
  = Some "jpg".
Proof.
  apply (proj1 (generated_names_are_listed (mkDateTime 2024 3 1 8 0 5) photos_path)).
  - discriminate.
  - reflexivity.
Defined.

End Naming.

Section NamesInTime.
Import Media MediaStore Format.
Local Open Scope string_scope.
Local Open Scope Z_scope.

Lemma string_app_inj (a b c d : string) :
  String.length a = String.length b -> a ++ c = b ++ d -> a = b /\ c = d.
Proof.
  revert b. induction a as [|x a IH]; intros [|y b] Hlen Heq;
    try discriminate Hlen.
  - split; [reflexivity|exact Heq].
  - change (String x (a ++ c) = String y (b ++ d)) in Heq.
    injection Heq as -> Heq. injection Hlen as Hlen.
    destruct (IH b Hlen Heq) as [-> ->]. split; reflexivity.
Qed.

Lemma parseDecimal_leading_zero (s : string) (n : Z) :
  s <> "" -> parseDecimal s = Some n -> parseDecimal (String "0" s) = Some n.
Proof.
  intros Hs Hn. unfold parseDecimal in *. destruct s as [|a s]; [contradiction|].
  change (NilZero.uint_of_string (String "0" (String a s)))
    with (uint_of_char "0" (NilEmpty.uint_of_string (String a s))).
  change (NilZero.uint_of_string (String a s))
    with (NilEmpty.uint_of_string (String a s)) in Hn.
  destruct (NilEmpty.uint_of_string (String a s)) as [d|];
    [exact Hn | discriminate Hn].
Qed.

Lemma parseDecimal_pad4 (n : N) :
  parseDecimal (padStart 4 "0" (decimal n)) = Some (Z.of_N n).
Proof.
  pose proof (parseDecimal_decimal n) as Hn.
  destruct (decimal n) as [|a [|b [|c [|d rest]]]]; [discriminate Hn| | | |exact Hn].
  - change (padStart 4 "0" (String a ""))
      with (String "0" (String "0" (String "0" (String a "")))).
    repeat (apply parseDecimal_leading_zero; [discriminate|]). exact Hn.
  - change (padStart 4 "0" (String a (String b "")))
      with (String "0" (String "0" (String a (String b "")))).
    repeat (apply parseDecimal_leading_zero; [discriminate|]). exact Hn.
  - change (padStart 4 "0" (String a (String b (String c ""))))
      with (String "0" (String a (String b (String c "")))).
    apply parseDecimal_leading_zero; [discriminate|]. exact Hn.
Qed.

Lemma format_2_parse (n : Z) : 0 <= n -> parseDecimal (format_2 n) = Some n.
Proof.
  intros Hn. unfold format_2. rewrite toString_nonneg by exact Hn.
  rewrite parseDecimal_pad2, Z2N.id by exact Hn. reflexivity.
Qed.

Lemma format_year_parse (y : Z) :
  0 <= y <= 9999 -> parseDecimal (format_year y) = Some y.
Proof.
  intros [Hlo Hhi]. unfold format_year.
  destruct (Z.ltb_spec y 0); [lia|]. destruct (Z.ltb_spec 9999 y); [lia|].
  rewrite toString_nonneg by exact Hlo.
  rewrite parseDecimal_pad4, Z2N.id by exact Hlo. reflexivity.
Qed.

(** Four digits for a year up to 9999, by going through them. *)
Lemma format_year_length (y : Z) :
  0 <= y <= 9999 -> String.length (format_year y) = 4%nat.
Proof.
  intros Hy.
  assert (Hall : forallb
            (fun k => Nat.eqb (String.length (format_year (Z.of_nat k))) 4)
            (seq 0 (Z.to_nat 10000)) = true) by (vm_compute; reflexivity).
  rewrite forallb_forall in Hall.
  specialize (Hall (Z.to_nat y)). rewrite Z2Nat.id in Hall by lia.
  apply Nat.eqb_eq, Hall, in_seq. lia.
Qed.

Lemma format_2_length (n : Z) : 0 <= n < 100 -> String.length (format_2 n) = 2%nat.
Proof. apply pad2_length. Qed.

Lemma format_stamp_inj (t1 t2 : DateTime) :
  valid_datetime t1 -> valid_datetime t2 ->
  format_stamp t1 = format_stamp t2 -> t1 = t2.
Proof.
  intros (Hy1 & Hm1 & Hd1 & Hh1 & Hmi1 & Hs1) (Hy2 & Hm2 & Hd2 & Hh2 & Hmi2 & Hs2).
  unfold format_stamp. intros Heq.
  apply string_app_inj in Heq as [Hy Heq];
    [|rewrite !format_year_length by lia; reflexivity].
  apply string_app_inj in Heq as [Hm Heq];
    [|rewrite !format_2_length by lia; reflexivity].
  apply string_app_inj in Heq as [Hd Heq];
    [|rewrite !format_2_length by lia; reflexivity].
  apply (string_app_inj "_" "_") in Heq as [_ Heq]; [|reflexivity].
  apply string_app_inj in Heq as [Hh Heq];
    [|rewrite !format_2_length by lia; reflexivity].
  apply string_app_inj in Heq as [Hmi Hs];
    [|rewrite !format_2_length by lia; reflexivity].
  assert (Ey : year t1 = year t2).
  { pose proof (format_year_parse (year t1) Hy1) as P1.
    rewrite Hy, format_year_parse in P1 by lia. congruence. }
  assert (Efield : forall a b, 0 <= a -> 0 <= b -> format_2 a = format_2 b -> a = b).
  { intros a b Ha Hb E. pose proof (format_2_parse a Ha) as P1.
    rewrite E, format_2_parse in P1 by exact Hb. congruence. }
  destruct t1, t2; simpl in *. f_equal; try exact Ey; apply Efield; (lia || assumption).
Qed.

(** X13: for readings of the local clock that are dates and times of the
    calendar, in the years 0 to 9999, [generate_filename] gives two files
    of one prefix and extension the same name exactly when the clock reads
    the same year, month, day, hour, minute and second at both calls; the
    time stamp in the name always has 15 characters. The name carries no
    offset, so calls at different instants at which the local clock reads
    the same get one name. *)
Theorem generate_filename_same_reading (t1 t2 : DateTime) (prefix ext : string) :
  valid_datetime t1 -> valid_datetime t2 ->
  (generate_filename t1 prefix ext = generate_filename t2 prefix ext <-> t1 = t2)
  /\ String.length (format_stamp t1) = 15%nat.
Proof.
  intros Hv1 Hv2.
  assert (Hlen : forall t, valid_datetime t -> String.length (format_stamp t) = 15%nat).
  { intros t (Hy & Hm & Hd & Hh & Hmi & Hs). unfold format_stamp.
    rewrite !length_append, format_year_length, !format_2_length by lia.
    reflexivity. }
  split; [|apply Hlen, Hv1].
  split; [|intros ->; reflexivity].
  unfold generate_filename. intros Heq.
  apply (inj (String.append prefix)) in Heq.
  apply (string_app_inj "_" "_") in Heq as [_ Heq]; [|reflexivity].
  apply string_app_inj in Heq as [Hstamp _]; [|rewrite !Hlen by assumption; reflexivity].
  apply format_stamp_inj; assumption.
Qed.

Lemma generate_filename_same_reading_witness :
  generate_filename (mkDateTime 2024 3 1 8 0 5) "photo" "jpg"
  <> generate_filename (mkDateTime 2024 3 1 8 0 6) "photo" "jpg".
Proof.
  assert (Hv1 : valid_datetime (mkDateTime 2024 3 1 8 0 5))
    by (unfold valid_datetime; simpl; lia).
  assert (Hv2 : valid_datetime (mkDateTime 2024 3 1 8 0 6))
    by (unfold valid_datetime; simpl; lia).
  intros Heq.
  apply (proj1 (generate_filename_same_reading _ _ "photo" "jpg" Hv1 Hv2)) in Heq.
  discriminate Heq.
Defined.

Example generate_filename_sample :
  generate_filename (mkDateTime 2024 3 1 8 0 5) "recording" "webm"
  = "recording_20240301_080005.webm".
Proof. vm_compute. reflexivity. Qed.

End NamesInTime.

(** ** MusicApp: deleting more than once *)

Section DeleteRecordingComposes.
Import MusicApp.
Local Open Scope string_scope.

Lemma deleteRecording_recordings (p : string) (st : State) :
  recordings (deleteRecording (Ok tt) p st)
  = filter (fun r => path r <> p) (recordings st).
Proof. unfold deleteRecording. rewrite resume_resolved_recordings. reflexivity. Qed.

Lemma length_filter_path (p : string) (l : list RecordingInfo) :
  NoDup (map path l) -> p ∈ map path l ->
  S (length (filter (fun r => path r <> p) l)) = length l.
Proof.
  induction l as [|r l IH]; simpl; intros Hnd Hin.
  - apply elem_of_nil in Hin as [].
  - apply NoDup_cons in Hnd as [Hr Hnd]. rewrite filter_cons.
    destruct (decide (path r <> p)) as [Hne|Heq].
    + simpl. f_equal. apply IH; [exact Hnd|].
      apply elem_of_cons in Hin as [->|Hin]; [contradiction|exact Hin].
    + assert (path r = p) as <- by (destruct (decide (path r = p)); tauto).
      f_equal. clear IH Hin Hnd. induction l as [|r' l IH]; [reflexivity|].
      rewrite filter_cons. simpl in Hr. apply not_elem_of_cons in Hr as [Hne Hr].
      destruct (decide (path r' <> path r)) as [_|Hnn];
        [|exfalso; apply Hnn; congruence].
      simpl. f_equal. apply IH, Hr.
Qed.

Lemma NoDup_paths_filter (p : string) (l : list RecordingInfo) :
  NoDup (map path l) -> NoDup (map path (filter (fun r => path r <> p) l)).
Proof.
  induction l as [|r l IH]; simpl; intros Hnd; [constructor|].
  apply NoDup_cons in Hnd as [Hr Hnd]. rewrite filter_cons.
  destruct (decide (path r <> p)); [|apply IH, Hnd].
  simpl. apply NoDup_cons. split; [|apply IH, Hnd].
  intros Hin. apply Hr. apply list_elem_of_fmap in Hin as (r' & -> & Hin).
  apply list_elem_of_filter in Hin as [_ Hin].
  apply list_elem_of_fmap. exists r'. auto.
Qed.

(** X14: successful deletions compose on the list of recordings: deleting
    a path a second time changes nothing, deleting two paths gives the same
    list in either order, and a deletion never makes the list longer. When
    the paths of the list are distinct, as the keys of its rows have to be,
    deleting a path that is in the list removes exactly one entry and
    leaves the paths distinct. *)
Theorem deleteRecording_composes (p q : string) (st : State) :
  let del path st := deleteRecording (Ok tt) path st in
  recordings (del p (del p st)) = recordings (del p st)
  /\ recordings (del p (del q st)) = recordings (del q (del p st))
  /\ length (recordings (del p st)) <= length (recordings st)
  /\ (NoDup (map path (recordings st)) ->
      NoDup (map path (recordings (del p st)))
      /\ (p ∈ map path (recordings st) ->
          S (length (recordings (del p st))) = length (recordings st))).
Proof.
  intros del. unfold del. rewrite !deleteRecording_recordings.
  split; [|split; [|split]].
  - rewrite list_filter_filter. apply list_filter_iff. tauto.
  - rewrite !list_filter_filter. apply list_filter_iff. tauto.
  - apply length_filter.
  - intros Hnd. split; [|apply length_filter_path; exact Hnd].
    apply NoDup_paths_filter, Hnd.
Qed.

Lemma deleteRecording_composes_witness :
  NoDup (map path (recordings (deleteRecording (Ok tt) "/rec/a.wav" two_tracks)))
  /\ S (length (recordings (deleteRecording (Ok tt) "/rec/b.wav"
                              (deleteRecording (Ok tt) "/rec/a.wav" two_tracks))))
     = length (recordings (deleteRecording (Ok tt) "/rec/a.wav" two_tracks)).
Proof.
  assert (Hnd : NoDup (map path (recordings (deleteRecording (Ok tt) "/rec/a.wav" two_tracks)))).
  { vm_compute. repeat constructor; intros Hin;
      repeat (apply elem_of_cons in Hin as [Hin|Hin]; [discriminate Hin|]);
      apply elem_of_nil in Hin as []. }
  split; [exact Hnd|].
  destruct (deleteRecording_composes "/rec/b.wav" "/rec/b.wav"
              (deleteRecording (Ok tt) "/rec/a.wav" two_tracks))
    as (_ & _ & _ & Hunique).
  apply (proj2 (Hunique Hnd)). vm_compute. repeat constructor.
Defined.

End DeleteRecordingComposes.

(** ** GalleryApp *)

Section GalleryProperties.
Import Gallery.
Local Open Scope string_scope.

(** X15: [deleteImage] with no image selected does nothing, not even a
    call of the backend. With an image selected and the backend
    succeeding, the list loses exactly the images of the selected path, the
    others staying in their order, and the viewer is closed; with the
    backend failing, the list is as before, the viewer stays open on the
    same image with its data, and the error is logged. In both cases the
    component is no longer deleting and the confirmation is withdrawn. *)
Theorem deleteImage_frame (st : State) :
  (selectedImage st = None -> forall backend, deleteImage backend st = st)
  /\ (forall selected,
        selectedImage st = Some selected ->
        let ok := deleteImage (Ok tt) st in
        images ok = filter (fun i => path i <> path selected) (images st)
        /\ images ok `sublist_of` images st
        /\ selectedImage ok = None /\ imageData ok = None
        /\ deleting ok = false /\ confirmDelete ok = false
        /\ effects ok
           = (effects st ++ [Invoke "delete_gallery_image" (Some (path selected))])%list)
  /\ (forall selected e,
        selectedImage st = Some selected ->
        let failed := deleteImage (Err e) st in
        images failed = images st
        /\ selectedImage failed = Some selected /\ imageData failed = imageData st
        /\ deleting failed = false /\ confirmDelete failed = false
        /\ effects failed
           = (effects st ++ [Invoke "delete_gallery_image" (Some (path selected));
                             ConsoleError "Failed to delete image:" e])%list).
Proof.
  split; [|split].
  - intros Hnone backend. unfold deleteImage. rewrite Hnone. reflexivity.
  - intros selected Hsel. unfold deleteImage. rewrite Hsel. cbn.
    repeat split; try reflexivity. apply sublist_filter.
  - intros selected e Hsel. unfold deleteImage. rewrite Hsel. cbn.
    repeat split; try (reflexivity || assumption).
    rewrite <- app_assoc. reflexivity.
Qed.

Lemma deleteImage_frame_witness :
  images (deleteImage (Ok tt)
            (cells (run [ListSettled (Ok three_photos);
                         TapThumbnail (mkImage "b.jpg" "/photos/b.jpg" 20 2);
                         ReadSettled (Ok "data:")])))
  = [mkImage "a.jpg" "/photos/a.jpg" 10 3; mkImage "c.jpg" "/photos/c.jpg" 30 1].
Proof.
  destruct (deleteImage_frame
              (cells (run [ListSettled (Ok three_photos);
                           TapThumbnail (mkImage "b.jpg" "/photos/b.jpg" 20 2);
                           ReadSettled (Ok "data:")]))) as (_ & Hok & _).
  destruct (Hok (mkImage "b.jpg" "/photos/b.jpg" 20 2) eq_refl) as [Himages _].
  rewrite Himages. vm_compute. reflexivity.
Defined.

(** [deleteImage] is its two halves with nothing between. *)
Lemma deleteImage_halves (backend : Result unit string) (st : State) :
  deleteImage backend st
  = match selectedImage st with
    | None => st
    | Some selected => deleteImage_settled backend selected (deleteImage_begin selected st)
    end.
Proof. unfold deleteImage. destruct (selectedImage st), backend; reflexivity. Qed.

Lemma step_consistent (c : Component) (e : Event) :
  consistent c -> consistent (step c e).
Proof.
  intros Hc. pose proof Hc as (Hsel & Hone & Hdel & Hread & Hload & Hlist).
  destruct e as [answer|image|answer| | | | |k answer]; cbn [step].
  - destruct (listing c) eqn:Hl; [|exact Hc].
    destruct (Hlist eq_refl) as [_ Hnone].
    unfold consistent, loadImages_settled. destruct answer; cbn;
      (split; [intros i Hi; congruence|]); repeat split; auto; try discriminate;
      try apply Hdel.
  - destruct (selectedImage (cells c)) eqn:Hs; [exact Hc|].
    destruct (loading (cells c)) eqn:Hloading; cbn [negb andb]; [exact Hc|].
    destruct (bool_decide (image ∈ images (cells c))) eqn:Hin; [|exact Hc].
    apply bool_decide_eq_true_1 in Hin.
    unfold consistent, openImage_begin. cbn. rewrite Hloading.
    split; [intros i Hi; injection Hi as <-; exact Hin|].
    repeat split; auto; try apply Hdel; try lia; try congruence.
    all: intros Hl; rewrite Hl in Hload; discriminate.
  - destruct (reads c) as [|n] eqn:Hr; [exact Hc|].
    unfold consistent, openImage_settled. destruct answer; cbn;
      (split; [exact Hsel|]); repeat split; auto; try apply Hdel;
      try discriminate; apply Hlist; assumption.
  - destruct (selectedImage (cells c)) eqn:Hs; [|exact Hc].
    unfold consistent, closeViewer. cbn.
    split; [discriminate|]. repeat split; auto; try apply Hdel.
    apply Hlist; assumption.
  - destruct (selectedImage (cells c)) eqn:Hs; [|exact Hc].
    destruct (confirmDelete (cells c)); [exact Hc|].
    unfold consistent. cbn. rewrite Hs.
    split; [exact Hsel|]. repeat split; auto; try apply Hdel; apply Hlist; assumption.
  - destruct (selectedImage (cells c)) eqn:Hs; [|exact Hc].
    destruct (confirmDelete (cells c)); [|exact Hc].
    unfold consistent. cbn. rewrite Hs.
    split; [exact Hsel|]. repeat split; auto; try apply Hdel; apply Hlist; assumption.
  - destruct (selectedImage (cells c)) as [selected|] eqn:Hs; [|exact Hc].
    destruct (confirmDelete (cells c)); cbn [andb]; [|exact Hc].
    destruct (deleting (cells c)) eqn:Hd; cbn [negb]; [exact Hc|].
    assert (Hnil : deletions c = []).
    { destruct (deletions c) as [|d ds] eqn:Hds; [reflexivity|].
      assert (Htrue : false = true) by (apply Hdel; discriminate). discriminate. }
    unfold consistent, deleteImage_begin. cbn. rewrite Hs, Hnil.
    split; [exact Hsel|]. split; [cbn; lia|].
    split; [split; [intros _; discriminate|reflexivity]|].
    split; [exact Hread|]. split; [exact Hload|]. exact Hlist.
  - destruct (deletions c !! k) as [selected|] eqn:Hk; [|exact Hc].
    assert (Hgone : delete k (deletions c) = []).
    { destruct (deletions c) as [|d [|d' ds]]; [discriminate Hk| |cbn in Hone; lia].
      destruct k; [reflexivity|discriminate Hk]. }
    assert (Hidle : false = true <-> @nil GalleryImage <> [])
      by (split; [discriminate|intros H; contradiction]).
    unfold consistent, deleteImage_settled, closeViewer. rewrite Hgone.
    destruct answer; cbn.
    + split; [discriminate|]. split; [lia|]. split; [exact Hidle|].
      split; [exact Hread|]. split; [exact Hload|].
      intros Hl. destruct (Hlist Hl) as [Himages _]. rewrite Himages.
      split; reflexivity.
    + split; [exact Hsel|]. split; [lia|]. split; [exact Hidle|].
      split; [exact Hread|]. split; [exact Hload|]. exact Hlist.
Qed.

(** X16: whatever the user taps and whenever the backend answers, taps
    that arrive while calls are in flight and answers in any order
    included: the image in the viewer is one of the list; at most one
    [delete_gallery_image] call is in flight, and [deleting] is set exactly
    while one is; [loadingImage] is set only while a read is in flight; and
    [loading] is set exactly until [list_gallery_images] has answered. *)
Theorem gallery_viewer_shows_listed_image (es : list Event) :
  let c := run es in
  (forall i, selectedImage (cells c) = Some i -> i ∈ images (cells c))
  /\ length (deletions c) <= 1
  /\ (deleting (cells c) = true <-> deletions c <> [])
  /\ (loadingImage (cells c) = true -> 0 < reads c)
  /\ (loading (cells c) = true <-> listing c = true).
Proof.
  cbn zeta.
  assert (Hall : consistent (run es)).
  { unfold run.
    assert (Hinit : consistent mounted).
    { unfold consistent. cbn.
      split; [discriminate|]. split; [lia|].
      split; [split; [discriminate|intros H; contradiction]|].
      split; [discriminate|]. split; [reflexivity|]. intros _. split; reflexivity. }
    revert Hinit. generalize mounted.
    induction es as [|e es IH]; intros c Hc; [exact Hc|].
    cbn [fold_left]. apply IH, step_consistent, Hc. }
  destruct Hall as (Hsel & Hone & Hdel & Hread & Hload & _).
  split; [exact Hsel|]. split; [exact Hone|]. split; [exact Hdel|].
  split; [exact Hread|]. rewrite Hload. tauto.
Qed.

(** Open the second photo, delete it, then tap where it was. *)
Example gallery_delete_then_tap :
  let b := mkImage "b.jpg" "/photos/b.jpg" 20 2 in
  let st := cells (run [ListSettled (Ok three_photos); TapThumbnail b;
                        ReadSettled (Ok "data:b"); TapDelete; TapConfirm;
                        DeleteSettled 0 (Ok tt); TapThumbnail b]) in
  selectedImage st = None
  /\ images st = [mkImage "a.jpg" "/photos/a.jpg" 10 3; mkImage "c.jpg" "/photos/c.jpg" 30 1].
Proof. vm_compute. split; reflexivity. Qed.

(** Taps during the awaits. Back while the image is read: its data arrives
    with no image selected. A second image opened while the first is read:
    the first answer is shown under the second image. Back and another
    image opened while a deletion is in flight: the answer closes the
    viewer on the other image. *)
Example gallery_back_during_read :
  let a := mkImage "a.jpg" "/photos/a.jpg" 10 3 in
  let st := cells (run [ListSettled (Ok three_photos); TapThumbnail a; TapBack;
                        ReadSettled (Ok "data:a")]) in
  selectedImage st = None /\ imageData st = Some "data:a".
Proof. vm_compute. split; reflexivity. Qed.

Example gallery_late_answer :
  let a := mkImage "a.jpg" "/photos/a.jpg" 10 3 in
  let b := mkImage "b.jpg" "/photos/b.jpg" 20 2 in
  let c := run [ListSettled (Ok three_photos); TapThumbnail a; TapBack;
                TapThumbnail b; ReadSettled (Ok "data:a")] in
  selectedImage (cells c) = Some b /\ imageData (cells c) = Some "data:a"
  /\ loadingImage (cells c) = false /\ reads c = 1.
Proof. vm_compute. repeat split; reflexivity. Qed.

Example gallery_delete_closes_other :
  let a := mkImage "a.jpg" "/photos/a.jpg" 10 3 in
  let b := mkImage "b.jpg" "/photos/b.jpg" 20 2 in
  let st := cells (run [ListSettled (Ok three_photos); TapThumbnail a;
                        ReadSettled (Ok "data:a"); TapDelete; TapConfirm; TapBack;
                        TapThumbnail b; ReadSettled (Ok "data:b");
                        DeleteSettled 0 (Ok tt)]) in
  selectedImage st = None
  /\ images st = [mkImage "b.jpg" "/photos/b.jpg" 20 2; mkImage "c.jpg" "/photos/c.jpg" 30 1].
Proof. vm_compute. split; reflexivity. Qed.

End GalleryProperties.


(** ** CameraApp: taps of the shutter button *)

Section CameraProperties.
Import Camera.
Local Open Scope string_scope.

Lemma saved_app (es es' : list Effect) :
  saved (es ++ es')%list = (saved es ++ saved es')%list.
Proof. unfold saved. apply flat_map_app. Qed.

Lemma last_cons_default {A} (x : A) (l : list A) (d d' : A) :
  List.last (x :: l) d = List.last (x :: l) d'.
Proof.
  revert x. induction l as [|y l IH]; intros x; [reflexivity|].
  change (List.last (y :: l) d = List.last (y :: l) d'). apply IH.
Qed.

(** One tap with both refs set, no capture in progress and a 2d context. *)
Lemma tap_with_context (dataUrl : string) (backend : Result unit string) (st : State) :
  video st = true -> canvas st = true -> isCapturing st = false ->
  let st' := capturePhoto true dataUrl backend st in
  video st' = true /\ canvas st' = true /\ isCapturing st' = false
  /\ lastCapture st' = Some dataUrl
  /\ saved (effects st') = (saved (effects st) ++ [dataUrl])%list.
Proof.
  intros Hv Hc Hi. unfold capturePhoto. rewrite Hv, Hc, Hi.
  destruct backend as [u|e]; simpl; rewrite ?saved_app; simpl;
    rewrite ?app_nil_r; auto.
Qed.

(** X17: while the canvas gives a 2d context, every tap of the shutter
    button hands its frame to [save_photo], once and in the order of the
    taps, whether the earlier saves succeeded or failed; afterwards no
    capture is in progress, and the preview shows the frame of the last tap
    even when its save failed. *)
Theorem every_tap_saves_its_frame (ts : list Tap) (st : State) :
  video st = true -> canvas st = true -> isCapturing st = false ->
  Forall (fun t => fst (fst t) = true) ts ->
  let st' := taps ts st in
  saved (effects st') = (saved (effects st) ++ map frame ts)%list
  /\ isCapturing st' = false
  /\ lastCapture st' = List.last (map (fun t => Some (frame t)) ts) (lastCapture st).
Proof.
  revert st. induction ts as [|[[context dataUrl] backend] ts IH];
    intros st Hv Hc Hi Hctx; cbn zeta.
  - simpl. rewrite app_nil_r. auto.
  - apply Forall_cons_1 in Hctx as [Hcontext Hctx]. simpl in Hcontext. subst context.
    destruct (tap_with_context dataUrl backend st Hv Hc Hi)
      as (Hv' & Hc' & Hi' & Hlast & Hsaved).
    destruct (IH _ Hv' Hc' Hi' Hctx) as (IHs & IHi & IHl).
    change (taps ((true, dataUrl, backend) :: ts) st)
      with (taps ts (capturePhoto true dataUrl backend st)).
    split; [|split].
    + rewrite IHs, Hsaved, <- app_assoc. reflexivity.
    + exact IHi.
    + rewrite IHl, Hlast. cbn [map].
      destruct ts as [|t ts']; [reflexivity|].
      cbn [map]. rewrite (last_cons_default _ _ (Some dataUrl) (lastCapture st)).
      reflexivity.
Qed.

Lemma every_tap_saves_its_frame_witness :
  saved (effects (taps [(true, "data:a", Err "disk full"); (true, "data:b", Ok tt)] ready))
  = ["data:a"; "data:b"].
Proof.
  refine (proj1 (every_tap_saves_its_frame
    [(true, "data:a", Err "disk full"); (true, "data:b", Ok tt)] ready
    eq_refl eq_refl eq_refl _)).
  repeat constructor.
Defined.

(** With a capture in progress, a tap does nothing. *)
Lemma taps_while_capturing (ts : list Tap) (st : State) :
  isCapturing st = true -> taps ts st = st.
Proof.
  intros Hi. induction ts as [|[[context dataUrl] backend] ts IH]; [reflexivity|].
  change (taps ts (capturePhoto context dataUrl backend st) = st).
  unfold capturePhoto at 1. rewrite Hi, !orb_true_r. exact IH.
Qed.

(** X18: a tap for which the canvas gives no 2d context returns with the
    capture still marked as in progress; from then on no tap does anything:
    whatever the later taps and their context, the state stays as that tap
    left it, and no frame is saved. *)
Theorem tap_without_context_blocks (dataUrl : string) (backend : Result unit string)
    (ts : list Tap) (st : State) :
  video st = true -> canvas st = true -> isCapturing st = false ->
  let st' := taps ((false, dataUrl, backend) :: ts) st in
  st' = setIsCapturing true st
  /\ isCapturing st' = true
  /\ saved (effects st') = saved (effects st).
Proof.
  intros Hv Hc Hi. cbn zeta.
  change (taps ((false, dataUrl, backend) :: ts) st)
    with (taps ts (capturePhoto false dataUrl backend st)).
  assert (Hstep : capturePhoto false dataUrl backend st = setIsCapturing true st).
  { unfold capturePhoto. rewrite Hv, Hc, Hi. reflexivity. }
  rewrite Hstep, taps_while_capturing by reflexivity.
  repeat split.
Qed.

Lemma tap_without_context_blocks_witness :
  saved (effects (taps [(false, "data:a", Ok tt); (true, "data:b", Ok tt)] ready)) = [].
Proof.
  exact (proj2 (proj2 (tap_without_context_blocks "data:a" (Ok tt)
    [(true, "data:b", Ok tt)] ready eq_refl eq_refl eq_refl))).
Defined.

End CameraProperties.


(** ** SystemOverlay: the sliders and the backend *)

Section OverlayProperties.
Import SystemCmd Volume Overlay.
Local Open Scope string_scope.
Local Open Scope Z_scope.

Lemma invoke_level_u8 {A} (command : Z -> list Command * Result A string)
    (refusal : string) (level : Z) :
  0 <= level <= 255 -> invoke_level command refusal level = command level.
Proof.
  intros [Hlo Hhi]. unfold invoke_level.
  destruct (Z.leb_spec 0 level); [|lia].
  destruct (Z.leb_spec level 255); [reflexivity|lia].
Qed.

(** X19: for every position of the brightness slider (5 to 100), the
    percentage the overlay shows is the percentage [brightnessctl] is asked
    for: the backend's clamp changes nothing, one command is handed to the
    operating system, the volume is untouched, and the console gets a line
    exactly when the command cannot be spawned. *)
Theorem brightness_slider_reaches_os (os : Spawner) (refusal : string) (value : Z)
    (st : State) :
  5 <= value <= 100 ->
  let cmd := mkCommand "brightnessctl" ["set"; display_u8 value ++ "%"] in
  let st' := handleBrightnessChange os refusal value st in
  brightness st' = value
  /\ volume st' = volume st
  /\ commands st' = (commands st ++ [cmd])%list
  /\ console st' =
       match os cmd with
       | Ok _ => console st
       | Err e =>
           (console st
              ++ [("Failed to set brightness:",
                   ("Failed to set brightness: " ++ e)%string)])%list
       end.
Proof.
  intros Hv cmd st'. unfold st', handleBrightnessChange, after_invoke.
  rewrite invoke_level_u8 by lia.
  unfold set_brightness. rewrite (clamp_inside value 5 100 Hv).
  change (brightness_command value) with cmd.
  destruct (os cmd) as [out|e]; cbn; repeat split.
Qed.

Lemma brightness_slider_reaches_os_witness :
  commands (handleBrightnessChange os_not_installed "invalid args" 5 initial)
  = [mkCommand "brightnessctl" ["set"; "5%"]]
  /\ console (handleBrightnessChange os_not_installed "invalid args" 5 initial)
     = [("Failed to set brightness:",
         "Failed to set brightness: No such file or directory (os error 2)")].
Proof.
  assert (Hv : 5 <= 5 <= 100) by lia.
  destruct (brightness_slider_reaches_os os_not_installed "invalid args" 5 initial Hv)
    as (_ & _ & Hcmd & Hcon).
  split; [exact Hcmd | exact Hcon].
Defined.

(** X20: for every position of the volume slider (0 to 100), after the
    probes of the detection one command sets the volume of the detected
    backend to the percentage the overlay shows; the brightness is
    untouched, and the console gets a line exactly when that command cannot
    be spawned. *)
Theorem volume_slider_reaches_os (os : Spawner) (refusal : string) (value : Z)
    (st : State) :
  0 <= value <= 100 ->
  let percent := display_u8 value ++ "%" in
  let cmd :=
    match snd (detect_audio_backend os) with
    | PipeWire => mkCommand "wpctl" ["set-volume"; "@DEFAULT_AUDIO_SINK@"; percent]
    | PulseAudio => mkCommand "pactl" ["set-sink-volume"; "@DEFAULT_SINK@"; percent]
    | Alsa => mkCommand "amixer" ["set"; "Master"; percent]
    end in
  let st' := handleVolumeChange os refusal value st in
  volume st' = value
  /\ brightness st' = brightness st
  /\ commands st' = (commands st ++ fst (detect_audio_backend os) ++ [cmd])%list
  /\ (console st' = console st <-> is_ok (os cmd) = true).
Proof.
  intros Hv percent cmd st'. unfold st', handleVolumeChange, after_invoke.
  rewrite invoke_level_u8 by lia.
  unfold set_volume. rewrite (clamp_inside value 0 100 Hv).
  unfold cmd, percent.
  destruct (snd (detect_audio_backend os));
    unfold set_volume_pipewire, set_volume_pulseaudio, set_volume_alsa, run_quietly;
    cbn [fst snd];
    match goal with |- context [os ?c] => destruct (os c) as [out|e] end;
    cbn; (split; [reflexivity|]); (split; [reflexivity|]); (split; [reflexivity|]);
    split; intros H; try reflexivity; try discriminate H.
  all: exfalso; apply (f_equal (@length _)) in H; rewrite length_app in H;
    simpl in H; lia.
Qed.

Lemma volume_slider_reaches_os_witness :
  commands (handleVolumeChange os_pulse "invalid args" 40 initial)
  = [mkCommand "wpctl" ["--version"]; mkCommand "pactl" ["--version"];
     mkCommand "pactl" ["set-sink-volume"; "@DEFAULT_SINK@"; "40%"]].
Proof.
  assert (Hv : 0 <= 40 <= 100) by lia.
  exact (proj1 (proj2 (proj2
    (volume_slider_reaches_os os_pulse "invalid args" 40 initial Hv)))).
Defined.

End OverlayProperties.


(** ** useSwipeGesture: what every sequence of touches keeps *)

Section SwipeProperties.
Import Swipe.
Local Open Scope Q_scope.
Variables edgeThreshold activationDistance : Q.
Variables onActivate onDeactivate : bool.


Lemma run_invariant (P : Hook -> Prop) :
  P initial ->
  (forall h e, P h -> P (Swipe.step edgeThreshold activationDistance onActivate onDeactivate h e)) ->
  forall es, P (Swipe.run edgeThreshold activationDistance onActivate onDeactivate es).
Proof.
  intros H0 Hstep es. unfold Swipe.run. generalize initial H0.
  induction es as [|e es IH]; intros h Hh; [exact Hh|].
  simpl. apply IH, Hstep, Hh.
Qed.

Lemma Math_min_unit (x : Q) : 0 <= x -> 0 <= Math_min x 1 <= 1.
Proof.
  intros Hx. unfold Math_min. destruct (Qle_bool x 1) eqn:Hle.
  - apply Qle_bool_iff in Hle. split; assumption.
  - split; [discriminate|apply Qle_refl].
Qed.

Lemma Qgt_bool_pos (x : Q) : Qgt_bool x 0 = true -> 0 < x.
Proof.
  unfold Qgt_bool. intros H. apply Qnot_le_lt. intros Hle.
  apply Qle_bool_iff in Hle. rewrite Hle in H. discriminate.
Qed.

Lemma progress_of_move (deltaY : Q) :
  Qgt_bool deltaY 0 = true -> 0 <= Math_min (deltaY / 200) 1 <= 1.
Proof.
  intros H. apply Math_min_unit. apply Qgt_bool_pos in H.
  apply Qle_shift_div_l; [reflexivity|]. rewrite Qmult_0_l. apply Qlt_le_weak, H.
Qed.

Lemma step_settled (h : Hook) (e : Event) : settled h ->
  settled (Swipe.step edgeThreshold activationDistance onActivate onDeactivate h e).
Proof.
  intros Hinv. pose proof Hinv as (Hp & Hd & Hr).
  destruct e as [y|y| |]; cbn [Swipe.step].
  - unfold handleTouchStart. destruct (Qle_bool y edgeThreshold); [|exact Hinv].
    split; [exact Hp|]. split; [reflexivity|discriminate].
  - unfold handleTouchMove.
    destruct (touchStartedInEdge h) eqn:Hs; cbn [negb]; [|exact Hinv].
    destruct (Qgt_bool (y - touchStartY h) 0) eqn:Hpos; [|exact Hinv].
    pose proof (progress_of_move _ Hpos) as Hm.
    unfold call.
    destruct (Qle_bool activationDistance (y - touchStartY h)
              && negb (isActive (state h)))%bool; [destruct onActivate|];
      (split; [exact Hm|]); (split; [intros _; exact Hs|]);
      cbn [touchStartedInEdge setState]; rewrite Hs; discriminate.
  - unfold handleTouchEnd.
    destruct (touchStartedInEdge h) eqn:Hs; cbn [negb]; [|exact Hinv].
    split; [cbn [state setState progress]; destruct (isActive (state h));
            split; discriminate|].
    split; [discriminate|]. reflexivity.
  - unfold dismiss, call. destruct onDeactivate;
      (split; [split; discriminate|]); (split; [discriminate|]); reflexivity.
Qed.

(** X21: after every sequence of touch events and dismissals, [progress]
    lies between 0 and 1; the panel is marked as dragged only while a touch
    that started in the edge is being followed; and when no such touch is
    being followed, [progress] is 1 if the overlay is active and 0 if not. *)
Theorem swipe_progress_settles (es : list Event) :
  let h := Swipe.run edgeThreshold activationDistance onActivate onDeactivate es in
  0 <= progress (state h) <= 1
  /\ (isDragging (state h) = true -> touchStartedInEdge h = true)
  /\ (touchStartedInEdge h = false ->
      progress (state h) = if isActive (state h) then 1 else 0).
Proof.
  cbn zeta. apply (run_invariant settled).
  - split; [split; discriminate|]. split; [discriminate|]. reflexivity.
  - apply step_settled.
Qed.

(** What one touch event does to the callbacks and to [isActive]. *)
Lemma touch_step (h : Hook) (e : Event) :
  is_touch e = true ->
  let h' := Swipe.step edgeThreshold activationDistance onActivate onDeactivate h e in
  called h'
  = (called h
     ++ (if onActivate && negb (isActive (state h)) && isActive (state h')
         then [OnActivate] else []))%list
  /\ (isActive (state h) = true -> isActive (state h') = true).
Proof.
  intros Htouch. cbn zeta.
  assert (Hsame : called h
                  = (called h
                     ++ (if onActivate && negb (isActive (state h))
                            && isActive (state h)
                         then [OnActivate] else []))%list).
  { destruct onActivate, (isActive (state h)); cbn; rewrite ?app_nil_r; reflexivity. }
  destruct e as [y|y| |]; [| | |discriminate Htouch]; cbn [Swipe.step].
  - unfold handleTouchStart. destruct (Qle_bool y edgeThreshold).
    + cbn [called setState state isActive]. split; [exact Hsame|auto].
    + split; [exact Hsame|auto].
  - unfold handleTouchMove.
    destruct (touchStartedInEdge h); cbn [negb]; [|split; [exact Hsame|auto]].
    destruct (Qgt_bool (y - touchStartY h) 0); [|split; [exact Hsame|auto]].
    destruct (Qle_bool activationDistance (y - touchStartY h)); cbn [andb].
    + destruct (isActive (state h)) eqn:Hact; cbn [negb].
      * cbn [called setState state isActive]. rewrite Hact.
        rewrite andb_false_r. cbn. rewrite app_nil_r. auto.
      * unfold call. destruct onActivate; cbn; rewrite ?app_nil_r; split;
          try reflexivity; discriminate.
    + cbn [called setState state isActive]. split; [exact Hsame|auto].
  - unfold handleTouchEnd. destruct (touchStartedInEdge h); cbn [negb].
    + cbn [called setState state isActive]. split; [exact Hsame|auto].
    + split; [exact Hsame|auto].
Qed.

Lemma touches_from (es : list Event) (h : Hook) :
  forallb is_touch es = true ->
  let h' :=
    fold_left (Swipe.step edgeThreshold activationDistance onActivate onDeactivate)
      es h in
  called h'
  = (called h
     ++ (if onActivate && negb (isActive (state h)) && isActive (state h')
         then [OnActivate] else []))%list
  /\ (isActive (state h) = true -> isActive (state h') = true).
Proof.
  revert h. induction es as [|e es IH]; intros h Hes; cbn zeta.
  - cbn [fold_left]. destruct onActivate, (isActive (state h)); cbn;
      rewrite ?app_nil_r; auto.
  - cbn [forallb] in Hes. apply andb_true_iff in Hes as [He Hes].
    cbn [fold_left].
    destruct (touch_step h e He) as [Hc1 Ha1].
    set (h1 := Swipe.step edgeThreshold activationDistance onActivate onDeactivate h e)
      in *.
    destruct (IH h1 Hes) as [Hc2 Ha2].
    set (h2 := fold_left
                 (Swipe.step edgeThreshold activationDistance onActivate onDeactivate)
                 es h1) in *.
    split; [|auto].
    rewrite Hc2, Hc1, <- app_assoc. f_equal.
    destruct onActivate; [|reflexivity]. cbn [andb].
    destruct (isActive (state h)) eqn:Hh.
    + rewrite (Ha1 eq_refl), (Ha2 (Ha1 eq_refl)). reflexivity.
    + destruct (isActive (state h1)) eqn:Hh1.
      * rewrite (Ha2 eq_refl). reflexivity.
      * reflexivity.
Qed.

(** X22: over touch events that follow any sequence of events, with no
    dismissal among them, [onActivate] is called once if it is given and the
    overlay goes from inactive to active, and not at all otherwise, and no
    other callback is called; an overlay that is active stays active. So a
    swipe over an overlay that is open does not load the values again. A
    dismissal makes the overlay inactive and calls [onDeactivate] if it is
    given, and nothing if not. *)
Theorem swipe_activates_once (before touches : list Event) :
  forallb is_touch touches = true ->
  let h := Swipe.run edgeThreshold activationDistance onActivate onDeactivate before in
  let h' :=
    Swipe.run edgeThreshold activationDistance onActivate onDeactivate
      (before ++ touches) in
  let dismissed :=
    Swipe.run edgeThreshold activationDistance onActivate onDeactivate
      (before ++ touches ++ [Dismiss]) in
  called h'
  = (called h
     ++ (if onActivate && negb (isActive (state h)) && isActive (state h')
         then [OnActivate] else []))%list
  /\ (isActive (state h) = true -> isActive (state h') = true)
  /\ isActive (state dismissed) = false
  /\ called dismissed
     = (called h' ++ (if onDeactivate then [OnDeactivate] else []))%list.
Proof.
  intros Htouch. cbn zeta. unfold Swipe.run.
  rewrite app_assoc, !fold_left_app. cbn [fold_left Swipe.step].
  destruct (touches_from touches
              (fold_left
                 (Swipe.step edgeThreshold activationDistance onActivate onDeactivate)
                 before initial) Htouch) as [Hc Ha].
  split; [exact Hc|]. split; [exact Ha|].
  unfold dismiss, call. destruct onDeactivate; cbn; rewrite ?app_nil_r; auto.
Qed.

End SwipeProperties.

Section SwipeOfTheOverlay.
Import Swipe.
Local Open Scope Q_scope.

(** With the options SystemOverlay gives: two swipes after a dismissal call
    [onActivate] once. *)
Lemma swipe_activates_once_witness :
  called (Swipe.run 30 50 true false
            ([TouchStart 10; TouchMove 70; TouchEnd; Dismiss]
             ++ [TouchStart 5; TouchMove 205; TouchEnd;
                 TouchStart 5; TouchMove 100; TouchEnd]))
  = [OnActivate; OnActivate]
  /\ isActive (state (Swipe.run 30 50 true false
                        ([TouchStart 10; TouchMove 70; TouchEnd; Dismiss]
                         ++ [TouchStart 5; TouchMove 205; TouchEnd;
                             TouchStart 5; TouchMove 100; TouchEnd]
                         ++ [Dismiss]))) = false.
Proof.
  destruct (swipe_activates_once 30 50 true false
              [TouchStart 10; TouchMove 70; TouchEnd; Dismiss]
              [TouchStart 5; TouchMove 205; TouchEnd;
               TouchStart 5; TouchMove 100; TouchEnd] eq_refl)
    as (Hcalled & _ & Hoff & _).
  split; [exact Hcalled | exact Hoff].
Defined.

(** A swipe from the edge that opens the overlay and a second swipe over
    the open overlay; and a dismissal in the middle of a swipe, after which
    the touch is still followed. *)
Example swipe_twice :
  let h := Swipe.run 30 50 true false
             [TouchStart 10; TouchMove 70; TouchEnd;
              TouchStart 5; TouchMove 205; TouchEnd] in
  called h = [OnActivate] /\ isActive (state h) = true /\ progress (state h) = 1.
Proof. vm_compute. repeat split. Qed.

Example dismiss_during_swipe :
  let h := Swipe.run 30 50 true false
             [TouchStart 10; TouchMove 70; Dismiss; TouchMove 90] in
  called h = [OnActivate; OnActivate]
  /\ isDragging (state h) = false /\ touchStartedInEdge h = true.
Proof. vm_compute. repeat split. Qed.

End SwipeOfTheOverlay.
